(** * deck-gen: the JSON-repair, retry and cost-tracking core of the agents

    A shallow embedding of the reusable core of the multi-agent deck
    generator: the retry executor, the cost tracker and the response repair
    parser of [BaseAgent] (the module required as [./base-agent]; its text
    is the second part of pipeline/agents/openai-synthesizer.js), the output
    validators of the synthesizer and the generator
    (pipeline/agents/openai-synthesizer.js, gemini-generator.js), the
    aggregate gap analysis of the classifier
    (pipeline/agents/claude-classifier.js) and the rate limiting of the image
    agent ([NanoBananaGenerator], required as [./nano-banana-generator]);
    then the text utilities of [BaseAgent], the citation index of the
    synthesizer, the prompt logger ([PromptLogger], required as
    [./prompt-logger]), and the digest, the merge of the classifications and
    the relevance matrix of the classifier.

    Conventions of the embedding.
    - A text that the agents receive or build (a reply, a prompt, a key of
      a dictionary) is a [string]; each [ascii] stands for one UTF-16 code
      unit in the range U+0000..U+00FF.  A string inside a parsed document
      is a list of code units of any value ([JS.ustring]), since an escape
      of the JSON grammar can name any of them.
    - A JavaScript number that the code divides, multiplies by a fraction
      or sums up (token counts, rates, costs, the jittered backoff) is a
      binary64 number ([Number.number], the [spec_float] of the Standard
      Library, with the operations rounded as IEEE 754 rounds them).  The
      clock and the delays of the retry executor, which the code only adds
      and doubles, are integers; the relevance scores and the confidences
      that the classifier and the citation index read from a document and
      compare with a threshold are exact rationals.
    - A read of a property on an object that is used as a dictionary sees
      the members inherited from [Object.prototype].  What the language
      leaves to the engine (the members of the built-in functions, the
      lower case of a letter outside Latin-1) is a parameter of the
      embedding, the class [Engine].
    - [throw] is a result in a sum type; mutation of [this] is explicit state
      passing, and the state returned with an error is the state at the
      moment of the throw. *)

From Stdlib Require Import String Ascii List ZArith Bool Lia QArith Qcanon Qround.
From Stdlib Require Import Permutation Sorted SpecFloat.
From stdpp Require Import gmap strings list fin_maps.

Import ListNotations.
Open Scope string_scope.

(** ** JavaScript string primitives used by the agents *)

Module JS.

(** [s.startsWith(p)] *)
Fixpoint startsWith (p s : string) : bool :=
  match p, s with
  | EmptyString, _ => true
  | String a p', String b s' => Ascii.eqb a b && startsWith p' s'
  | String _ _, EmptyString => false
  end.

(** [s.includes(p)]: [p] occurs at some position of [s]. *)
Fixpoint includes (s p : string) : bool :=
  startsWith p s ||
  match s with
  | EmptyString => false
  | String _ s' => includes s' p
  end.

(** [arr.includes(x)] on an array of strings (strict equality). *)
Definition arrayIncludes (arr : list string) (x : string) : bool :=
  existsb (String.eqb x) arr.

(** Code unit of a character, [c.charCodeAt(0)]. *)
Definition charCode (c : ascii) : N := N_of_ascii c.

(** One code unit of [s.toLowerCase()].  Below U+0100 the letters with a
    lower-case partner are A-Z and the Latin-1 capitals U+00C0..U+00DE
    except the multiplication sign U+00D7. *)
Definition lowerChar (c : ascii) : ascii :=
  let n := charCode c in
  if ((65 <=? n) && (n <=? 90))%N then ascii_of_N (n + 32)
  else if ((192 <=? n) && (n <=? 222) && negb (n =? 215))%N
       then ascii_of_N (n + 32)
  else c.

Fixpoint toLowerCase (s : string) : string :=
  match s with
  | EmptyString => EmptyString
  | String c s' => String (lowerChar c) (toLowerCase s')
  end.

(** The class [\s] of regular expressions, which is also what [trim]
    strips: TAB, LF, VT, FF, CR, space and the no-break space. *)
Definition isSpace (c : ascii) : bool :=
  let n := charCode c in
  ((9 <=? n) && (n <=? 13) || (n =? 32) || (n =? 160))%N.

Fixpoint trimStart (s : string) : string :=
  match s with
  | String c s' => if isSpace c then trimStart s' else s
  | EmptyString => EmptyString
  end.

Fixpoint rev_onto (s acc : string) : string :=
  match s with
  | EmptyString => acc
  | String c s' => rev_onto s' (String c acc)
  end.

Definition rev (s : string) : string := rev_onto s EmptyString.

Definition trimEnd (s : string) : string := rev (trimStart (rev s)).

Definition trim (s : string) : string := trimEnd (trimStart s).

(** A value that is used as a condition: the empty string and
    [undefined] are falsy. *)
Definition truthy (o : option string) : bool :=
  match o with
  | Some s => negb (String.eqb s EmptyString)
  | None => false
  end.

(** The code units of a string value.  A text that the model takes as
    input holds code units up to U+00FF and is a [string]; a string that
    [JSON.parse] decodes may hold any code unit, since an escape writes
    any, and is the list of its code units. *)
Definition ustring : Type := list N.

Definition units (s : string) : ustring :=
  map charCode (list_ascii_of_string s).

(** [s.startsWith(p)] and [s.includes(p)] on code units. *)
Fixpoint startsWithU (p s : ustring) : bool :=
  match p, s with
  | [], _ => true
  | a :: p', b :: s' => (a =? b)%N && startsWithU p' s'
  | _ :: _, [] => false
  end.

Fixpoint includesU (s p : ustring) : bool :=
  startsWithU p s ||
  match s with
  | [] => false
  | _ :: s' => includesU s' p
  end.

(** [arr.join(sep)] *)
Fixpoint joinU (sep : ustring) (arr : list ustring) : ustring :=
  match arr with
  | [] => []
  | [x] => x
  | x :: arr' => (x ++ sep ++ joinU sep arr')%list
  end.

(** One code unit of [s.toLowerCase()], below U+0100. *)
Definition lowerUnit (n : N) : N :=
  if ((65 <=? n) && (n <=? 90))%N then (n + 32)%N
  else if ((192 <=? n) && (n <=? 222) && negb (n =? 215))%N then (n + 32)%N
  else n.

(** The characters the code names by an escape in its source text. *)
Definition dquote : ascii := "034"%char.
Definition backslash : ascii := "092"%char.
Definition LF : ascii := "010"%char.
Definition CR : ascii := "013"%char.
Definition TAB : ascii := "009"%char.

(** The longest prefix of characters in a class, and what follows it. *)
Fixpoint span (p : ascii -> bool) (s : string) : string * string :=
  match s with
  | EmptyString => (EmptyString, EmptyString)
  | String c s' =>
      if p c then let '(a, b) := span p s' in (String c a, b)
      else (EmptyString, s)
  end.

(** The first occurrence of [p] in [s]: the text before it and after it. *)
Fixpoint splitAt (p s : string) : option (string * string) :=
  if startsWith p s then Some (EmptyString, String.substring (String.length p) (String.length s) s)
  else
    match s with
    | EmptyString => None
    | String c s' =>
        match splitAt p s' with
        | Some (a, b) => Some (String c a, b)
        | None => None
        end
    end.

(** Text fixtures are written with an apostrophe where the JavaScript text
    has a double quote. *)
Fixpoint fixture (s : string) : string :=
  match s with
  | EmptyString => EmptyString
  | String c s' =>
      String (if Ascii.eqb c "'"%char then dquote else c) (fixture s')
  end.

End JS.

(** ** What is left to the engine

    Two things that the code can reach and that its text does not settle.

    [functionMember provider model] is what the read of the member [model]
    comes to on the member that an object literal inherits under the name
    [provider], a built-in function or [Object.prototype] itself: nothing
    or a falsy value; a truthy value, which has no [input] and no
    [output]; or an accessor that throws a [TypeError].

    [unicodeLower s] is the lower case of a string that holds a code unit
    above U+00FF, after the case mappings of the Unicode Character Database
    that the engine carries. *)

Inductive member :=
  | NoMember
  | SomeMember
  | ThrowingMember.

Class Engine := {
  functionMember : string -> string -> member;
  unicodeLower : JS.ustring -> JS.ustring
}.

(** ** Numbers

    A JavaScript number is an IEEE 754 binary64 value: a [spec_float] of the
    Standard Library, at precision 53 and with exponents below 1024, whose
    operations round to nearest, ties to even. *)

Module Number.

Definition number : Type := spec_float.

Definition prec : Z := 53.
Definition emax : Z := 1024.

Definition NaN : number := S754_nan.

Definition zero : number := S754_zero false.

(** The number nearest to an integer; the integer itself below 2^53. *)
Definition ofZ (z : Z) : number := binary_normalize prec emax z 0 false.

Definition add : number -> number -> number := SFadd prec emax.
Definition mul : number -> number -> number := SFmul prec emax.
Definition div : number -> number -> number := SFdiv prec emax.

(** The literal that writes [n] with its last [k] digits after the point,
    for [n] below 2^53 and [k] up to 22: the number nearest to [n / 10^k]. *)
Definition decimal (n : Z) (k : nat) : number :=
  div (ofZ n) (ofZ (10 ^ Z.of_nat k)).

(** [x > y] and [x < y]; both are false when an operand is NaN. *)
Definition gtb (x y : number) : bool := SFltb y x.
Definition ltb (x y : number) : bool := SFltb x y.

(** A number as a condition: 0, -0 and NaN are falsy. *)
Definition truthy (x : number) : bool :=
  match x with
  | S754_zero _ | S754_nan => false
  | _ => true
  end.

(** [Math.pow(2, k)] for an integer [k]. *)
Definition pow2 (k : Z) : number := binary_normalize prec emax 1 k false.

(** [Math.min(x, y)]: NaN when an operand is NaN; -0 is below 0. *)
Definition min (x y : number) : number :=
  match SFcompare x y with
  | None => NaN
  | Some Lt => x
  | Some Gt => y
  | Some Eq =>
      match x with
      | S754_zero true => x
      | _ => y
      end
  end.

(** [Math.floor(x)] *)
Definition floor (x : number) : number :=
  match x with
  | S754_finite s m e =>
      if (0 <=? e)%Z then x
      else
        let q := Z.shiftr (Zpos m) (- e) in
        if s then
          let whole := (Z.shiftl q (- e) =? Zpos m)%Z in
          binary_normalize prec emax (- (if whole then q else q + 1)) 0 true
        else binary_normalize prec emax q 0 false
  | _ => x
  end.

End Number.

(** ** Errors of the agents ([./base-agent], "Custom Errors") *)

(** What an operation throws: an object whose [code] and [message] the retry
    classifier reads.  [None] stands for a property that is absent (or, for
    [code], not a string: no such value is in the allow-list). *)
Record js_error := JsError {
  code : option string;
  message : option string
}.

(** [`${error.message}`]: an absent message prints as [undefined]. *)
Definition show_message (e : js_error) : string :=
  match message e with
  | Some m => m
  | None => "undefined"
  end.

(** The text of an error message.  The cost-limit message
    [`Cost limit exceeded: $${totalCost.toFixed(2)} > $${maxCost}`] is kept
    as the two numbers it prints; [MsgThenEngineText s] is [s] followed by
    the message of the engine's own [SyntaxError]. *)
Inductive message_text :=
  | Msg (s : string)
  | CostLimitMsg (totalCost maxCost : Number.number)
  | MsgThenEngineText (s : string).

Inductive error_name :=
  | AgentErrorName
  | CostLimitErrorName
  | ValidationErrorName
  | RetryExhaustedErrorName.

(** [AgentError] and its subclasses: [name], [message], [originalError],
    [context] (an object, kept as its entries) and, for
    [RetryExhaustedError], [attempts]. *)
Record agent_error := AgentErrorObj {
  name : error_name;
  errMessage : message_text;
  originalError : option js_error;
  context : list (string * string);
  attempts : option Z
}.

(** [new AgentError(message, originalError, context)] *)
Definition AgentError (msg : string) (orig : option js_error)
           (ctx : list (string * string)) : agent_error :=
  AgentErrorObj AgentErrorName (Msg msg) orig ctx None.

(** [new CostLimitError(message)] *)
Definition CostLimitError (msg : message_text) : agent_error :=
  AgentErrorObj CostLimitErrorName msg None [] None.

(** [new RetryExhaustedError(message, attempts, lastError)] *)
Definition RetryExhaustedError (msg : string) (n : Z) (last : option js_error)
  : agent_error :=
  AgentErrorObj RetryExhaustedErrorName (Msg msg) last [] (Some n).

(** Decimal rendering of an integer inside a template string. *)
Fixpoint show_pos_fuel (fuel : nat) (n : N) (acc : string) : string :=
  match fuel with
  | O => acc
  | S fuel' =>
      let d := ascii_of_N (48 + n mod 10) in
      if (n <? 10)%N then String d acc
      else show_pos_fuel fuel' (n / 10) (String d acc)
  end.

Definition show_N (n : N) : string := show_pos_fuel (S (N.to_nat (N.log2 n))) n EmptyString.

Definition show_Z (z : Z) : string :=
  match z with
  | Zneg p => "-" ++ show_N (Npos p)
  | _ => show_N (Z.to_N z)
  end.

(** What a method of the agents can throw: a [TypeError] of the engine
    (a property read on [null], a call of something that is no function, a
    value that has no string form) or an error of the agents. *)
Inductive thrown :=
  | TypeError
  | Thrown (e : agent_error).

(** ** Objects used as dictionaries *)

(** The property names that every object literal inherits from
    [Object.prototype].  A read of one of them on an object that has no
    such property of its own gives the inherited value, which is truthy
    and has neither a [push] method nor a [prompts] array, and no [input]
    or [output] member. *)
Definition objectPrototypeKeys : list string :=
  [ "constructor"; "__defineGetter__"; "__defineSetter__"; "hasOwnProperty";
    "__lookupGetter__"; "__lookupSetter__"; "isPrototypeOf";
    "propertyIsEnumerable"; "toString"; "valueOf"; "__proto__";
    "toLocaleString" ].

(** A loop whose body may throw. *)
Fixpoint foldThrow {S X : Type} (f : S -> X -> thrown + S) (l : list X) (s : S)
  : thrown + S :=
  match l with
  | [] => inr s
  | x :: l' =>
      match f s x with
      | inl e => inl e
      | inr s' => foldThrow f l' s'
      end
  end.

(** ** Retry executor ([BaseAgent], "Retry Logic") *)

Module Retry.

Definition retryableCodes : list string :=
  [ "rate_limit_exceeded"; "server_error"; "timeout"; "ECONNRESET";
    "ETIMEDOUT"; "ENOTFOUND"; "overloaded_error"; "service_unavailable" ].

Definition retryableMessages : list string :=
  [ "timeout"; "rate limit"; "overloaded"; "503"; "502"; "500";
    "temporarily unavailable" ].

(** [isRetryable(error)] *)
Definition isRetryable (error : js_error) : bool :=
  if match code error with
     | Some c => negb (String.eqb c EmptyString) && JS.arrayIncludes retryableCodes c
     | None => false
     end
  then true
  else
    let messageLower :=
      JS.toLowerCase (match message error with
                      | Some m => m
                      | None => EmptyString
                      end) in
    existsb (fun msg => JS.includes messageLower msg) retryableMessages.

(** The outcome of one [await fn()]. *)
Inductive outcome (A : Type) :=
  | Returned (a : A)
  | Threw (e : js_error).
Arguments Returned {A} a.
Arguments Threw {A} e.

Section Executor.

(** The operation is an effectful thunk: it reads and updates the state of
    its environment (the provider, the network, the clock), of an
    arbitrary type [St].  [delay ms] is what waiting [ms] milliseconds
    does to that environment. *)
Context {St A : Type}.
Variable fn : St -> outcome A * St.
Variable delay : Z -> St -> St.

(** [this.retryAttempts] and [this.retryDelay] (milliseconds), and the
    [context] argument, which is the empty object when the caller gives
    none. *)
Variable retryAttempts : Z.
Variable retryDelay : Z.
Variable context : list (string * string).

(** What the executor does to the world besides returning: it calls [fn],
    it sleeps and it logs.  [invocations] counts the calls of [fn];
    [delays] lists the arguments of [this.delay] in order; [warned] lists
    the messages logged at level [warn]. *)
Record world := World {
  opState : St;
  invocations : nat;
  delays : list Z;
  warned : list string
}.

Definition start (st : St) : world := World st 0 [] [].

(** [`Attempt ${attempt}/${this.retryAttempts} failed, retrying...`] *)
Definition retryWarning (attempt : Z) : string :=
  "Attempt " ++ show_Z attempt ++ "/" ++ show_Z retryAttempts
  ++ " failed, retrying...".

(** The [for] loop of [withRetry], [n] iterations left, at [attempt]. *)
Fixpoint retryLoop (n : nat) (attempt : Z) (lastError : option js_error)
         (w : world) : (agent_error + A) * world :=
  match n with
  | O =>
      (inl (RetryExhaustedError
              ("All " ++ show_Z retryAttempts ++ " attempts failed")
              retryAttempts lastError), w)
  | S n' =>
      let '(r, st') := fn (opState w) in
      let w1 := World st' (S (invocations w)) (delays w) (warned w) in
      match r with
      | Returned a => (inr a, w1)
      | Threw error =>
          if isRetryable error then
            let logged := (warned w ++ [retryWarning attempt])%list in
            let ms := (retryDelay * 2 ^ (attempt - 1))%Z in
            let w2 :=
              if (attempt <? retryAttempts)%Z
              then World (delay ms st') (invocations w1)
                         (delays w1 ++ [ms])%list logged
              else World st' (invocations w1) (delays w1) logged in
            retryLoop n' (attempt + 1)%Z (Some error) w2
          else
            (inl (AgentError ("Non-retryable error: " ++ show_message error)
                             (Some error) context), w1)
      end
  end.

(** [withRetry(fn, context)]: attempts 1, 2, ..., [retryAttempts]. *)
Definition withRetry (st : St) : (agent_error + A) * world :=
  retryLoop (Z.to_nat retryAttempts) 1%Z None (start st).

End Executor.

End Retry.

(** ** Cost tracker ([./base-agent], "Cost Tracking") *)

Module Cost.

Import Number.

Record rate := Rate { input : number; output : number }.

(** An exact decimal fraction. *)
Definition usd (n : Z) (d : positive) : Qc := Q2Qc (n # d).

(** The rate table of [getRates], dollars per 1K tokens. *)
Definition rateTable : list (string * list (string * rate)) :=
  [ ("anthropic",
      [ ("claude-sonnet-4-20250514", Rate (decimal 3 3) (decimal 15 3));
        ("claude-3-5-sonnet-20241022", Rate (decimal 3 3) (decimal 15 3)) ]);
    ("openai",
      [ ("gpt-5.2", Rate (decimal 1 2) (decimal 3 2));
        ("gpt-4o", Rate (decimal 5 3) (decimal 15 3));
        ("gpt-4-turbo", Rate (decimal 1 2) (decimal 3 2)) ]);
    ("google",
      [ ("gemini-2.0-flash", Rate (decimal 75 6) (decimal 3 4));
        ("gemini-3-pro-image-preview", Rate (decimal 25 5) (decimal 1 3)) ]) ].

(** Own-property lookup in an object literal. *)
Fixpoint prop {V : Type} (o : list (string * V)) (k : string) : option V :=
  match o with
  | [] => None
  | (k', v) :: o' => if String.eqb k' k then Some v else prop o' k
  end.

(** [{ input: 0.01, output: 0.03 }] *)
Definition defaultRate : rate := Rate (decimal 1 2) (decimal 3 2).

(** What the read [rates[provider]?.[model]] comes to: an object, whose
    [input] and [output] the cost formula reads; nothing, or a falsy
    value, in whose place the default rates are taken; or a [TypeError]
    thrown by the read itself. *)
Inductive lookup :=
  | Found (r : rate)
  | Missing
  | Raises.

(** An inherited member where rates were looked for: its [input] and
    [output] are [undefined], which the arithmetic takes as NaN. *)
Definition noRates : rate := Rate NaN NaN.

Section Tracker.

Context {E : Engine}.

(** [rates[provider]?.[model]] *)
Definition ratesOf (provider model : string) : lookup :=
  match prop rateTable provider with
  | Some models =>
      match prop models model with
      | Some r => Found r
      | None =>
          if JS.arrayIncludes objectPrototypeKeys model then Found noRates
          else Missing
      end
  | None =>
      if JS.arrayIncludes objectPrototypeKeys provider then
        match functionMember provider model with
        | NoMember => Missing
        | SomeMember => Found noRates
        | ThrowingMember => Raises
        end
      else Missing
  end.

(** [getRates(provider, model)]:
    [rates[provider]?.[model] || { input: 0.01, output: 0.03 }] *)
Definition getRates (provider model : string) : thrown + rate :=
  match ratesOf provider model with
  | Found r => inr r
  | Missing => inr defaultRate
  | Raises => inl TypeError
  end.

(** One element of [this.calls]. *)
Record call_record := CallRecord {
  timestamp : string;
  provider : string;
  model : string;
  inputTokens : number;
  outputTokens : number;
  cost : number
}.

(** A value of [this.breakdown]: a number, or the string that [+] makes
    when its left operand is no number (the text of the string is left
    out). *)
Inductive amount :=
  | Amount (x : number)
  | Text.

(** The fields of a [CostTracker].  [breakdown] holds the own properties
    of the object. *)
Record tracker := Tracker {
  maxCost : number;
  totalCost : number;
  breakdown : gmap string amount;
  calls : list call_record
}.

(** [new CostTracker(maxCost)] *)
Definition newTracker (maxCost : number) : tracker :=
  Tracker maxCost zero ∅ [].

(** The arguments of one [addUsage] call, with the reading of the clock
    that stamps the record. *)
Record usage := Usage {
  uTimestamp : string;
  uProvider : string;
  uModel : string;
  uInputTokens : number;
  uOutputTokens : number
}.

(** [(inputTokens / 1000) * rates.input + (outputTokens / 1000) * rates.output] *)
Definition costAt (rates : rate) (u : usage) : number :=
  add (mul (div (uInputTokens u) (ofZ 1000)) (input rates))
      (mul (div (uOutputTokens u) (ofZ 1000)) (output rates)).

(** The cost of a call, when [getRates] returns. *)
Definition costOf (u : usage) : thrown + number :=
  match getRates (uProvider u) (uModel u) with
  | inl e => inl e
  | inr rates => inr (costAt rates u)
  end.

(** [(this.breakdown[provider] || 0) + cost], where [current] is the own
    property, if there is one: a number that is 0 or NaN gives way to 0; a
    string stays a string; without an own property the read finds an
    inherited member or nothing. *)
Definition accumulate (p : string) (current : option amount) (cost : number)
  : amount :=
  match current with
  | Some (Amount x) => Amount (add (if truthy x then x else zero) cost)
  | Some Text => Text
  | None =>
      if JS.arrayIncludes objectPrototypeKeys p then Text
      else Amount (add zero cost)
  end.

(** [this.breakdown[provider] = ...]: the assignment makes or updates an
    own property, except under the name [__proto__], where the string it
    would store is dropped by the setter of [Object.prototype]. *)
Definition record (p : string) (cost : number) (b : gmap string amount)
  : gmap string amount :=
  if String.eqb p "__proto__" then b
  else <[p := accumulate p (b !! p) cost]> b.

(** [addUsage(provider, model, inputTokens, outputTokens)].  The totals and
    the record are written first; the limit is checked last, so the state
    that comes with the error already holds the crossing call. *)
Definition addUsage (u : usage) (t : tracker) : (thrown + number) * tracker :=
  match getRates (uProvider u) (uModel u) with
  | inl e => (inl e, t)
  | inr rates =>
      let cost := costAt rates u in
      let total := add (totalCost t) cost in
      let t' :=
        Tracker (maxCost t) total
                (record (uProvider u) cost (breakdown t))
                (calls t ++ [CallRecord (uTimestamp u) (uProvider u) (uModel u)
                                        (uInputTokens u) (uOutputTokens u) cost])%list in
      if gtb total (maxCost t)
      then (inl (Thrown (CostLimitError (CostLimitMsg total (maxCost t)))), t')
      else (inr cost, t')
  end.

(** The tracker after a sequence of calls each of whose errors, if any, was
    caught by the caller: the object is shared and outlives a throw. *)
Definition afterCalls (us : list usage) (t : tracker) : tracker :=
  fold_left (fun t u => snd (addUsage u t)) us t.

(** [getSummary()] *)
Record summary := Summary {
  sTotalCost : number;
  sBreakdown : gmap string amount;
  callCount : nat;
  averageCostPerCall : number
}.

Definition getSummary (t : tracker) : summary :=
  Summary (totalCost t) (breakdown t) (length (calls t))
          (if (0 <? length (calls t))%nat
           then div (totalCost t) (ofZ (Z.of_nat (length (calls t))))
           else zero).

End Tracker.

End Cost.

(** ** JSON values, [JSON.parse] and [JSON.stringify]

    The two built-ins of the language that the agents call, after the JSON
    grammar: a scanner that turns the text into tokens and a parser over
    the tokens, both total. *)

Module Json.

(** A parsed document.  A number keeps the text it was written with, a
    string is the list of its code units, and an object keeps its members
    in the order of first insertion. *)
#[warnings="-register-all"]
Inductive json :=
  | JNull
  | JBool (b : bool)
  | JNum (lexeme : string)
  | JStr (s : JS.ustring)
  | JArr (elems : list json)
  | JObj (members : list (JS.ustring * json)).

(** A string value and an object written with code units up to U+00FF. *)
Definition str (s : string) : json := JStr (JS.units s).

Definition obj (members : list (string * json)) : json :=
  JObj (map (fun kv => (JS.units (fst kv), snd kv)) members).

(** White space of the JSON grammar: TAB, LF, CR and space. *)
Definition isWs (c : ascii) : bool :=
  let n := JS.charCode c in
  ((n =? 9) || (n =? 10) || (n =? 13) || (n =? 32))%N.

Definition isDigit (c : ascii) : bool :=
  let n := JS.charCode c in ((48 <=? n) && (n <=? 57))%N.

Definition hexValue (c : ascii) : option N :=
  let n := JS.charCode c in
  if ((48 <=? n) && (n <=? 57))%N then Some (n - 48)%N
  else if ((97 <=? n) && (n <=? 102))%N then Some (n - 87)%N
  else if ((65 <=? n) && (n <=? 70))%N then Some (n - 55)%N
  else None.

(** The character a two-character escape stands for. *)
Definition unescape (c : ascii) : option ascii :=
  if Ascii.eqb c JS.dquote then Some JS.dquote
  else if Ascii.eqb c JS.backslash then Some JS.backslash
  else if Ascii.eqb c "/" then Some "/"%char
  else if Ascii.eqb c "b" then Some "008"%char
  else if Ascii.eqb c "f" then Some "012"%char
  else if Ascii.eqb c "n" then Some JS.LF
  else if Ascii.eqb c "r" then Some JS.CR
  else if Ascii.eqb c "t" then Some JS.TAB
  else None.

(** [obj[k] = v] while an object is being built: a repeated key keeps its
    place and takes the later value. *)
Fixpoint setProp (o : list (JS.ustring * json)) (k : JS.ustring) (v : json)
  : list (JS.ustring * json) :=
  match o with
  | [] => [(k, v)]
  | (k', v') :: o' =>
      if bool_decide (k' = k) then (k', v) :: o' else (k', v') :: setProp o' k v
  end.

Definition dropPrefix (p s : string) : option string :=
  if JS.startsWith p s
  then Some (String.substring (String.length p) (String.length s) s)
  else None.

(** *** Tokens *)

Inductive literal := LitTrue | LitFalse | LitNull.

Definition literalText (l : literal) : string :=
  match l with
  | LitTrue => "true"
  | LitFalse => "false"
  | LitNull => "null"
  end.

Definition literalValue (l : literal) : json :=
  match l with
  | LitTrue => JBool true
  | LitFalse => JBool false
  | LitNull => JNull
  end.

Inductive token :=
  | TLBrace | TRBrace | TLBracket | TRBracket | TColon | TComma
  | TLit (l : literal)
  | TStr (s : JS.ustring)
  | TNum (lexeme : string).

(** Where the scanner is inside a number: after the minus sign; after a
    leading zero; in the digits of the integer part; after the dot; in the
    digits of the fraction; after the exponent mark; after the sign of the
    exponent; in the digits of the exponent. *)
Inductive numState :=
  | NMinus | NZero | NInt | NDot | NFrac | NE | NESign | NExp.

(** The places where a number may end. *)
Definition numAccepting (st : numState) : bool :=
  match st with
  | NZero | NInt | NFrac | NExp => true
  | NMinus | NDot | NE | NESign => false
  end.

Definition isExpMark (c : ascii) : bool := Ascii.eqb c "e" || Ascii.eqb c "E".

Definition isSign (c : ascii) : bool := Ascii.eqb c "+" || Ascii.eqb c "-".

(** The number grammar: an optional minus sign; the integer part, a single
    0 or a nonzero digit followed by digits; an optional fraction, a dot
    and one or more digits; an optional exponent, e or E, an optional sign
    and one or more digits.  [None] when the character does not continue
    the number. *)
Definition numStep (st : numState) (c : ascii) : option numState :=
  match st with
  | NMinus =>
      if Ascii.eqb c "0" then Some NZero
      else if isDigit c then Some NInt else None
  | NZero =>
      if Ascii.eqb c "." then Some NDot
      else if isExpMark c then Some NE else None
  | NInt =>
      if isDigit c then Some NInt
      else if Ascii.eqb c "." then Some NDot
      else if isExpMark c then Some NE else None
  | NDot => if isDigit c then Some NFrac else None
  | NFrac =>
      if isDigit c then Some NFrac
      else if isExpMark c then Some NE else None
  | NE =>
      if isSign c then Some NESign
      else if isDigit c then Some NExp else None
  | NESign => if isDigit c then Some NExp else None
  | NExp => if isDigit c then Some NExp else None
  end.

(** Where the scanner is in the text: between tokens; inside a string
    literal, with the characters decoded so far; after a backslash; inside
    the four digits of a Unicode escape; inside [true], [false] or [null],
    with the number of its characters already seen; inside a number, with
    its text so far. *)
Inductive lexState :=
  | LIdle
  | LStr (acc : JS.ustring)
  | LEsc (acc : JS.ustring)
  | LHex (acc : JS.ustring) (digits : list N)
  | LLit (l : literal) (seen : nat)
  | LNum (st : numState) (acc : string).

(** A string so far and one more character of the text. *)
Definition snoc (s : JS.ustring) (c : ascii) : JS.ustring :=
  (s ++ [JS.charCode c])%list.

(** The text of a number so far and one more character. *)
Definition snocText (s : string) (c : ascii) : string :=
  s ++ String c EmptyString.

(** A character read between tokens. *)
Definition idleStep (c : ascii) : option (lexState * list token) :=
  if isWs c then Some (LIdle, [])
  else if Ascii.eqb c "{" then Some (LIdle, [TLBrace])
  else if Ascii.eqb c "}" then Some (LIdle, [TRBrace])
  else if Ascii.eqb c "[" then Some (LIdle, [TLBracket])
  else if Ascii.eqb c "]" then Some (LIdle, [TRBracket])
  else if Ascii.eqb c ":" then Some (LIdle, [TColon])
  else if Ascii.eqb c "," then Some (LIdle, [TComma])
  else if Ascii.eqb c JS.dquote then Some (LStr [], [])
  else if Ascii.eqb c "t" then Some (LLit LitTrue 1, [])
  else if Ascii.eqb c "f" then Some (LLit LitFalse 1, [])
  else if Ascii.eqb c "n" then Some (LLit LitNull 1, [])
  else if Ascii.eqb c "-" then Some (LNum NMinus "-", [])
  else if Ascii.eqb c "0" then Some (LNum NZero "0", [])
  else if isDigit c then Some (LNum NInt (String c EmptyString), [])
  else None.

(** One character of the text: the next state and the tokens completed by
    it, or [None] for a character the grammar does not allow there.  The
    four digits of a Unicode escape give one code unit. *)
Definition lexStep (st : lexState) (c : ascii)
  : option (lexState * list token) :=
  match st with
  | LIdle => idleStep c
  | LStr acc =>
      if Ascii.eqb c JS.dquote then Some (LIdle, [TStr acc])
      else if Ascii.eqb c JS.backslash then Some (LEsc acc, [])
      else if (JS.charCode c <? 32)%N then None
      else Some (LStr (snoc acc c), [])
  | LEsc acc =>
      if Ascii.eqb c "u" then Some (LHex acc [], [])
      else
        match unescape c with
        | Some ch => Some (LStr (snoc acc ch), [])
        | None => None
        end
  | LHex acc ds =>
      match hexValue c with
      | Some d =>
          match ds with
          | [d1; d2; d3] =>
              Some (LStr (acc ++ [(((d1 * 16 + d2) * 16 + d3) * 16 + d)%N])%list, [])
          | _ => Some (LHex acc (ds ++ [d])%list, [])
          end
      | None => None
      end
  | LLit l seen =>
      match String.get seen (literalText l) with
      | Some expected =>
          if Ascii.eqb c expected then
            if (S seen =? String.length (literalText l))%nat
            then Some (LIdle, [TLit l])
            else Some (LLit l (S seen), [])
          else None
      | None => None
      end
  | LNum ns acc =>
      match numStep ns c with
      | Some ns' => Some (LNum ns' (snocText acc c), [])
      | None =>
          if numAccepting ns then
            match idleStep c with
            | Some (st', toks) => Some (st', TNum acc :: toks)
            | None => None
            end
          else None
      end
  end.

(** The end of the text: only between tokens, or at the end of a number. *)
Definition lexEnd (st : lexState) : option (list token) :=
  match st with
  | LIdle => Some []
  | LNum ns acc => if numAccepting ns then Some [TNum acc] else None
  | _ => None
  end.

Fixpoint lexFrom (st : lexState) (s : string) : option (list token) :=
  match s with
  | EmptyString => lexEnd st
  | String c s' =>
      match lexStep st c with
      | Some (st', toks) =>
          match lexFrom st' s' with
          | Some more => Some (toks ++ more)%list
          | None => None
          end
      | None => None
      end
  end.

Definition lex (text : string) : option (list token) := lexFrom LIdle text.

(** *** The grammar of values over tokens *)

(** A container whose next element or member value is being read. *)
Inductive context :=
  | CArr (elems : list json)
  | CObj (members : list (JS.ustring * json)) (key : JS.ustring).

(** What the parser expects next, inside the containers of [stk]:
    a value; a value or the end of an array just opened; a key or the end
    of an object just opened; a key; a colon; a comma or the end of the
    array; a comma or the end of the object; the end of the text. *)
Inductive parseState :=
  | SValue (stk : list context)
  | SArrOpen (stk : list context)
  | SObjOpen (stk : list context)
  | SKey (stk : list context) (members : list (JS.ustring * json))
  | SColon (stk : list context) (members : list (JS.ustring * json)) (key : JS.ustring)
  | SArrSep (stk : list context) (elems : list json)
  | SObjSep (stk : list context) (members : list (JS.ustring * json))
  | SEnd (v : json).

(** A value is complete: it goes into the innermost open container. *)
Definition deliver (stk : list context) (v : json) : parseState :=
  match stk with
  | [] => SEnd v
  | CArr elems :: stk' => SArrSep stk' (elems ++ [v])%list
  | CObj members key :: stk' => SObjSep stk' (setProp members key v)
  end.

Definition valueStep (stk : list context) (t : token) : option parseState :=
  match t with
  | TLBracket => Some (SArrOpen stk)
  | TLBrace => Some (SObjOpen stk)
  | TStr s => Some (deliver stk (JStr s))
  | TNum l => Some (deliver stk (JNum l))
  | TLit l => Some (deliver stk (literalValue l))
  | _ => None
  end.

Definition parseStep (st : parseState) (t : token) : option parseState :=
  match st with
  | SValue stk => valueStep stk t
  | SArrOpen stk =>
      match t with
      | TRBracket => Some (deliver stk (JArr []))
      | _ => valueStep (CArr [] :: stk) t
      end
  | SObjOpen stk =>
      match t with
      | TRBrace => Some (deliver stk (JObj []))
      | TStr k => Some (SColon stk [] k)
      | _ => None
      end
  | SKey stk members =>
      match t with
      | TStr k => Some (SColon stk members k)
      | _ => None
      end
  | SColon stk members key =>
      match t with
      | TColon => Some (SValue (CObj members key :: stk))
      | _ => None
      end
  | SArrSep stk elems =>
      match t with
      | TComma => Some (SValue (CArr elems :: stk))
      | TRBracket => Some (deliver stk (JArr elems))
      | _ => None
      end
  | SObjSep stk members =>
      match t with
      | TComma => Some (SKey stk members)
      | TRBrace => Some (deliver stk (JObj members))
      | _ => None
      end
  | SEnd _ => None
  end.

Fixpoint parseFrom (st : parseState) (toks : list token) : option json :=
  match toks with
  | [] =>
      match st with
      | SEnd v => Some v
      | _ => None
      end
  | t :: toks' =>
      match parseStep st t with
      | Some st' => parseFrom st' toks'
      | None => None
      end
  end.

(** [JSON.parse(text)]; [None] is a thrown [SyntaxError]. *)
Definition JSON_parse (text : string) : option json :=
  match lex text with
  | Some toks => parseFrom (SValue []) toks
  | None => None
  end.

Definition hexDigit (n : N) : ascii :=
  if (n <? 10)%N then ascii_of_N (48 + n) else ascii_of_N (87 + n).

(** [\uXXXX] with lower-case digits, for a code unit below 2^16. *)
Definition unicodeEscape (n : N) : JS.ustring :=
  ([92; 117]%N ++
   map (fun d => JS.charCode (hexDigit d))
       [(n / 4096) mod 16; (n / 256) mod 16; (n / 16) mod 16; n mod 16]%N)%list.

Definition isHighSurrogate (n : N) : bool := ((55296 <=? n) && (n <=? 56319))%N.

Definition isLowSurrogate (n : N) : bool := ((56320 <=? n) && (n <=? 57343))%N.

(** One code unit of a string, no surrogate, as [JSON.stringify] writes
    it. *)
Definition escapeUnit (n : N) : JS.ustring :=
  if (n =? 34)%N then [92; 34]%N
  else if (n =? 92)%N then [92; 92]%N
  else if (n =? 8)%N then [92; 98]%N
  else if (n =? 12)%N then [92; 102]%N
  else if (n =? 10)%N then [92; 110]%N
  else if (n =? 13)%N then [92; 114]%N
  else if (n =? 9)%N then [92; 116]%N
  else if (n <? 32)%N then unicodeEscape n
  else [n].

(** A surrogate pair is written as it is, a surrogate without its partner
    as an escape. *)
Fixpoint escape (s : JS.ustring) : JS.ustring :=
  match s with
  | [] => []
  | n :: rest =>
      if isHighSurrogate n then
        match rest with
        | m :: rest' =>
            if isLowSurrogate m then n :: m :: escape rest'
            else (unicodeEscape n ++ escape rest)%list
        | [] => unicodeEscape n
        end
      else if isLowSurrogate n then (unicodeEscape n ++ escape rest)%list
      else (escapeUnit n ++ escape rest)%list
  end.

Definition quote (s : JS.ustring) : JS.ustring :=
  ([34%N] ++ escape s ++ [34%N])%list.

(** [JSON.stringify(v)] without indentation, as code units.  A number is
    written with the text it was read from, and the members of an object in
    the order of the list. *)
Fixpoint stringify (v : json) : JS.ustring :=
  match v with
  | JNull => JS.units "null"
  | JBool true => JS.units "true"
  | JBool false => JS.units "false"
  | JNum l => JS.units l
  | JStr s => quote s
  | JArr l =>
      ([91%N] ++
       (fix elems (l : list json) : JS.ustring :=
          match l with
          | [] => []
          | [x] => stringify x
          | x :: l' => stringify x ++ [44%N] ++ elems l'
          end) l ++ [93%N])%list
  | JObj m =>
      ([123%N] ++
       (fix members (m : list (JS.ustring * json)) : JS.ustring :=
          match m with
          | [] => []
          | [(k, x)] => quote k ++ [58%N] ++ stringify x
          | (k, x) :: m' => quote k ++ [58%N] ++ stringify x ++ [44%N] ++ members m'
          end) m ++ [125%N])%list
  end.

End Json.

(** ** Response repair parser ([BaseAgent], "Utility Methods") *)

Module Repair.

Import Json.

(** *** [closeOpenBrackets] *)

(** The variables of the scanning loop.  [stack] holds the closers still
    owed, the top of the stack first. *)
Record scanState := ScanState {
  stack : list ascii;
  inString : bool;
  escapeNext : bool
}.

Definition scanStart : scanState := ScanState [] false false.

(** One iteration of the [for] loop of [closeOpenBrackets]. *)
Definition scanStep (st : scanState) (char : ascii) : scanState :=
  if escapeNext st then ScanState (stack st) (inString st) false
  else if Ascii.eqb char JS.backslash then ScanState (stack st) (inString st) true
  else if Ascii.eqb char JS.dquote then
    ScanState (stack st) (negb (inString st)) (escapeNext st)
  else if negb (inString st) then
    if Ascii.eqb char "{" then
      ScanState ("}"%char :: stack st) (inString st) (escapeNext st)
    else if Ascii.eqb char "[" then
      ScanState ("]"%char :: stack st) (inString st) (escapeNext st)
    else if Ascii.eqb char "}" || Ascii.eqb char "]" then
      match stack st with
      | top :: below =>
          if Ascii.eqb top char
          then ScanState below (inString st) (escapeNext st)
          else st
      | [] => st
      end
    else st
  else st.

Fixpoint scan (s : string) (st : scanState) : scanState :=
  match s with
  | EmptyString => st
  | String c s' => scan s' (scanStep st c)
  end.

(** What the two closing loops append: a quote if the scan ended inside a
    string, then the stack popped from the top. *)
Definition closers (st : scanState) : string :=
  (if inString st then String JS.dquote EmptyString else EmptyString)
  ++ string_of_list_ascii (stack st).

Definition closeOpenBrackets (jsonStr : string) : string :=
  jsonStr ++ closers (scan jsonStr scanStart).

(** *** [fixStringEscaping] *)

(** [char.charCodeAt(0).toString(16).padStart(4, '0')] for a code below 32 *)
Definition hex4 (n : N) : string :=
  String "0" (String "0"
    (String (hexDigit (n / 16)) (String (hexDigit (n mod 16)) EmptyString))).

Fixpoint fixEscapingFrom (s : string) (inStr escNext : bool) : string :=
  match s with
  | EmptyString => EmptyString
  | String char s' =>
      if escNext then String char (fixEscapingFrom s' inStr false)
      else if Ascii.eqb char JS.backslash
      then String char (fixEscapingFrom s' inStr true)
      else if Ascii.eqb char JS.dquote
      then String char (fixEscapingFrom s' (negb inStr) false)
      else if inStr then
        (if Ascii.eqb char JS.LF then String JS.backslash "n"
         else if Ascii.eqb char JS.CR then String JS.backslash "r"
         else if Ascii.eqb char JS.TAB then String JS.backslash "t"
         else if (JS.charCode char <? 32)%N
         then String JS.backslash (String "u" (hex4 (JS.charCode char)))
         else String char EmptyString)
        ++ fixEscapingFrom s' inStr false
      else String char (fixEscapingFrom s' inStr false)
  end.

Definition fixStringEscaping (jsonStr : string) : string :=
  fixEscapingFrom jsonStr false false.

(** *** The regular-expression passes of [repairJSON] *)

(** [s.replace(re, template)] for a global [re] none of whose matches is
    empty.  [m] tells whether [re] matches at the start of a text, and then
    gives the replacement and the text after the match; the search resumes
    there.  [fuel] bounds the number of steps. *)
Fixpoint replaceAll (m : string -> option (string * string)) (fuel : nat)
         (s : string) : string :=
  match fuel with
  | O => s
  | S fuel' =>
      match m s with
      | Some (replacement, rest) => replacement ++ replaceAll m fuel' rest
      | None =>
          match s with
          | EmptyString => EmptyString
          | String c s' => String c (replaceAll m fuel' s')
          end
      end
  end.

Definition replace (m : string -> option (string * string)) (s : string)
  : string :=
  replaceAll m (S (String.length s)) s.

(** A pattern made of one character X, a run of white space (the group)
    and one character Y of a class, neither X nor Y being white space: the
    white space and the Y that were matched, and the text after them. *)
Definition matchPair (x : ascii) (y : ascii -> bool) (s : string)
  : option (string * ascii * string) :=
  match s with
  | String c r =>
      if Ascii.eqb c x then
        let '(ws, r') := JS.span JS.isSpace r in
        match r' with
        | String d rest => if y d then Some (ws, d, rest) else None
        | EmptyString => None
        end
      else None
  | EmptyString => None
  end.

Definition isOneOf (cs : string) (c : ascii) : bool :=
  existsb (Ascii.eqb c) (list_ascii_of_string cs).

(** 1. A comma, white space and a closing bracket or brace: the comma is
    dropped. *)
Definition trailingComma (s : string) : option (string * string) :=
  match matchPair "," (isOneOf "]}") s with
  | Some (ws, d, rest) => Some (ws ++ String d EmptyString, rest)
  | None => None
  end.

(** The first group of pass 2: a quote, a digit, [true], [false], [null],
    a closing bracket or a closing brace. *)
Definition valueEnd (s : string) : option (string * string) :=
  match s with
  | String c r =>
      if Ascii.eqb c JS.dquote || isDigit c || isOneOf "]}" c
      then Some (String c EmptyString, r)
      else if JS.startsWith "true" s then
        Some ("true", String.substring 4 (String.length s) s)
      else if JS.startsWith "false" s then
        Some ("false", String.substring 5 (String.length s) s)
      else if JS.startsWith "null" s then
        Some ("null", String.substring 4 (String.length s) s)
      else None
  | EmptyString => None
  end.

(** 2. The end of a value, a run of white space that holds a line feed, and
    the start of a string, array or object: a comma is put after the first
    group.  The run is the whole white space between the two: it is
    followed at once by the third group, which is not white space. *)
Definition missingComma (s : string) : option (string * string) :=
  match valueEnd s with
  | Some (g1, r) =>
      let '(ws, r') := JS.span JS.isSpace r in
      match r' with
      | String d rest =>
          if existsb (Ascii.eqb JS.LF) (list_ascii_of_string ws)
             && (Ascii.eqb d JS.dquote || isOneOf "[{" d)
          then Some (g1 ++ "," ++ ws ++ String d EmptyString, rest)
          else None
      | EmptyString => None
      end
  | None => None
  end.

(** 3 to 6. X, white space, Y replaced by X, a comma, the same white
    space and Y; for the pairs [}{], [][], []{] and [}[]. *)
Definition commaBetween (x y : ascii) (s : string) : option (string * string) :=
  match matchPair x (Ascii.eqb y) s with
  | Some (ws, d, rest) =>
      Some (String x ("," ++ ws ++ String d EmptyString), rest)
  | None => None
  end.

(** 7. A comma, white space and a comma replaced by one comma. *)
Definition doubleComma (s : string) : option (string * string) :=
  match matchPair "," (Ascii.eqb ",") s with
  | Some (_, _, rest) => Some (",", rest)
  | None => None
  end.

(** Steps 1 to 7 of [repairJSON]. *)
Definition commaPasses (jsonStr : string) : string :=
  let repaired := replace trailingComma jsonStr in
  let repaired := replace missingComma repaired in
  let repaired := replace (commaBetween "}" "{") repaired in
  let repaired := replace (commaBetween "]" "[") repaired in
  let repaired := replace (commaBetween "]" "{") repaired in
  let repaired := replace (commaBetween "}" "[") repaired in
  replace doubleComma repaired.

(** [repairJSON(jsonStr)] *)
Definition repairJSON (jsonStr : string) : string :=
  closeOpenBrackets (fixStringEscaping (commaPasses jsonStr)).

(** *** [extractJSON] *)

Definition fence : string := "```".

(** The first group of the code-block pattern: an opening fence, an
    optional [json], white space, the group (as short as possible) and a
    closing fence.  At an opening fence the optional [json] and the white space are taken
    greedily and the group runs to the next fence; giving any of them back
    cannot find a fence that this choice misses, since none of the
    characters given back is a backtick.  Without a later fence the search
    moves one character on. *)
Fixpoint codeBlockMatch (s : string) : option string :=
  match
    (if JS.startsWith fence s then
       let r := String.substring 3 (String.length s) s in
       let r1 := match dropPrefix "json" r with
                 | Some r' => r'
                 | None => r
                 end in
       let '(_, r2) := JS.span JS.isSpace r1 in
       match JS.splitAt fence r2 with
       | Some (group, _) => Some group
       | None => None
       end
     else None)
  with
  | Some group => Some group
  | None =>
      match s with
      | EmptyString => None
      | String _ s' => codeBlockMatch s'
      end
  end.

(** The text up to and including the last closing brace, if there is one. *)
Fixpoint upToLastBrace (s : string) : option string :=
  match s with
  | EmptyString => None
  | String c s' =>
      match upToLastBrace s' with
      | Some t => Some (String c t)
      | None => if Ascii.eqb c "}" then Some (String c EmptyString) else None
      end
  end.

(** The raw-object pattern, an opening brace, anything (as long as
    possible) and a closing brace: from the first opening brace to the last
    closing brace after it. *)
Fixpoint jsonMatch (s : string) : option string :=
  match s with
  | EmptyString => None
  | String c s' =>
      if Ascii.eqb c "{" then
        match upToLastBrace s' with
        | Some t => Some (String c t)
        | None => None
        end
      else jsonMatch s'
  end.

(** The candidate text, [jsonStr] before the test [if (!jsonStr)]. *)
Definition candidate (responseText : string) : option string :=
  match codeBlockMatch responseText with
  | Some group => Some (JS.trim group)
  | None => jsonMatch responseText
  end.

(** What a call of [extractJSON] leaves behind: its result, whether the
    repair pass ran, and the text written to the scratch file. *)
Record extraction := Extraction {
  result : agent_error + json;
  repairAttempted : bool;
  savedText : option string
}.

Definition extractJSON (responseText : string) : extraction :=
  if JS.truthy (candidate responseText) then
    let jsonStr := match candidate responseText with
                   | Some t => t
                   | None => EmptyString
                   end in
    match JSON_parse jsonStr with
    | Some v => Extraction (inr v) false None
    | None =>
        let repaired := repairJSON jsonStr in
        match JSON_parse repaired with
        | Some v => Extraction (inr v) true None
        | None =>
            Extraction
              (inl (AgentErrorObj AgentErrorName
                      (MsgThenEngineText "Could not parse JSON from response: ")
                      None [] None))
              true (Some jsonStr)
        end
    end
  else
    Extraction (inl (AgentError "Could not extract JSON from response" None []))
               false None.

End Repair.

(** ** Slide types (claude-classifier.js) *)

Definition SLIDE_TYPES : list string :=
  [ "title"; "purpose"; "problem"; "solution"; "whyNow"; "marketSize";
    "competition"; "product"; "businessModel"; "traction"; "team"; "ask" ].

(** ** Reading parsed documents the way the validators do *)

Module Value.

Import Json.

(** The number that a text of the number grammar stands for:
    [mantissa * 10^exponent]. *)
Record decimal := Decimal {
  mantissa : N;
  exponent : Z
}.

Fixpoint readDigits (l : string) (n : N) : N :=
  match l with
  | EmptyString => n
  | String c l' =>
      if isDigit c then readDigits l' (n * 10 + (JS.charCode c - 48))%N
      else readDigits l' n
  end.

(** The exponent part, after its mark. *)
Definition readExponent (l : string) : Z :=
  match l with
  | String c l' =>
      if Ascii.eqb c "-" then (- Z.of_N (readDigits l' 0))%Z
      else Z.of_N (readDigits l 0)
  | EmptyString => 0%Z
  end.

(** The digits of the integer part and of the fraction, [frac] of them
    after the point so far. *)
Fixpoint readDecimal (l : string) (m : N) (frac : Z) (inFrac : bool) : decimal :=
  match l with
  | EmptyString => Decimal m (- frac)
  | String c l' =>
      if isDigit c then
        readDecimal l' (m * 10 + (JS.charCode c - 48))%N
                    (if inFrac then frac + 1 else frac)%Z inFrac
      else if Ascii.eqb c "." then readDecimal l' m frac true
      else if isExpMark c then Decimal m (readExponent l' - frac)
      else readDecimal l' m frac inFrac
  end.

(** Whether the number that [JSON.parse] makes of the text is 0 or -0: the
    text stands for 0, or for a number that is at most 2^-1075 in
    magnitude, half of the least number above 0, and is rounded to 0. *)
Definition numberIsZero (l : string) : bool :=
  let d := readDecimal l 0 0 false in
  (mantissa d =? 0)%N
  || ((exponent d <? 0)%Z
      && (Z.of_N (mantissa d) * 2 ^ 1075 <=? 10 ^ (- exponent d))%Z).

(** The value as a condition.  [None] is [undefined]. *)
Definition truthy (v : option json) : bool :=
  match v with
  | None => false
  | Some JNull => false
  | Some (JBool b) => b
  | Some (JNum l) => negb (numberIsZero l)
  | Some (JStr s) => negb (bool_decide (s = []))
  | Some (JArr _) => true
  | Some (JObj _) => true
  end.

Fixpoint member (o : list (JS.ustring * json)) (k : string) : option json :=
  match o with
  | [] => None
  | (k', v) :: o' => if bool_decide (k' = JS.units k) then Some v else member o' k
  end.

(** [v.k] for [v] other than [null] and [undefined], and [k] one of the
    names the agents read ([company], [name], [design], [slides], [type],
    [citations], [length]): a member of an object, the length of an array
    or of a string, and otherwise [undefined]. *)
Definition get (v : json) (k : string) : option json :=
  match v with
  | JObj m => member m k
  | JArr l =>
      if String.eqb k "length"
      then Some (JNum (show_N (N.of_nat (length l)))) else None
  | JStr s =>
      if String.eqb k "length"
      then Some (JNum (show_N (N.of_nat (length s)))) else None
  | _ => None
  end.

(** [v.k] when [v] may be [null] or [undefined]: a [TypeError] then. *)
Definition read (v : option json) (k : string) : thrown + option json :=
  match v with
  | None | Some JNull => inl TypeError
  | Some v' => inr (get v' k)
  end.

(** [v?.k] *)
Definition readOpt (v : option json) (k : string) : option json :=
  match v with
  | None | Some JNull => None
  | Some v' => get v' k
  end.

(** [x === 0] *)
Definition isZero (v : option json) : bool :=
  match v with
  | Some (JNum l) => numberIsZero l
  | _ => false
  end.

(** [arr.map((s) => s.type)] *)
Fixpoint types (slides : list json) : thrown + list (option json) :=
  match slides with
  | [] => inr []
  | s :: slides' =>
      match read (Some s) "type" with
      | inl e => inl e
      | inr t =>
          match types slides' with
          | inl e => inl e
          | inr ts => inr (t :: ts)
          end
      end
  end.

(** [new Set(found).has(type)] for a string [type] *)
Definition hasType (found : list (option json)) (type : string) : bool :=
  existsb (fun t => match t with
                    | Some (JStr s) => bool_decide (s = JS.units type)
                    | _ => false
                    end) found.

(** Number of matches of the pattern [\[TBD] in a text. *)
Fixpoint countTBD (s : JS.ustring) : nat :=
  (if JS.startsWithU (JS.units "[TBD") s then 1 else 0) +
  match s with
  | [] => 0
  | _ :: s' => countTBD s'
  end.

(** Whether a value has a string form, as a template literal asks for it.
    An object takes its form from the [toString] that it inherits, unless
    a member of its own hides it: a member from a document is no function,
    and the conversion throws a [TypeError].  An array joins the forms of
    its elements, where [null] counts as the empty string. *)
Fixpoint printable (v : json) : bool :=
  match v with
  | JObj m => negb (existsb (fun kv => bool_decide (fst kv = JS.units "toString")) m)
  | JArr l => forallb printable l
  | _ => true
  end.

End Value.

(** ** Validators of the synthesizer and the generator *)

Module Validate.

Import Json Value.

(** A pushed warning, kept as the values its text prints. *)
Inductive warning :=
  | MissingCompanyName
  | MissingDesignObject
  | MissingSlideType (type : string)
  | NoCitations (slideType : option json)
  | TbdEntries (count : nat).

Record validation := Validation {
  valid : bool;
  errors : list string;
  warnings : list warning
}.

Definition missingTypes (found : list (option json)) : list warning :=
  map MissingSlideType (List.filter (fun t => negb (hasType found t)) SLIDE_TYPES).

(** [`Slide '${slide.type}' has no citations`]: the warning, when the
    type has a string form. *)
Definition citationWarning (slideType : option json) : thrown + warning :=
  match slideType with
  | Some v => if printable v then inr (NoCitations slideType) else inl TypeError
  | None => inr (NoCitations slideType)
  end.

(** The loop over the slides of [validateSynthesisOutput]. *)
Fixpoint citationWarnings (slides : list json) : thrown + list warning :=
  match slides with
  | [] => inr []
  | slide :: slides' =>
      let citations := get slide "citations" in
      match
        (if negb (truthy citations) || isZero (readOpt citations "length")
         then match citationWarning (get slide "type") with
              | inl e => inl e
              | inr w => inr [w]
              end
         else inr [])
      with
      | inl e => inl e
      | inr ws =>
          match citationWarnings slides' with
          | inl e => inl e
          | inr ws' => inr (ws ++ ws')%list
          end
      end
  end.

Definition joinErrors (errors : list string) : string :=
  String.concat ", " errors.

(** [validateSynthesisOutput(output)] (openai-synthesizer.js) *)
Definition validateSynthesisOutput (output : json) : thrown + validation :=
  match read (Some output) "company" with
  | inl e => inl e
  | inr company =>
      let warnings :=
        if negb (truthy (readOpt company "name"))
        then [MissingCompanyName] else [] in
      let errors : list string := [] in
      match get output "slides" with
      | Some (JArr slides) =>
          match types slides with
          | inl e => inl e
          | inr found =>
              match citationWarnings slides with
              | inl e => inl e
              | inr uncited =>
                  let warnings :=
                    (warnings ++ missingTypes found ++ uncited)%list in
                  if (0 <? length errors)%nat then
                    inl (Thrown (AgentError
                           ("Synthesis output validation failed: " ++ joinErrors errors)
                           None []))
                  else inr (Validation true errors warnings)
              end
          end
      | _ =>
          inr (Validation false
                 (errors ++ ["Missing or invalid slides array"])%list warnings)
      end
  end.

(** [validateDeckConfig(config)] (gemini-generator.js) *)
Definition validateDeckConfig (config : json) : thrown + validation :=
  match read (Some config) "company" with
  | inl e => inl e
  | inr company =>
      let errors :=
        if negb (truthy (readOpt company "name"))
        then ["Missing company.name"] else [] in
      let warnings :=
        if negb (truthy (get config "design"))
        then [MissingDesignObject] else [] in
      let slides := get config "slides" in
      let errors :=
        match slides with
        | Some (JArr _) => errors
        | _ => (errors ++ ["Missing or invalid slides array"])%list
        end in
      match
        (if truthy slides then
           match slides with
           | Some (JArr l) =>
               match types l with
               | inl e => inl e
               | inr found =>
                   let tbdCount := countTBD (stringify (JArr l)) in
                   inr (warnings ++ missingTypes found ++
                        (if (0 <? tbdCount)%nat then [TbdEntries tbdCount] else []))%list
               end
           | _ => inl TypeError
           end
         else inr warnings)
      with
      | inl e => inl e
      | inr warnings =>
          if (0 <? length errors)%nat then
            inl (Thrown (AgentError
                   ("Deck config validation failed: " ++ joinErrors errors) None []))
          else inr (Validation true errors warnings)
      end
  end.

End Validate.

(** ** Aggregate gap analysis (claude-classifier.js) *)

Module Gaps.

Import Json Value.

(** An element of [allContent]: the [type] and [content] of a classified
    item as the model wrote them. *)
Record content_item := ContentItem {
  itemType : option json;
  itemContent : option json
}.

Record source := Source {
  filename : string;
  relevanceScore : Qc
}.

(** [slides[slideType]] as [mergeClassifications] builds it. *)
Record slide := Slide {
  relevantSources : list source;
  allContent : list content_item;
  completeness : Qc
}.

(** The slide mergeClassifications starts every type with. *)
Definition emptySlide : slide := Slide [] [] 0%Qc.

Definition criticalRequirements : list (string * list string) :=
  [ ("title", ["company_name"; "tagline"]);
    ("problem", ["pain_point"; "statistic"]);
    ("solution", ["value_proposition"; "feature"]);
    ("whyNow", ["timing_factor"; "trend"]);
    ("marketSize", ["tam"; "sam"; "market_size"; "market"]);
    ("competition", ["competitor"; "differentiation"]);
    ("product", ["feature"; "capability"]);
    ("businessModel", ["revenue_model"; "pricing"; "unit_economics"]);
    ("traction", ["metric"; "milestone"; "customer"]);
    ("team", ["founder"; "executive"; "background"; "bio"]);
    ("ask", ["funding_amount"; "use_of_funds"]) ].

Section Analysis.

Context {E : Engine}.

(** [s.toLowerCase()] on a string value. *)
Definition toLowerCase (s : JS.ustring) : JS.ustring :=
  if forallb (fun n => (n <? 256)%N) s then map JS.lowerUnit s
  else unicodeLower s.

(** [x] or else the empty string, in lower case; a truthy value that is no string has no
    [toLowerCase], which is a [TypeError]. *)
Definition lowered (x : option json) : thrown + JS.ustring :=
  if truthy x then
    match x with
    | Some (JStr s) => inr (toLowerCase s)
    | _ => inl TypeError
    end
  else inr (toLowerCase []).

Fixpoint mapThrow {A B : Type} (f : A -> thrown + B) (l : list A)
  : thrown + list B :=
  match l with
  | [] => inr []
  | x :: l' =>
      match f x with
      | inl e => inl e
      | inr y =>
          match mapThrow f l' with
          | inl e => inl e
          | inr ys => inr (y :: ys)
          end
      end
  end.

(** [req.replace("_", " ")]: the first underscore only. *)
Fixpoint replaceUnderscore (req : string) : string :=
  match req with
  | EmptyString => EmptyString
  | String c req' =>
      if Ascii.eqb c "_" then String " " req' else String c (replaceUnderscore req')
  end.

(** The entries one slide type pushes onto [gaps]. *)
Definition slideGaps (slideType : string) (requirements : list string)
           (s : slide) : thrown + list string :=
  match mapThrow (fun c => lowered (itemType c)) (allContent s) with
  | inl e => inl e
  | inr contentTypes =>
      match mapThrow (fun c => lowered (itemContent c)) (allContent s) with
      | inl e => inl e
      | inr contents =>
          let contentText := JS.joinU (JS.units " ") contents in
          let hasContent := (0 <? length (allContent s))%nat in
          let hasHighQualitySource :=
            existsb (fun src => bool_decide (Cost.usd 7 10 < relevanceScore src)%Qc)
                    (relevantSources s) in
          if negb hasContent && negb hasHighQualitySource then
            inr [slideType ++ ": No content found"]
          else if bool_decide (completeness s < Cost.usd 3 10)%Qc then
            inr (flat_map
                   (fun req =>
                      let hasReq :=
                        existsb (fun t => JS.includesU t (JS.units req)) contentTypes
                        || JS.includesU contentText
                                        (JS.units (replaceUnderscore req)) in
                      if negb hasReq && (length (allContent s) <? 2)%nat
                      then [slideType ++ ": Limited " ++ replaceUnderscore req
                                      ++ " information"]
                      else [])
                   requirements)
          else inr []
      end
  end.

(** The loop over [Object.entries(criticalRequirements)]. *)
Fixpoint collectGaps (entries : list (string * list string))
         (slides : gmap string slide) : thrown + list string :=
  match entries with
  | [] => inr []
  | (slideType, requirements) :: entries' =>
      match slides !! slideType with
      | None => collectGaps entries' slides
      | Some s =>
          match slideGaps slideType requirements s with
          | inl e => inl e
          | inr gs =>
              match collectGaps entries' slides with
              | inl e => inl e
              | inr gs' => inr (gs ++ gs')%list
              end
          end
      end
  end.

(** [[...new Set(gaps)]]: the first occurrence of each entry, in order. *)
Fixpoint uniqFrom (seen l : list string) : list string :=
  match l with
  | [] => []
  | x :: l' =>
      if JS.arrayIncludes seen x then uniqFrom seen l'
      else x :: uniqFrom (x :: seen) l'
  end.

Definition uniq (l : list string) : list string := uniqFrom [] l.

(** [analyzeAggregateGaps(slides)] *)
Definition analyzeAggregateGaps (slides : gmap string slide)
  : thrown + list string :=
  match collectGaps criticalRequirements slides with
  | inl e => inl e
  | inr gaps => inr (firstn 10 (uniq gaps))
  end.

End Analysis.

End Gaps.

(** ** Image generator agent: rate limiting and backoff *)

Module Image.

Record imageConfig := ImageConfig {
  minDelayBetweenCalls : Z;
  maxRetries : Z;
  baseBackoffMs : Z;
  maxBackoffMs : Z;
  jitterFactor : Number.number
}.

Definition IMAGE_GENERATION_CONFIG : imageConfig :=
  ImageConfig 3000 5 3000 60000 (Number.decimal 2 1).

(** [calculateBackoffWithJitter(attempt)]; [random] is the value that
    [Math.random()] returns, in the interval from 0 to 1, 1 excluded. *)
Definition calculateBackoffWithJitter (cfg : imageConfig) (attempt : Z)
           (random : Number.number) : Number.number :=
  let baseDelay :=
    Number.mul (Number.ofZ (baseBackoffMs cfg)) (Number.pow2 (attempt - 1)) in
  let cappedDelay := Number.min baseDelay (Number.ofZ (maxBackoffMs cfg)) in
  let jitter :=
    Number.mul (Number.mul cappedDelay (jitterFactor cfg)) random in
  Number.floor (Number.add cappedDelay jitter).

(** The environment of the image agent: the clock ([Date.now()], in
    milliseconds), [this.lastCallTime], the provider's answers still to
    come, each with the time the call takes, and the clock readings at
    which the provider was called. *)
Record env := Env {
  now : Z;
  lastCallTime : Z;
  script : list (Retry.outcome string * Z);
  providerCalls : list Z
}.

(** [await this.delay(ms)] *)
Definition delay (ms : Z) (e : env) : env :=
  Env (now e + ms) (lastCallTime e) (script e) (providerCalls e).

(** [enforceRateLimit()] *)
Definition enforceRateLimit (cfg : imageConfig) (e : env) : env :=
  let timeSinceLastCall := (now e - lastCallTime e)%Z in
  let e1 :=
    if (timeSinceLastCall <? minDelayBetweenCalls cfg)%Z
    then delay (minDelayBetweenCalls cfg - timeSinceLastCall) e
    else e in
  Env (now e1) (now e1) (script e1) (providerCalls e1).

(** [error.message?.includes("not supported")] *)
Definition notSupported (error : js_error) : bool :=
  match message error with
  | Some m => JS.includes m "not supported"
  | None => false
  end.

(** The operation that [callNanoBanana] hands to [withRetry]: one call of
    the provider, which gives the next scripted answer after the time it
    takes (a provider with nothing scripted answers at once); an error
    that says the operation is not supported is caught and replaced by
    the placeholder image.  The cost bookkeeping of a successful call is
    left out here. *)
Definition provider (e : env) : Retry.outcome string * env :=
  match script e with
  | (r, took) :: rest =>
      (match r with
       | Retry.Threw error =>
           if notSupported error then Retry.Returned "placeholder" else r
       | Retry.Returned _ => r
       end,
       Env (now e + took) (lastCallTime e) rest (providerCalls e ++ [now e])%list)
  | [] =>
      (Retry.Returned "image",
       Env (now e) (lastCallTime e) [] (providerCalls e ++ [now e])%list)
  end.

(** [callNanoBanana(prompt, imageType)]: the provider call under the
    inherited [withRetry], with [retryAttempts] and [retryDelay] as the
    constructor of the agent sets them. *)
Definition callNanoBanana (cfg : imageConfig) (e : env)
  : (agent_error + string) * Retry.world :=
  Retry.withRetry provider delay (maxRetries cfg) (baseBackoffMs cfg) [] e.

(** The loop of [execute] over the image types: the rate limit, then the
    generation of one image; a failed image is recorded and the loop goes
    on.  The result lists the delays of each image's retries. *)
Fixpoint generateAll (cfg : imageConfig) (images : nat) (e : env)
  : list (list Z) * env :=
  match images with
  | O => ([], e)
  | S images' =>
      let e1 := enforceRateLimit cfg e in
      let '(_, w) := callNanoBanana cfg e1 in
      let '(ds, e2) := generateAll cfg images' (Retry.opState w) in
      (Retry.delays w :: ds, e2)
  end.

(** The least gap between two consecutive clock readings. *)
Fixpoint spacings (calls : list Z) : list Z :=
  match calls with
  | a :: (b :: _) as rest => (b - a)%Z :: spacings rest
  | _ => []
  end.

End Image.

(** ** Text utilities of [BaseAgent] *)

Module Text.

(** [text.slice(0, end)] for an integer [end]: a negative [end] counts
    from the end of the text. *)
Definition slice0 (text : string) (finish : Z) : string :=
  let len := Z.of_nat (String.length text) in
  let to := if (finish <? 0)%Z then Z.max (len + finish) 0 else Z.min finish len in
  String.substring 0 (Z.to_nat to) text.

(** The default of the [suffix] parameter: two line feeds and the mark. *)
Definition defaultSuffix : string :=
  String JS.LF (String JS.LF "[... truncated ...]").

(** [truncateText(text, maxLength, suffix)] *)
Definition truncateText (text : string) (maxLength : Z) (suffix : string) : string :=
  if (Z.of_nat (String.length text) <=? maxLength)%Z then text
  else slice0 text (maxLength - Z.of_nat (String.length suffix)) ++ suffix.

(** [estimateTokens(text)]: [Math.ceil(text.length / 4)] *)
Definition estimateTokens (text : string) : Z :=
  Qceiling (inject_Z (Z.of_nat (String.length text)) / 4).

End Text.

(** ** Citation index of the synthesizer (openai-synthesizer.js) *)

Module Citations.

(** A citation as the output format of the synthesizer has it: [source] a
    string when present, [confidence] a number when present; [fact] stands
    for its other members. *)
Record citation := Citation {
  fact : Json.json;
  source : option string;
  confidence : option Qc
}.

(** A slide of the synthesis output: its [type], a string when present,
    and its [citations], none when the member is absent. *)
Record slide := Slide {
  type : option string;
  citations : list citation
}.

(** [{ ...citation, slideType: slide.type }] *)
Record entry := Entry {
  cited : citation;
  slideType : option string
}.

Record index := Index {
  extractedAt : string;
  totalCitations : nat;
  bySlide : gmap string (list citation);
  bySource : gmap string (list entry);
  lowConfidence : list entry
}.

(** [slide.type] as a property name. *)
Definition typeKey (t : option string) : string :=
  match t with
  | Some s => s
  | None => "undefined"
  end.

(** [citation.source || "unknown"] *)
Definition sourceKey (c : citation) : string :=
  match source c with
  | Some s => if String.eqb s EmptyString then "unknown" else s
  | None => "unknown"
  end.

(** [citation.confidence && citation.confidence < 0.7] *)
Definition isLow (c : citation) : bool :=
  match confidence c with
  | Some q => negb (bool_decide (q = 0%Qc)) && bool_decide (q < Cost.usd 7 10)%Qc
  | None => false
  end.

(** The body of the inner loop, for one citation of a slide. *)
Definition addCitation (t : option string) (idx : index) (c : citation)
  : thrown + index :=
  let e := Entry c t in
  let bySlide' := alter (fun l => l ++ [c])%list (typeKey t) (bySlide idx) in
  let low := if isLow c then (lowConfidence idx ++ [e])%list else lowConfidence idx in
  match bySource idx !! sourceKey c with
  | Some l =>
      inr (Index (extractedAt idx) (S (totalCitations idx)) bySlide'
                 (<[sourceKey c := (l ++ [e])%list]> (bySource idx)) low)
  | None =>
      if JS.arrayIncludes objectPrototypeKeys (sourceKey c) then inl TypeError
      else
        inr (Index (extractedAt idx) (S (totalCitations idx)) bySlide'
                   (<[sourceKey c := [e]]> (bySource idx)) low)
  end.

(** The body of the outer loop, for one slide.  The assignment
    [bySlide[slide.type] = []] makes a property of the object, except for
    the name [__proto__], which it does not make a property. *)
Definition addSlide (idx : index) (s : slide) : thrown + index :=
  let k := typeKey (type s) in
  let idx1 :=
    Index (extractedAt idx) (totalCitations idx)
          (if String.eqb k "__proto__" then bySlide idx else <[k := []]> (bySlide idx))
          (bySource idx) (lowConfidence idx) in
  foldThrow (addCitation (type s)) (citations s) idx1.

(** [extractAllCitations(output)], with the reading of the clock. *)
Definition extractAllCitations (now : string) (slides : list slide)
  : thrown + index :=
  foldThrow addSlide slides (Index now 0 ∅ ∅ []).

End Citations.

(** ** Prompt logger ([PromptLogger], required as [./prompt-logger]) *)

Module PromptLog.

(** An element of [this.prompts].  [metadata] is kept as given. *)
Record prompt := Prompt {
  timestamp : string;
  agentName : string;
  promptType : string;
  filepath : string;
  filename : string;
  metadata : Json.json;
  tokenEstimate : Z;
  contentLength : nat
}.

(** [s.replace(/[:.]/g, "-")] *)
Fixpoint dashed (s : string) : string :=
  match s with
  | EmptyString => EmptyString
  | String c s' =>
      String (if Ascii.eqb c ":" || Ascii.eqb c "." then "-"%char else c) (dashed s')
  end.

Section Logger.

(** [path.join] of Node. *)
Variable pathJoin : string -> string -> string.

(** [this.promptsDir] *)
Variable promptsDir : string.

(** [logPrompt(agentName, promptType, content, metadata)] on the list
    [this.prompts]; [now1] and [now2] are the two readings of the clock, in
    ISO format.  The write of the prompt file is left out.  The result is
    the path returned and the new list. *)
Definition logPrompt (agent type content : string) (meta : Json.json)
           (now1 now2 : string) (prompts : list prompt) : string * list prompt :=
  let name := dashed now1 ++ "_" ++ agent ++ "_" ++ type ++ ".md" in
  let path := pathJoin promptsDir name in
  let estimate := Qceiling (inject_Z (Z.of_nat (String.length content)) / 4) in
  (path,
   (prompts ++ [Prompt now2 agent type path name meta estimate
                       (String.length content)])%list).

End Logger.

(** The value of [byAgent[name]]. *)
Record group := Group {
  count : nat;
  totalTokens : Z;
  prompts : list string
}.

(** The body of the loop of [getPromptsByAgent]. *)
Definition addPrompt (byAgent : gmap string group) (p : prompt)
  : thrown + gmap string group :=
  match byAgent !! agentName p with
  | Some g =>
      inr (<[agentName p :=
               Group (S (count g)) (totalTokens g + tokenEstimate p)
                     (prompts g ++ [filename p])]> byAgent)
  | None =>
      if JS.arrayIncludes objectPrototypeKeys (agentName p) then inl TypeError
      else inr (<[agentName p := Group 1 (0 + tokenEstimate p) [filename p]]> byAgent)
  end.

(** [getPromptsByAgent(prompts)] *)
Definition getPromptsByAgent (ps : list prompt) : thrown + gmap string group :=
  foldThrow addPrompt ps ∅.

(** [getTotalTokenEstimate()] *)
Definition getTotalTokenEstimate (ps : list prompt) : Z :=
  fold_left (fun sum p => (sum + tokenEstimate p)%Z) ps 0%Z.

End PromptLog.

(** ** Digest of the classifier (claude-classifier.js, [hashString]) *)

Module Hash.

(** [ToInt32]: the integer modulo 2^32 in the range from -2^31 to 2^31 - 1. *)
Definition toInt32 (z : Z) : Z := ((z + 2 ^ 31) mod 2 ^ 32 - 2 ^ 31)%Z.

(** [a << n] *)
Definition shl32 (a n : Z) : Z := toInt32 (Z.shiftl (toInt32 a) (n mod 32)).

(** [a & b] *)
Definition and32 (a b : Z) : Z := Z.land (toInt32 a) (toInt32 b).

(** The body of the loop: [hash = (hash << 5) - hash + char; hash = hash & hash]. *)
Definition hashStep (hash : Z) (c : ascii) : Z :=
  let char := Z.of_N (JS.charCode c) in
  let hash := (shl32 hash 5 - hash + char)%Z in
  and32 hash hash.

Fixpoint hashLoop (str : string) (hash : Z) : Z :=
  match str with
  | EmptyString => hash
  | String c str' => hashLoop str' (hashStep hash c)
  end.

(** The digits of [n.toString(16)], [fuel] digits at most. *)
Fixpoint hexFrom (fuel : nat) (n : N) (acc : string) : string :=
  match fuel with
  | O => acc
  | S fuel' =>
      let d := Json.hexDigit (n mod 16) in
      if (n <? 16)%N then String d acc
      else hexFrom fuel' (n / 16) (String d acc)
  end.

(** [n.toString(16)] for an integer [n] that is not negative. *)
Definition toString16 (n : N) : string :=
  hexFrom (S (N.to_nat (N.log2 n))) n EmptyString.

(** The value of [hash] after the loop. *)
Definition hashValue (str : string) : Z := hashLoop str 0%Z.

(** [hashString(str)] *)
Definition hashString (str : string) : string :=
  toString16 (Z.to_N (Z.abs (hashValue str))).

(** [this.hashString(story).substring(0, 8)], the digest kept in the
    metadata of the classification. *)
Definition digest (str : string) : string :=
  String.substring 0 8 (hashString str).

End Hash.

(** ** Merging of the classifications (claude-classifier.js) *)

Module Merge.

(** [classification.slideRelevance[slideType]] as the output format of the
    classifier has it: [score] a number when present, [extractedContent] an
    array of items when present. *)
Record slideData := SlideData {
  score : option Qc;
  extractedContent : option (list Gaps.content_item)
}.

(** The classification of one document: [documentAnalysis?.filename],
    [slideRelevance] (no entry for a slide type without data, and none at
    all when the member is absent) and [conflicts] (none when absent). *)
Record classification := Classification {
  documentFilename : option string;
  slideRelevance : gmap string slideData;
  docConflicts : list Json.json
}.

(** An element of [relevantSources]; [sourceContent] is its [allContent]. *)
Record source := Source {
  filename : string;
  relevanceScore : Qc;
  extractedFacts : list Gaps.content_item;
  quotes : list Gaps.content_item;
  metrics : list Gaps.content_item;
  sourceContent : list Gaps.content_item
}.

(** [{ ...item, source: filename }] *)
Record attributed := Attributed {
  item : Gaps.content_item;
  itemSource : string
}.

Record quality := Quality {
  completeness : Qc;
  sourceCount : nat;
  avgConfidence : Qc
}.

Record slide := Slide {
  relevantSources : list source;
  allContent : list attributed;
  conflicts : list Json.json;
  dataQuality : quality
}.

Record metadata := Metadata {
  classifiedAt : string;
  totalDocuments : nat;
  storyDigest : string;
  styleDigest : string;
  costIncurred : Number.number
}.

Record result := Result {
  resultMetadata : metadata;
  slides : gmap string slide;
  globalConflicts : list Json.json;
  missingCritical : list string
}.

(** [c.type === a || c.type === b] *)
Definition typeIs (names : list string) (c : Gaps.content_item) : bool :=
  match Gaps.itemType c with
  | Some (Json.JStr s) => existsb (fun n => bool_decide (s = JS.units n)) names
  | _ => false
  end.

(** [classification.documentAnalysis?.filename || "unknown"] *)
Definition filenameOf (c : classification) : string :=
  match documentFilename c with
  | Some s => if String.eqb s EmptyString then "unknown" else s
  | None => "unknown"
  end.

(** [slideData.score || 0] *)
Definition scoreOf (d : slideData) : Qc :=
  match score d with
  | Some q => q
  | None => 0%Qc
  end.

(** [slideData.extractedContent || []] *)
Definition contentOf (d : slideData) : list Gaps.content_item :=
  match extractedContent d with
  | Some l => l
  | None => []
  end.

Definition emptySlide : slide := Slide [] [] [] (Quality 0 0 0).

(** The loop that initialises [result.slides]. *)
Definition initSlides : gmap string slide :=
  fold_left (fun m slideType => <[slideType := emptySlide]> m) SLIDE_TYPES ∅.

(** The body of the loop over the slide types, for one classification. *)
Definition addRelevance (c : classification) (slides : gmap string slide)
           (slideType : string) : thrown + gmap string slide :=
  match slideRelevance c !! slideType with
  | None => inr slides
  | Some slideData =>
      if bool_decide (Cost.usd 3 10 < scoreOf slideData)%Qc then
        match slides !! slideType with
        | None => inl TypeError
        | Some s =>
            inr (<[slideType :=
                     Slide (relevantSources s ++
                            [Source (filenameOf c) (scoreOf slideData)
                                    (List.filter (typeIs ["fact"; "statistic"])
                                                 (contentOf slideData))
                                    (List.filter (typeIs ["quote"]) (contentOf slideData))
                                    (List.filter (typeIs ["metric"; "statistic"])
                                                 (contentOf slideData))
                                    (contentOf slideData)])
                           (allContent s ++
                            map (fun i => Attributed i (filenameOf c))
                                (contentOf slideData))
                           (conflicts s) (dataQuality s)]> slides)
        end
      else inr slides
  end.

(** The body of the loop over the classifications. *)
Definition addClassification (st : gmap string slide * list Json.json)
           (c : classification) : thrown + gmap string slide * list Json.json :=
  match foldThrow (addRelevance c) SLIDE_TYPES (fst st) with
  | inl e => inl e
  | inr slides => inr (slides, (snd st ++ docConflicts c)%list)
  end.

(** [Math.min(a, b)] *)
Definition Qcmin (a b : Qc) : Qc := if bool_decide (a <= b)%Qc then a else b.

Definition sumScores (l : list source) : Qc :=
  fold_left (fun sum s => (sum + relevanceScore s)%Qc) l 0%Qc.

(** [sources.sort((a, b) => b.relevanceScore - a.relevanceScore)]: the
    sort is stable, so a source goes behind the sources that are not
    less relevant and came before it. *)
Fixpoint insertByRelevance (x : source) (l : list source) : list source :=
  match l with
  | [] => [x]
  | y :: l' =>
      if bool_decide (relevanceScore y < relevanceScore x)%Qc then x :: y :: l'
      else y :: insertByRelevance x l'
  end.

Definition sortByRelevance (l : list source) : list source :=
  fold_left (fun sorted x => insertByRelevance x sorted) l [].

(** The body of the loop that computes the data quality. *)
Definition finishSlide (slides : gmap string slide) (slideType : string)
  : thrown + gmap string slide :=
  match slides !! slideType with
  | None => inl TypeError
  | Some s =>
      let sources := relevantSources s in
      let n := length sources in
      let count := Q2Qc (inject_Z (Z.of_nat n)) in
      inr (<[slideType :=
               Slide (sortByRelevance sources) (allContent s) (conflicts s)
                     (Quality (if (0 <? n)%nat then Qcmin 1%Qc (count / Q2Qc 3%Q)%Qc else 0%Qc)
                              n
                              (if (0 <? n)%nat then (sumScores sources / count)%Qc
                               else avgConfidence (dataQuality s)))]> slides)
  end.

(** What [analyzeAggregateGaps] reads of a slide. *)
Definition view (s : slide) : Gaps.slide :=
  Gaps.Slide
    (map (fun src => Gaps.Source (filename src) (relevanceScore src))
         (relevantSources s))
    (map item (allContent s))
    (completeness (dataQuality s)).

Section Merging.

Context {E : Engine}.

(** [mergeClassifications(classifications, story, styleGuide)]; [now] is
    the reading of the clock and [totalCost] the total of the cost tracker. *)
Definition mergeClassifications (now : string) (totalCost : Number.number)
           (classifications : list classification) (story styleGuide : string)
  : thrown + result :=
  let meta :=
    Metadata now (length classifications) (Hash.digest story)
             (Hash.digest styleGuide) totalCost in
  match foldThrow addClassification classifications (initSlides, []) with
  | inl e => inl e
  | inr (slides, globalConflicts) =>
      match foldThrow finishSlide SLIDE_TYPES slides with
      | inl e => inl e
      | inr slides =>
          match Gaps.analyzeAggregateGaps (view <$> slides) with
          | inl e => inl e
          | inr gaps => inr (Result meta slides globalConflicts gaps)
          end
      end
  end.

End Merging.

(** [classification.slideRelevance?.[slideType]?.score || 0] *)
Definition scoreAt (c : classification) (slideType : string) : Qc :=
  match slideRelevance c !! slideType with
  | Some d => scoreOf d
  | None => 0%Qc
  end.

Record matrix := Matrix {
  documents : list string;
  slideTypes : list string;
  scores : list (list (string * Qc))
}.

(** [buildRelevanceMatrix(classifications)]; a row keeps its entries in the
    order of the slide types. *)
Definition buildRelevanceMatrix (classifications : list classification) : matrix :=
  Matrix (map filenameOf classifications) SLIDE_TYPES
         (map (fun c => map (fun slideType => (slideType, scoreAt c slideType)) SLIDE_TYPES)
              classifications).

End Merge.

(** * Properties *)

(** ** The model on small inputs *)

Section Examples.

Import Json Repair.

Example parse_document :
  JSON_parse (JS.fixture "{'a': [1, -2.5e-3, true, null], 'b': {'c': 'x\ny'}}")
  = Some (obj [ ("a", JArr [JNum "1"; JNum "-2.5e-3"; JBool true; JNull]);
                ("b", obj [("c", str (String "x" (String JS.LF "y")))]) ]).
Proof. vm_compute. reflexivity. Qed.

Example parse_repeated_key :
  JSON_parse (JS.fixture "{'a': 1, 'b': 2, 'a': 3}")
  = Some (obj [("a", JNum "3"); ("b", JNum "2")]).
Proof. vm_compute. reflexivity. Qed.

(** An escape writes any code unit: the dash U+2014 and the two units of a
    character beyond U+FFFF. *)
Example parse_escapes :
  JSON_parse (JS.fixture "{'a':'\u2014', 'b':'\ud83d\uDE00\u00e9'}")
  = Some (JObj [ (JS.units "a", JStr [8212%N]);
                 (JS.units "b", JStr [55357%N; 56832%N; 233%N]) ]).
Proof. vm_compute. reflexivity. Qed.

Example parse_rejects :
  map JSON_parse
      (map JS.fixture ["[1,]"; "{'a':}"; "[01]"; "1."; "nul"; "{'a' 1}"; "[1 2]"])
  = [None; None; None; None; None; None; None].
Proof. vm_compute. reflexivity. Qed.

Example stringify_document :
  stringify (obj [("a", JArr [JNum "1"; str (String JS.LF "[TBD]")]); ("b", obj [])])
  = JS.units (JS.fixture "{'a':[1,'\n[TBD]'],'b':{}}").
Proof. vm_compute. reflexivity. Qed.

(** Steps 1, 2 and 7 of the repair pass, and the closing of brackets. *)
Example repair_commas :
  repairJSON (String.concat (String JS.LF EmptyString)
                [JS.fixture "{'a': [1, 2,],"; JS.fixture " 'b': 3"; JS.fixture " 'c': [4,, 5"])
  = String.concat (String JS.LF EmptyString)
      [JS.fixture "{'a': [1, 2],"; JS.fixture " 'b': 3,"; JS.fixture " 'c': [4, 5]}"].
Proof. vm_compute. reflexivity. Qed.

(** A line feed inside a string literal is escaped, and the text then
    parses with the line feed in the string. *)
Example repair_line_feed :
  let text := JS.fixture "{'a': 'x" ++ String JS.LF (JS.fixture "y'}") in
  JSON_parse text = None /\
  repairJSON text = JS.fixture "{'a': 'x\ny'}" /\
  result (extractJSON text)
  = inr (obj [("a", str (String "x" (String JS.LF "y")))]).
Proof. vm_compute. repeat split. Qed.

Example close_inside_string :
  closeOpenBrackets (JS.fixture "{'a':[{'b':'c")
  = JS.fixture "{'a':[{'b':'c'}]}".
Proof. vm_compute. reflexivity. Qed.

(** A valid object with an escape above U+00FF is returned at the first
    parse. *)
Example extract_escaped_dash :
  extractJSON (JS.fixture "{'title': 'Acme \u2014 seed round'}")
  = Extraction
      (inr (JObj [(JS.units "title",
                   JStr (JS.units "Acme " ++ [8212%N] ++ JS.units " seed round")%list)]))
      false None.
Proof. vm_compute. reflexivity. Qed.

Example extract_fenced_block :
  extractJSON
    (String.concat (String JS.LF EmptyString)
       ["Here is the result:"; "```json"; JS.fixture "{'slides': []}"; "```"; "Done {x}."])
  = Extraction (inr (obj [("slides", JArr [])])) false None.
Proof. vm_compute. reflexivity. Qed.

End Examples.

(** ** Retry executor *)

Section RetryFacts.

Import Retry.

Context {St A : Type}.
Variable fn : St -> outcome A * St.
Variable delay : Z -> St -> St.
Variable context : list (string * string).

(** An error whose [code] is in the allow-list. *)
Definition hasRetryableCode (e : js_error) : Prop :=
  exists c, code e = Some c /\ In c retryableCodes.

(** An error that neither list of the classifier accepts. *)
Definition nonRetryable (e : js_error) : Prop :=
  (forall c, code e = Some c -> ~ In c retryableCodes) /\
  (forall m, In m retryableMessages ->
     JS.includes (JS.toLowerCase (default EmptyString (message e))) m = false).

Lemma arrayIncludes_In (arr : list string) (x : string) :
  JS.arrayIncludes arr x = true <-> In x arr.
Proof.
  unfold JS.arrayIncludes. rewrite existsb_exists. split.
  - intros (y & Hy & Heq). apply String.eqb_eq in Heq. now subst.
  - intros Hx. exists x. split; [assumption | apply String.eqb_refl].
Qed.

Lemma retryable_code_isRetryable (e : js_error) :
  hasRetryableCode e -> isRetryable e = true.
Proof.
  intros (c & Hc & Hin). unfold isRetryable. rewrite Hc.
  assert (Hne : String.eqb c EmptyString = false).
  { apply String.eqb_neq. intros ->.
    cbn in Hin. repeat destruct Hin as [Hin | Hin]; try discriminate Hin.
    exact Hin. }
  rewrite Hne. cbn [negb andb].
  apply arrayIncludes_In in Hin. now rewrite Hin.
Qed.

Lemma nonRetryable_isRetryable (e : js_error) :
  nonRetryable e -> isRetryable e = false.
Proof.
  intros [Hcode Hmsg]. unfold isRetryable.
  replace (match code e with
           | Some c => negb (String.eqb c EmptyString)
                       && JS.arrayIncludes retryableCodes c
           | None => false
           end) with false.
  - apply not_true_is_false. intros Hex.
    apply existsb_exists in Hex. destruct Hex as (m & Hm & Hinc).
    specialize (Hmsg m Hm).
    destruct (message e); cbn in Hmsg, Hinc; congruence.
  - destruct (code e) as [c |] eqn:Ec; [| reflexivity].
    symmetry. apply andb_false_intro2. apply not_true_is_false.
    intros Hin. apply arrayIncludes_In in Hin. exact (Hcode c eq_refl Hin).
Qed.

(** One iteration that ends in success. *)
Lemma retryLoop_returned (N base : Z) (n : nat) (attempt : Z) last w r st' :
  fn (opState w) = (Returned r, st') ->
  retryLoop fn delay N base context (S n) attempt last w
  = (inr r, World st' (S (invocations w)) (delays w) (warned w)).
Proof. intros Hfn. cbn [retryLoop]. now rewrite Hfn. Qed.

(** One iteration that fails with a retryable error before the last
    attempt: the executor logs, sleeps and goes round again. *)
Lemma retryLoop_retry (N base : Z) (n : nat) (attempt : Z) last w e st' :
  fn (opState w) = (Threw e, st') ->
  isRetryable e = true ->
  (attempt < N)%Z ->
  retryLoop fn delay N base context (S n) attempt last w
  = retryLoop fn delay N base context n (attempt + 1)%Z (Some e)
      (World (delay (base * 2 ^ (attempt - 1))%Z st')
             (S (invocations w))
             (delays w ++ [(base * 2 ^ (attempt - 1))%Z])%list
             (warned w ++ [retryWarning N attempt])%list).
Proof.
  intros Hfn Hre Hlt. cbn [retryLoop]. rewrite Hfn, Hre.
  apply Z.ltb_lt in Hlt. now rewrite Hlt.
Qed.

(** One iteration that fails with an error that is not retryable. *)
Lemma retryLoop_fatal (N base : Z) (n : nat) (attempt : Z) last w e st' :
  fn (opState w) = (Threw e, st') ->
  isRetryable e = false ->
  retryLoop fn delay N base context (S n) attempt last w
  = (inl (AgentError ("Non-retryable error: " ++ show_message e) (Some e)
                     context),
     World st' (S (invocations w)) (delays w) (warned w)).
Proof. intros Hfn Hre. cbn [retryLoop]. now rewrite Hfn, Hre. Qed.

(** C4. An operation that fails twice with a retryable error code and
    succeeds on the third attempt, under [retryAttempts = 3]: [withRetry]
    returns the success result after exactly three invocations and exactly
    two delays, [retryDelay * 2^0] before attempt 2 and [retryDelay * 2^1]
    before attempt 3, with no random part, each delay after a logged
    warning. *)
Theorem withRetry_succeeds_on_third_attempt
    (retryDelay : Z) (st0 st1 st2 st3 : St) (e1 e2 : js_error) (r : A) :
  fn st0 = (Threw e1, st1) ->
  hasRetryableCode e1 ->
  fn (delay (retryDelay * 2 ^ 0)%Z st1) = (Threw e2, st2) ->
  hasRetryableCode e2 ->
  fn (delay (retryDelay * 2 ^ 1)%Z st2) = (Returned r, st3) ->
  withRetry fn delay 3 retryDelay context st0
  = (inr r,
     World st3 3 [(retryDelay * 2 ^ 0)%Z; (retryDelay * 2 ^ 1)%Z]
           ["Attempt 1/3 failed, retrying..."; "Attempt 2/3 failed, retrying..."]).
Proof.
  intros H1 Hc1 H2 Hc2 H3.
  apply retryable_code_isRetryable in Hc1, Hc2.
  unfold withRetry, start.
  change (Z.to_nat 3) with 3%nat.
  rewrite (retryLoop_retry 3 retryDelay 2 1 None (World st0 0 [] []) e1 st1 H1 Hc1)
    by lia.
  cbn [opState invocations delays warned app].
  change (1 - 1)%Z with 0%Z. change (1 + 1)%Z with 2%Z.
  rewrite (retryLoop_retry 3 retryDelay 1 2 (Some e1)
             (World (delay (retryDelay * 2 ^ 0)%Z st1) 1
                    [(retryDelay * 2 ^ 0)%Z] [retryWarning 3 1])
             e2 st2 H2 Hc2) by lia.
  cbn [opState invocations delays warned app].
  change (2 - 1)%Z with 1%Z.
  exact (retryLoop_returned 3 retryDelay 0 (2 + 1) (Some e2)
           (World (delay (retryDelay * 2 ^ 1)%Z st2) 2
                  [(retryDelay * 2 ^ 0)%Z; (retryDelay * 2 ^ 1)%Z]
                  [retryWarning 3 1; retryWarning 3 2])
           r st3 H3).
Qed.

(** C5, as amended. An operation that always fails with an error that is not
    retryable: [withRetry], with at least one attempt configured, invokes
    it exactly once, neither sleeps nor logs a retry, and throws an
    [AgentError] whose message names the cause, whose [originalError] is
    the error of the operation and whose [context] is the context given. *)
Theorem withRetry_non_retryable_fails_at_once
    (retryAttempts retryDelay : Z) (st : St) :
  (1 <= retryAttempts)%Z ->
  (forall s, exists e s', fn s = (Threw e, s') /\ nonRetryable e) ->
  exists e st',
    fn st = (Threw e, st') /\
    withRetry fn delay retryAttempts retryDelay context st
    = (inl (AgentErrorObj AgentErrorName
              (Msg ("Non-retryable error: " ++ show_message e))
              (Some e) context None),
       World st' 1 [] []).
Proof.
  intros Hn Hfail.
  destruct (Hfail st) as (e & st' & Hfn & Hnon).
  exists e, st'. split; [exact Hfn |].
  unfold withRetry.
  destruct (Z.to_nat retryAttempts) as [| n] eqn:En; [lia |].
  apply (retryLoop_fatal retryAttempts retryDelay n 1 None (start st) e st' Hfn).
  now apply nonRetryable_isRetryable.
Qed.

End RetryFacts.

(** An operation on a counter: the first two calls time out, the third
    returns. *)
Definition flaky (n : nat) : Retry.outcome string * nat :=
  (if (n <? 2)%nat
   then Retry.Threw (JsError (Some "timeout") (Some "request timed out"))
   else Retry.Returned "ok",
   S n).

Lemma withRetry_succeeds_on_third_attempt_witness :
  Retry.withRetry flaky (fun _ n => n) 3 1000 [] 0%nat
  = (inr "ok",
     Retry.World 3%nat 3 [1000%Z; 2000%Z]
       ["Attempt 1/3 failed, retrying..."; "Attempt 2/3 failed, retrying..."]).
Proof.
  apply (withRetry_succeeds_on_third_attempt flaky (fun _ n => n) [] 1000
           0%nat 1%nat 2%nat 3%nat
           (JsError (Some "timeout") (Some "request timed out"))
           (JsError (Some "timeout") (Some "request timed out")) "ok").
  - reflexivity.
  - exists "timeout". split; [reflexivity | cbn; tauto].
  - reflexivity.
  - exists "timeout". split; [reflexivity | cbn; tauto].
  - reflexivity.
Defined.

(** An operation that always fails with a client error. *)
Definition rejected (n : nat) : Retry.outcome string * nat :=
  (Retry.Threw (JsError (Some "invalid_request_error") (Some "HTTP 400 Bad Request")),
   S n).

Lemma withRetry_non_retryable_fails_at_once_witness :
  exists e st',
    rejected 0%nat = (Retry.Threw e, st') /\
    Retry.withRetry rejected (fun _ n => n) 3 1000 [] 0%nat
    = (inl (AgentErrorObj AgentErrorName
              (Msg ("Non-retryable error: " ++ show_message e)) (Some e) [] None),
       Retry.World st' 1 [] []).
Proof.
  apply (withRetry_non_retryable_fails_at_once rejected (fun _ n => n) [] 3 1000 0%nat).
  - lia.
  - intros s. eexists. eexists. split; [reflexivity |].
    split.
    + intros c Hc. injection Hc as <-. cbn. intuition discriminate.
    + intros m Hm. cbn in Hm.
      repeat (destruct Hm as [<- | Hm]; [vm_compute; reflexivity |]).
      destruct Hm.
Defined.

(** C5 as stated fails without a positive number of attempts, which the
    image agent takes unchecked from [imageConfig.maxRetries] (and the
    other agents from a negative [config.retryAttempts]): with
    [retryAttempts = 0] the operation is not invoked at all, and what is
    thrown is a [RetryExhaustedError] without an original error. *)
Lemma withRetry_without_attempts_never_invokes :
  Retry.isRetryable
    (JsError (Some "invalid_request_error") (Some "HTTP 400 Bad Request")) = false
  /\ Retry.withRetry rejected (fun _ n => n) 0 1000 [] 0%nat
  = (inl (RetryExhaustedError "All 0 attempts failed" 0 None),
     Retry.World 0%nat 0 [] [])
  /\ Retry.withRetry rejected (fun _ n => n) (-1) 1000 [] 0%nat
     = (inl (RetryExhaustedError "All -1 attempts failed" (-1) None),
        Retry.World 0%nat 0 [] []).
Proof. repeat split; vm_compute; reflexivity. Qed.

(** ** Cost tracker *)

Section CostFacts.

Import Number Cost.

Context {E : Engine}.

(** The record that [addUsage] pushes for a call of cost [c]. *)
Definition recordOf (u : usage) (c : number) : call_record :=
  CallRecord (uTimestamp u) (uProvider u) (uModel u)
             (uInputTokens u) (uOutputTokens u) c.

(** The records of a sequence of calls: one for each call that gets its
    rates, none for a call that ends in [getRates]. *)
Definition recorded (us : list usage) : list call_record :=
  flat_map (fun u => match costOf u with
                     | inr c => [recordOf u c]
                     | inl _ => []
                     end) us.

(** The [cost] fields of a list of records, added from the left as
    [this.totalCost += cost] adds them, starting from [from]. *)
Definition addedTo (from : number) (rs : list call_record) : number :=
  fold_left add (map cost rs) from.

(** Cumulative cost of a sequence of calls, as the tracker adds it up. *)
Definition cumulative (us : list usage) : number := addedTo zero (recorded us).

(** What [breakdown] holds under a provider after the records [rs]: the
    costs of the records of that provider, taken in order. *)
Definition entryOf (p : string) (rs : list call_record) : option amount :=
  fold_left (fun current r =>
               if String.eqb (provider r) p
               then Some (accumulate p current (cost r)) else current)
            rs None.

(** The bookkeeping invariant of the tracker. *)
Definition consistent (t : tracker) : Prop :=
  totalCost t = addedTo zero (calls t) /\
  forall p, breakdown t !! p
            = if String.eqb p "__proto__" then None else entryOf p (calls t).

Lemma recorded_app (us vs : list usage) :
  recorded (us ++ vs) = (recorded us ++ recorded vs)%list.
Proof. unfold recorded. apply flat_map_app. Qed.

Lemma addedTo_app (from : number) (rs ss : list call_record) :
  addedTo from (rs ++ ss) = addedTo (addedTo from rs) ss.
Proof. unfold addedTo. now rewrite map_app, fold_left_app. Qed.

Lemma entryOf_snoc (p : string) (rs : list call_record) (r : call_record) :
  entryOf p (rs ++ [r])
  = if String.eqb (provider r) p
    then Some (accumulate p (entryOf p rs) (cost r)) else entryOf p rs.
Proof. unfold entryOf. now rewrite fold_left_app. Qed.

(** The state after [addUsage], whatever its outcome. *)
Lemma addUsage_state (u : usage) (t : tracker) :
  snd (addUsage u t)
  = match costOf u with
    | inr c =>
        Tracker (maxCost t) (add (totalCost t) c)
                (record (uProvider u) c (breakdown t))
                (calls t ++ [recordOf u c])
    | inl _ => t
    end.
Proof.
  unfold addUsage, costOf.
  destruct (getRates (uProvider u) (uModel u)) as [e | rates];
    [reflexivity |].
  now destruct (gtb _ _).
Qed.

(** The outcome of [addUsage]: the error of [getRates], the cost, or the
    [CostLimitError] when the new total is above the ceiling. *)
Lemma addUsage_outcome (u : usage) (t : tracker) :
  fst (addUsage u t)
  = match costOf u with
    | inr c =>
        if gtb (add (totalCost t) c) (maxCost t)
        then inl (Thrown (CostLimitError
                            (CostLimitMsg (add (totalCost t) c) (maxCost t))))
        else inr c
    | inl e => inl e
    end.
Proof.
  unfold addUsage, costOf.
  destruct (getRates (uProvider u) (uModel u)) as [e | rates];
    [reflexivity |].
  now destruct (gtb _ _).
Qed.

Lemma addUsage_consistent (u : usage) (t : tracker) :
  consistent t -> consistent (snd (addUsage u t)).
Proof.
  intros [Htot Hbr]. rewrite addUsage_state.
  destruct (costOf u) as [e | c]; [now split |].
  split; cbn [totalCost calls breakdown].
  - rewrite addedTo_app, <- Htot. reflexivity.
  - intros p. rewrite entryOf_snoc. cbn [provider cost recordOf].
    unfold record.
    destruct (String.eqb (uProvider u) "__proto__") eqn:Hproto.
    + apply String.eqb_eq in Hproto. rewrite Hbr.
      destruct (String.eqb p "__proto__") eqn:Hp; [reflexivity |].
      destruct (String.eqb (uProvider u) p) eqn:Hup; [| reflexivity].
      apply String.eqb_eq in Hup. rewrite <- Hup, Hproto in Hp. discriminate Hp.
    + destruct (String.eqb (uProvider u) p) eqn:Hup.
      * apply String.eqb_eq in Hup. subst p. rewrite Hproto.
        rewrite lookup_insert_eq. rewrite Hbr, Hproto. reflexivity.
      * apply String.eqb_neq in Hup. rewrite lookup_insert_ne by exact Hup.
        apply Hbr.
Qed.

Lemma afterCalls_snoc (us : list usage) (u : usage) (t : tracker) :
  afterCalls (us ++ [u]) t
  = snd (addUsage u (afterCalls us t)).
Proof. unfold afterCalls. now rewrite fold_left_app. Qed.

Lemma afterCalls_consistent (us : list usage) (t : tracker) :
  consistent t -> consistent (afterCalls us t).
Proof.
  intros Ht. induction us as [| u us IH] using rev_ind.
  - exact Ht.
  - rewrite afterCalls_snoc. now apply addUsage_consistent.
Qed.

Lemma afterCalls_calls (us : list usage) (t : tracker) :
  calls (afterCalls us t) = (calls t ++ recorded us)%list.
Proof.
  induction us as [| u us IH] using rev_ind.
  - cbn. now rewrite app_nil_r.
  - rewrite afterCalls_snoc, addUsage_state, recorded_app.
    cbn [recorded flat_map]. rewrite app_nil_r.
    destruct (costOf u) as [e | c].
    + now rewrite app_nil_r.
    + cbn [calls]. now rewrite IH, app_assoc.
Qed.

Lemma newTracker_consistent (m : number) : consistent (newTracker m).
Proof.
  split; [reflexivity |]. intros p. cbn [breakdown newTracker calls].
  rewrite lookup_empty. now destruct (String.eqb p "__proto__").
Qed.

Lemma afterCalls_totalCost (us : list usage) (m : number) :
  totalCost (afterCalls us (newTracker m)) = cumulative us.
Proof.
  destruct (afterCalls_consistent us (newTracker m) (newTracker_consistent m))
    as [Htot _].
  rewrite Htot, afterCalls_calls. reflexivity.
Qed.

Lemma afterCalls_maxCost (us : list usage) (t : tracker) :
  maxCost (afterCalls us t) = maxCost t.
Proof.
  induction us as [| u us IH] using rev_ind; [reflexivity |].
  rewrite afterCalls_snoc, addUsage_state.
  now destruct (costOf u).
Qed.

Lemma cumulative_snoc (us : list usage) (u : usage) :
  cumulative (us ++ [u])
  = match costOf u with
    | inr c => add (cumulative us) c
    | inl _ => cumulative us
    end.
Proof.
  unfold cumulative. rewrite recorded_app, addedTo_app.
  cbn [recorded flat_map]. rewrite app_nil_r.
  now destruct (costOf u).
Qed.

(** C3. With the ceiling at one dollar, a sequence of calls whose
    cumulative cost, added up in the numbers of the language as the tracker
    adds it, first exceeds one dollar on its last call: every call before
    the last returns its cost (or ends in [getRates], before anything is
    counted), the last call throws a [CostLimitError], and the tracker
    that comes with the error has the cost and the record of every call
    counted, the last one included. *)
Theorem cost_limit_raised_on_crossing_call (us : list usage) (u : usage) :
  (forall k, (k <= length us)%nat ->
     gtb (cumulative (firstn k us)) (ofZ 1) = false) ->
  gtb (cumulative (us ++ [u])) (ofZ 1) = true ->
  (forall before v after, us = (before ++ v :: after)%list ->
     fst (addUsage v (afterCalls before (newTracker (ofZ 1))))
     = costOf v) /\
  exists e t2,
    addUsage u (afterCalls us (newTracker (ofZ 1)))
    = (inl (Thrown e), t2) /\
    name e = CostLimitErrorName /\
    totalCost t2 = cumulative (us ++ [u]) /\
    calls t2 = recorded (us ++ [u]).
Proof.
  intros Hbelow Hcross. split.
  - intros before v after Hus.
    rewrite addUsage_outcome, afterCalls_totalCost, afterCalls_maxCost.
    cbn [maxCost newTracker].
    pose proof (cumulative_snoc before v) as Hsnoc.
    destruct (costOf v) as [e | c]; [reflexivity |].
    rewrite <- Hsnoc.
    replace (before ++ [v])%list with (firstn (S (length before)) us).
    + rewrite Hbelow; [reflexivity |].
      subst us. rewrite length_app. cbn [length]. lia.
    + subst us. replace (before ++ v :: after)%list
        with ((before ++ [v]) ++ after)%list by now rewrite <- app_assoc.
      replace (S (length before)) with (length (before ++ [v])%list + 0)%nat
        by (rewrite length_app; cbn [length]; lia).
      rewrite firstn_app_2. cbn [firstn]. now rewrite app_nil_r.
  - pose proof (addUsage_outcome u (afterCalls us (newTracker (ofZ 1))))
      as Hout.
    pose proof (addUsage_state u (afterCalls us (newTracker (ofZ 1))))
      as Hst.
    rewrite afterCalls_totalCost, afterCalls_maxCost in Hout.
    rewrite afterCalls_totalCost, afterCalls_maxCost, afterCalls_calls in Hst.
    cbn [maxCost newTracker calls app] in Hout, Hst.
    pose proof (cumulative_snoc us u) as Hsnoc.
    pose proof (recorded_app us [u]) as Hrec. cbn [recorded flat_map] in Hrec.
    rewrite app_nil_r in Hrec.
    destruct (costOf u) as [e | c].
    + exfalso. rewrite Hsnoc in Hcross.
      specialize (Hbelow (length us) (le_n _)).
      rewrite firstn_all in Hbelow. congruence.
    + rewrite <- Hsnoc in Hout, Hst. rewrite Hcross in Hout.
      eexists. eexists. split; [| split; [| split]].
      * rewrite (surjective_pairing (addUsage u _)).
        rewrite Hout, Hst. reflexivity.
      * reflexivity.
      * reflexivity.
      * cbn [calls]. now rewrite Hrec.
Qed.


End CostFacts.

(** An engine for the examples: its built-in functions have no member
    that is asked for, and it leaves the case of a string beyond U+00FF as
    it is.  No example below reaches either. *)
Definition plainEngine : Engine :=
  {| functionMember := fun _ _ => NoMember; unicodeLower := fun s => s |}.

Section CostExamples.

#[local] Existing Instance plainEngine.

(** A call of [openai] and [gpt-5.2] with input tokens only. *)
Definition inputOnly (tokens : Z) : Cost.usage :=
  Cost.Usage "2026-01-01T00:00:00.000Z" "openai" "gpt-5.2"
             (Number.ofZ tokens) (Number.ofZ 0).

(** Calls of 20000, 70000 and 10000 input tokens, which cost 0.2,
    0.7000000000000001 and 0.1 dollars: the running total is
    1.0000000000000002 at the third call, which crosses the ceiling. *)
Lemma cost_limit_raised_on_crossing_call_witness :
  (forall before v after,
     [inputOnly 20000; inputOnly 70000] = (before ++ v :: after)%list ->
     fst (Cost.addUsage v
            (Cost.afterCalls before (Cost.newTracker (Number.ofZ 1))))
     = Cost.costOf v) /\
  exists e t2,
    Cost.addUsage (inputOnly 10000)
      (Cost.afterCalls [inputOnly 20000; inputOnly 70000]
         (Cost.newTracker (Number.ofZ 1)))
    = (inl (Thrown e), t2) /\
    name e = CostLimitErrorName /\
    Cost.totalCost t2
    = cumulative ([inputOnly 20000; inputOnly 70000] ++ [inputOnly 10000]) /\
    Cost.calls t2
    = recorded ([inputOnly 20000; inputOnly 70000] ++ [inputOnly 10000]).
Proof.
  apply (cost_limit_raised_on_crossing_call
           [inputOnly 20000; inputOnly 70000] (inputOnly 10000)).
  - intros k Hk.
    destruct k as [| [| [| k]]]; [vm_compute; reflexivity .. | cbn in Hk; lia].
  - vm_compute. reflexivity.
Defined.



(** A model named like a member that every object inherits: the rates
    read are those of a function, which has none, so the cost is NaN, and
    so is the total from then on. *)
Example addUsage_inherited_model :
  let u := Cost.Usage "2026-01-01T00:00:00.000Z" "openai" "constructor"
                      (Number.ofZ 1000) (Number.ofZ 0) in
  let t := snd (Cost.addUsage u (Cost.newTracker (Number.ofZ 1))) in
  fst (Cost.addUsage u (Cost.newTracker (Number.ofZ 1))) = inr Number.NaN /\
  Cost.totalCost t = Number.NaN /\
  Cost.totalCost (Cost.afterCalls [inputOnly 200000] t) = Number.NaN /\
  fst (Cost.addUsage (inputOnly 200000) t) = Cost.costOf (inputOnly 200000).
Proof. vm_compute. repeat split. Qed.

(** A provider named [__proto__]: the call is counted and recorded at the
    default rates, and the breakdown keeps no entry for it. *)
Example addUsage_proto_provider :
  let u := Cost.Usage "2026-01-01T00:00:00.000Z" "__proto__" "gpt-4o"
                      (Number.ofZ 1000) (Number.ofZ 0) in
  let t := snd (Cost.addUsage u (Cost.newTracker (Number.ofZ 1))) in
  Cost.totalCost t = Number.decimal 1 2 /\
  map Cost.cost (Cost.calls t) = [Number.decimal 1 2] /\
  Cost.breakdown t = ∅.
Proof. vm_compute. repeat split. Qed.

End CostExamples.

(** ** Closing of open brackets *)

Section CloseFacts.

Import Repair.

(** The brackets of a text that lie outside its string regions, in order.
    A string region runs from a quote to the next quote; a backslash takes
    the character after it out of consideration, inside a region or not. *)
Fixpoint bracketsOutside (s : string) (inStr esc : bool) : list ascii :=
  match s with
  | EmptyString => []
  | String c s' =>
      if esc then bracketsOutside s' inStr false
      else if Ascii.eqb c JS.backslash then bracketsOutside s' inStr true
      else if Ascii.eqb c JS.dquote then bracketsOutside s' (negb inStr) false
      else if negb inStr && isOneOf "{[}]" c then c :: bracketsOutside s' inStr false
      else bracketsOutside s' inStr false
  end.

(** Whether a text ends inside a string region. *)
Fixpoint endsInside (s : string) (inStr esc : bool) : bool :=
  match s with
  | EmptyString => inStr
  | String c s' =>
      if esc then endsInside s' inStr false
      else if Ascii.eqb c JS.backslash then endsInside s' inStr true
      else if Ascii.eqb c JS.dquote then endsInside s' (negb inStr) false
      else endsInside s' inStr false
  end.

Definition closerOf (c : ascii) : ascii :=
  if Ascii.eqb c "{" then "}"%char else "]"%char.

(** The openers of a bracket sequence that are left unmatched, the latest
    first: a closer matches the latest unmatched opener if that one is of
    its kind, and otherwise matches nothing. *)
Fixpoint unmatched (bs opened : list ascii) : list ascii :=
  match bs with
  | [] => opened
  | c :: bs' =>
      if isOneOf "{[" c then unmatched bs' (c :: opened)
      else
        match opened with
        | o :: opened' =>
            if Ascii.eqb (closerOf o) c then unmatched bs' opened'
            else unmatched bs' opened
        | [] => unmatched bs' []
        end
  end.

Lemma isOneOf_openers (c : ascii) :
  isOneOf "{[" c = Ascii.eqb c "{" || Ascii.eqb c "[".
Proof. unfold isOneOf. cbn. now rewrite orb_false_r. Qed.

Lemma isOneOf_brackets (c : ascii) :
  isOneOf "{[}]" c
  = Ascii.eqb c "{" || Ascii.eqb c "[" || (Ascii.eqb c "}" || Ascii.eqb c "]").
Proof.
  unfold isOneOf. cbn. rewrite orb_false_r.
  now destruct (Ascii.eqb c "{"), (Ascii.eqb c "[").
Qed.

(** The scanner computes the two phases at once. *)
Lemma scan_two_phases (s : string) (opened : list ascii) (inStr esc : bool) :
  let st := scan s (ScanState (map closerOf opened) inStr esc) in
  stack st = map closerOf (unmatched (bracketsOutside s inStr esc) opened)
  /\ inString st = endsInside s inStr esc.
Proof.
  revert opened inStr esc.
  induction s as [| c s IH]; intros opened inStr esc; [cbn; auto |].
  cbn [scan bracketsOutside endsInside].
  unfold scanStep. cbn [stack inString escapeNext].
  destruct esc; [apply IH |].
  destruct (Ascii.eqb c JS.backslash); [apply IH |].
  destruct (Ascii.eqb c JS.dquote); [apply IH |].
  destruct inStr; cbn [negb andb]; [apply IH |].
  rewrite isOneOf_brackets. cbn [unmatched]. 
  destruct (Ascii.eqb c "{") eqn:Hob.
  { cbn [orb unmatched]. rewrite isOneOf_openers, Hob. cbn [orb].
    apply Ascii.eqb_eq in Hob. subst c.
    apply (IH ("{"%char :: opened)). }
  destruct (Ascii.eqb c "[") eqn:Hok.
  { cbn [orb unmatched]. rewrite isOneOf_openers, Hob, Hok. cbn [orb].
    apply Ascii.eqb_eq in Hok. subst c.
    apply (IH ("["%char :: opened)). }
  cbn [orb].
  destruct (Ascii.eqb c "}" || Ascii.eqb c "]") eqn:Hcl; [| apply IH].
  cbn [unmatched]. rewrite isOneOf_openers, Hob, Hok. cbn [orb].
  destruct opened as [| o opened]; cbn [map]; [apply (IH []) |].
  destruct (Ascii.eqb (closerOf o) c); [apply IH | apply (IH (o :: opened))].
Qed.

Lemma string_of_list_ascii_app (l1 l2 : list ascii) :
  string_of_list_ascii (l1 ++ l2)
  = string_of_list_ascii l1 ++ string_of_list_ascii l2.
Proof. induction l1 as [| c l1 IH]; cbn; [reflexivity | now rewrite IH]. Qed.

(** C10. [closeOpenBrackets] only appends: its result is the input
    followed by a closing quote exactly when the input ends inside a string
    region, followed by the closers, and nothing but the closers, of the
    openers left unmatched outside string regions, the latest opener
    closed first. *)
Theorem closeOpenBrackets_only_appends (s : string) :
  closeOpenBrackets s
  = s
    ++ (if endsInside s false false then String JS.dquote EmptyString
        else EmptyString)
    ++ string_of_list_ascii
         (map closerOf (unmatched (bracketsOutside s false false) []))
  /\ Forall (fun c => c = "}"%char \/ c = "]"%char)
            (map closerOf (unmatched (bracketsOutside s false false) [])).
Proof.
  destruct (scan_two_phases s [] false false) as [Hstack Hin].
  change (ScanState (map closerOf []) false false) with scanStart in *.
  split.
  - unfold closeOpenBrackets, closers. now rewrite Hstack, Hin.
  - apply List.Forall_forall. intros c Hc. apply in_map_iff in Hc.
    destruct Hc as (o & <- & _). unfold closerOf.
    destruct (Ascii.eqb o "{"); auto.
Qed.

End CloseFacts.

(** ** Validators *)

Section ValidateFacts.

Import Json Value Validate.

(** The document has a company name. *)
Definition hasCompanyName (doc : json) : Prop :=
  truthy (readOpt (get doc "company") "name") = true.

(** No slide of the list is of the given type. *)
Definition lacksType (slides : list json) (type : string) : Prop :=
  Forall (fun s => get s "type" <> Some (str type)) slides.

(** The slide has no citations: [!slide.citations ||
    slide.citations.length === 0]. *)
Definition uncited (slide : json) : bool :=
  negb (truthy (get slide "citations"))
  || isZero (readOpt (get slide "citations") "length").

(** The type of the slide has a string form, if the slide has no citations
    and the warning about it prints the type. *)
Definition typePrints (slide : json) : Prop :=
  uncited slide = true ->
  forall v, get slide "type" = Some v -> printable v = true.

Lemma types_of_slides (slides : list json) :
  Forall (fun s => s <> JNull) slides ->
  types slides = inr (map (fun s => get s "type") slides).
Proof.
  induction 1 as [| s slides Hs _ IH]; [reflexivity |].
  cbn [types map]. rewrite IH.
  destruct s; try reflexivity. now contradict Hs.
Qed.

Lemma types_throws (slides : list json) (e : thrown) :
  types slides = inl e -> e = TypeError /\ In JNull slides.
Proof.
  induction slides as [| s slides IH]; [discriminate |].
  cbn [types].
  destruct (read (Some s) "type") as [e' | t] eqn:Hread.
  - intros [= <-]. destruct s; cbn in Hread; try discriminate Hread.
    injection Hread as <-. split; [reflexivity | now left].
  - destruct (types slides) as [e' | ts]; [| discriminate].
    intros [= <-]. destruct (IH eq_refl) as [-> Hin].
    split; [reflexivity | now right].
Qed.

Lemma hasType_lacks (slides : list json) (type : string) :
  lacksType slides type ->
  hasType (map (fun s => get s "type") slides) type = false.
Proof.
  induction 1 as [| s slides Hs _ IH]; [reflexivity |].
  cbn [map hasType existsb]. fold (hasType (map (fun s => get s "type") slides) type).
  rewrite IH, orb_false_r.
  destruct (get s "type") as [[| | | t | |] |]; try reflexivity.
  apply bool_decide_eq_false. unfold str in Hs. congruence.
Qed.

Lemma missingTypes_lists (found : list (option json)) (type : string) :
  In type SLIDE_TYPES ->
  hasType found type = false ->
  In (MissingSlideType type) (missingTypes found).
Proof.
  intros Hin Hno. unfold missingTypes. apply in_map.
  apply filter_In. split; [exact Hin | now rewrite Hno].
Qed.

Lemma read_company (doc : json) :
  hasCompanyName doc ->
  read (Some doc) "company" = inr (get doc "company").
Proof.
  unfold hasCompanyName. destruct doc; cbn; intros H; try reflexivity.
  discriminate H.
Qed.

(** The loop over the slides throws nothing but the [TypeError] of a type
    without a string form. *)
Lemma citationWarnings_throws (slides : list json) (e : thrown) :
  citationWarnings slides = inl e ->
  e = TypeError /\ ~ Forall typePrints slides.
Proof.
  induction slides as [| s slides IH]; [discriminate |].
  cbn [citationWarnings]. fold (uncited s).
  destruct (uncited s) eqn:Hu.
  - unfold citationWarning.
    destruct (get s "type") as [v |] eqn:Hv.
    + destruct (printable v) eqn:Hp.
      * destruct (citationWarnings slides) as [e' | ws]; [| discriminate].
        intros [= <-]. destruct (IH eq_refl) as [-> Hno].
        split; [reflexivity |]. intros Hall. apply Hno. now inversion Hall.
      * intros [= <-]. split; [reflexivity |]. intros Hall.
        inversion Hall as [| ? ? Hs _]; subst.
        specialize (Hs Hu v Hv). congruence.
    + destruct (citationWarnings slides) as [e' | ws]; [| discriminate].
      intros [= <-]. destruct (IH eq_refl) as [-> Hno].
      split; [reflexivity |]. intros Hall. apply Hno. now inversion Hall.
  - destruct (citationWarnings slides) as [e' | ws]; [| discriminate].
    intros [= <-]. destruct (IH eq_refl) as [-> Hno].
    split; [reflexivity |]. intros Hall. apply Hno. now inversion Hall.
Qed.

Lemma citationWarnings_returns (slides : list json) :
  Forall typePrints slides -> exists ws, citationWarnings slides = inr ws.
Proof.
  intros Hall. destruct (citationWarnings slides) as [e | ws] eqn:Hrun.
  - now destruct (citationWarnings_throws slides e Hrun) as [_ Hno].
  - now exists ws.
Qed.

(** C7. A synthesis output or deck configuration with a company name and
    an array of slides: whatever the slides are, neither validator throws
    an error of the agents; when no slide is [null] the validator of the
    deck returns, and so does the validator of the synthesis when the
    type of every slide without citations has a string form at all; and
    both return with [valid] true and no error, every slide type that no
    slide has being among the warnings. *)
Theorem missing_slide_types_only_warn (doc : json) (slides : list json) :
  hasCompanyName doc ->
  get doc "slides" = Some (JArr slides) ->
  (forall e, validateSynthesisOutput doc <> inl (Thrown e)) /\
  (forall e, validateDeckConfig doc <> inl (Thrown e)) /\
  (Forall (fun s => s <> JNull) slides ->
   (exists ws',
      validateDeckConfig doc = inr (Validation true [] ws') /\
      forall type, In type SLIDE_TYPES -> lacksType slides type ->
        In (MissingSlideType type) ws') /\
   (Forall typePrints slides ->
    exists ws,
      validateSynthesisOutput doc = inr (Validation true [] ws) /\
      forall type, In type SLIDE_TYPES -> lacksType slides type ->
        In (MissingSlideType type) ws)).
Proof.
  intros Hname Hslides.
  unfold validateSynthesisOutput, validateDeckConfig.
  rewrite (read_company doc Hname), Hslides.
  unfold hasCompanyName in Hname. rewrite Hname.
  cbn [negb truthy length Nat.ltb Nat.leb app].
  split; [| split].
  - intros e.
    destruct (types slides) as [e' | found] eqn:Ht.
    + destruct (types_throws slides e' Ht) as [-> _]. discriminate.
    + destruct (citationWarnings slides) as [e' | ws] eqn:Hc; [| discriminate].
      destruct (citationWarnings_throws slides e' Hc) as [-> _]. discriminate.
  - intros e.
    destruct (types slides) as [e' | found] eqn:Ht; [| discriminate].
    destruct (types_throws slides e' Ht) as [-> _]. discriminate.
  - intros Hnonnull.
    rewrite (types_of_slides slides Hnonnull).
    split.
    + eexists. split; [reflexivity |].
      intros type Hin Hlack.
      pose proof (missingTypes_lists _ type Hin (hasType_lacks slides type Hlack))
        as Hm.
      apply in_or_app. right. apply in_or_app. left. exact Hm.
    + intros Hprints.
      destruct (citationWarnings_returns slides Hprints) as (uncitedWs & ->).
      eexists. split; [reflexivity |].
      intros type Hin Hlack.
      pose proof (missingTypes_lists _ type Hin (hasType_lacks slides type Hlack))
        as Hm.
      apply in_or_app. left. exact Hm.
Qed.

End ValidateFacts.

(** A deck with a company name and a single title slide. *)
Definition titleOnlyDeck : Json.json :=
  Json.obj
    [ ("company", Json.obj [("name", Json.str "Acme")]);
      ("slides",
        Json.JArr [Json.obj [("type", Json.str "title");
                             ("citations", Json.JArr [])]]) ].

Lemma missing_slide_types_only_warn_witness :
  (forall e, Validate.validateSynthesisOutput titleOnlyDeck <> inl (Thrown e)) /\
  (forall e, Validate.validateDeckConfig titleOnlyDeck <> inl (Thrown e)) /\
  (Forall (fun s => s <> Json.JNull)
          [Json.obj [("type", Json.str "title"); ("citations", Json.JArr [])]] ->
   (exists ws',
      Validate.validateDeckConfig titleOnlyDeck
      = inr (Validate.Validation true [] ws') /\
      forall type, In type SLIDE_TYPES ->
        lacksType [Json.obj [("type", Json.str "title");
                             ("citations", Json.JArr [])]] type ->
        In (Validate.MissingSlideType type) ws') /\
   (Forall typePrints
           [Json.obj [("type", Json.str "title"); ("citations", Json.JArr [])]] ->
    exists ws,
      Validate.validateSynthesisOutput titleOnlyDeck
      = inr (Validate.Validation true [] ws) /\
      forall type, In type SLIDE_TYPES ->
        lacksType [Json.obj [("type", Json.str "title");
                             ("citations", Json.JArr [])]] type ->
        In (Validate.MissingSlideType type) ws)).
Proof.
  apply (missing_slide_types_only_warn titleOnlyDeck
           [Json.obj [("type", Json.str "title"); ("citations", Json.JArr [])]]).
  - reflexivity.
  - reflexivity.
Defined.

(** A slide without citations whose type is an object with a [toString]
    member of its own: the warning about it cannot be printed, and
    [validateSynthesisOutput] ends in a [TypeError]; [validateDeckConfig],
    which prints no type, returns. *)
Example validateSynthesisOutput_unprintable_type :
  let doc :=
    Json.obj
      [ ("company", Json.obj [("name", Json.str "Acme")]);
        ("slides",
          Json.JArr [Json.obj [("type", Json.obj [("toString", Json.JNum "5")])]]) ] in
  Validate.validateSynthesisOutput doc = inl TypeError /\
  exists ws, Validate.validateDeckConfig doc = inr (Validate.Validation true [] ws).
Proof. split; [vm_compute; reflexivity | eexists; vm_compute; reflexivity]. Qed.

(** A number as a condition: a text that stands for less than half of the
    least number above 0 reads as 0. *)
Example truthy_of_numbers :
  map (fun l => Value.truthy (Some (Json.JNum l)))
      ["0"; "-0"; "0.0e5"; "1e-400"; "2e-324"; "3e-324"; "0.00001"; "12"]
  = [false; false; false; false; false; true; true; true].
Proof. vm_compute. reflexivity. Qed.

(** ** Aggregate gap analysis *)

Section GapFacts.

Import Gaps.

Context {E : Engine}.

(** A slide with no classified content item and no source of relevance
    above 0.7. *)
Definition lacksContent (s : slide) : Prop :=
  allContent s = [] /\
  Forall (fun src => ~ (Cost.usd 7 10 < relevanceScore src)%Qc) (relevantSources s).

(** The entry that reports a slide type as lacking content. *)
Definition noContentEntry (slideType : string) : string :=
  slideType ++ ": No content found".

(** The report says something about a slide type. *)
Definition mentions (report : list string) (slideType : string) : Prop :=
  Exists (fun g => JS.startsWith (slideType ++ ":") g = true) report.

(** The aggregate of documents none of which has content for any type. *)
Definition nothingClassified : gmap string slide :=
  list_to_map (map (fun t => (t, emptySlide)) SLIDE_TYPES).

Lemma slideGaps_lacking (slideType : string) (reqs : list string) (s : slide) :
  lacksContent s ->
  slideGaps slideType reqs s = inr [noContentEntry slideType].
Proof.
  intros [Hnone Hlow]. unfold slideGaps. rewrite Hnone. cbn.
  replace (existsb _ (relevantSources s)) with false; [reflexivity |].
  symmetry. apply not_true_is_false. intros Hex.
  apply existsb_exists in Hex. destruct Hex as (src & Hsrc & Hhigh).
  rewrite List.Forall_forall in Hlow.
  apply bool_decide_eq_true in Hhigh. exact (Hlow src Hsrc Hhigh).
Qed.

Lemma collectGaps_lacking (entries : list (string * list string))
      (slides : gmap string slide) (gaps : list string)
      (slideType : string) (reqs : list string) (s : slide) :
  collectGaps entries slides = inr gaps ->
  In (slideType, reqs) entries ->
  slides !! slideType = Some s ->
  lacksContent s ->
  In (noContentEntry slideType) gaps.
Proof.
  revert gaps. induction entries as [| [t rs] entries IH]; intros gaps Hrun Hin Hs Hlack.
  - destruct Hin.
  - cbn [collectGaps] in Hrun. destruct Hin as [Heq | Hin].
    + injection Heq as -> ->. rewrite Hs in Hrun.
      rewrite (slideGaps_lacking slideType reqs s Hlack) in Hrun.
      destruct (collectGaps entries slides) as [e | gs']; [discriminate |].
      injection Hrun as <-. now left.
    + destruct (slides !! t) as [s' |].
      * destruct (slideGaps t rs s') as [e | gs]; [discriminate |].
        destruct (collectGaps entries slides) as [e | gs']; [discriminate |].
        injection Hrun as <-. apply in_or_app. right. now apply IH.
      * now apply IH.
Qed.

Lemma uniqFrom_spec (seen l : list string) (x : string) :
  In x (uniqFrom seen l) <-> In x l /\ ~ In x seen.
Proof.
  revert seen. induction l as [| y l IH]; intros seen; cbn [uniqFrom].
  - cbn. tauto.
  - destruct (JS.arrayIncludes seen y) eqn:Hy.
    + apply arrayIncludes_In in Hy. rewrite IH. cbn.
      split; [tauto |]. intros [[-> | Hx] Hn]; [contradiction | tauto].
    + assert (Hy' : ~ In y seen).
      { intros H. apply arrayIncludes_In in H. congruence. }
      cbn. rewrite IH. cbn.
      destruct (string_dec y x) as [-> | Hne]; [tauto |].
      split; [intros [? | [? ?]]; tauto | intros [[? | ?] ?]; tauto].
Qed.

Lemma uniqFrom_NoDup (seen l : list string) : List.NoDup (uniqFrom seen l).
Proof.
  revert seen. induction l as [| y l IH]; intros seen; cbn [uniqFrom].
  - constructor.
  - destruct (JS.arrayIncludes seen y); [apply IH |].
    constructor; [| apply IH].
    rewrite uniqFrom_spec. cbn. tauto.
Qed.

(** In a list without repetition, an element is among the first [n] exactly
    when its place is before [n]. *)
Lemma firstn_In_index (l : list string) (n i : nat) (x : string) :
  List.NoDup l -> nth_error l i = Some x ->
  (In x (firstn n l) <-> (i < n)%nat).
Proof.
  intros Hnd Hi. split.
  - intros Hin. destruct (In_nth_error _ _ Hin) as [j Hj].
    assert (Hjn : (j < n)%nat).
    { assert (Hlen : (j < length (firstn n l))%nat)
        by (apply nth_error_Some; congruence).
      rewrite length_firstn in Hlen. lia. }
    rewrite nth_error_firstn in Hj.
    destruct (Nat.ltb_spec j n); [| lia].
    assert (i = j); [| lia].
    apply (proj1 (NoDup_nth_error l) Hnd).
    + apply nth_error_Some. congruence.
    + congruence.
  - intros Hlt. apply (nth_error_In _ i).
    rewrite nth_error_firstn. destruct (Nat.ltb_spec i n); [exact Hi | lia].
Qed.

(** C8, as the code has it.  For a slide type of the requirements table
    whose slide has no content item and no source of relevance above 0.7,
    when the analysis returns: the entry "<type>: No content found" is one
    of the distinct gaps collected, and the report, which keeps the first
    ten of them, lists it exactly when fewer than ten come before it. *)
Theorem gap_listed_within_first_ten
    (slides : gmap string slide) (report : list string)
    (slideType : string) (reqs : list string) (s : slide) :
  In (slideType, reqs) criticalRequirements ->
  slides !! slideType = Some s ->
  lacksContent s ->
  analyzeAggregateGaps slides = inr report ->
  exists gaps i,
    collectGaps criticalRequirements slides = inr gaps /\
    report = firstn 10 (uniq gaps) /\
    nth_error (uniq gaps) i = Some (noContentEntry slideType) /\
    (In (noContentEntry slideType) report <-> (i < 10)%nat).
Proof.
  intros Hin Hs Hlack Hrun. unfold analyzeAggregateGaps in Hrun.
  destruct (collectGaps criticalRequirements slides) as [e | gaps] eqn:Hgaps;
    [discriminate |].
  injection Hrun as <-.
  assert (Hentry : In (noContentEntry slideType) (uniq gaps)).
  { apply uniqFrom_spec. split; [| intros []].
    exact (collectGaps_lacking _ _ _ _ _ _ Hgaps Hin Hs Hlack). }
  destruct (In_nth_error _ _ Hentry) as [i Hi].
  exists gaps, i. repeat split; try assumption.
  - now apply firstn_In_index; [apply uniqFrom_NoDup |].
  - now apply firstn_In_index; [apply uniqFrom_NoDup |].
Qed.

End GapFacts.

Section GapExamples.

Import Gaps.

#[local] Existing Instance plainEngine.

(** C8 as stated fails: when no slide type has any content, the type [ask]
    lacks content and the report, cut to ten entries, does not mention
    it. *)
Lemma gap_report_omits_lacking_types :
  ~ (forall (slides : gmap string slide) (report : list string)
            (slideType : string) (s : slide),
       In slideType SLIDE_TYPES ->
       slides !! slideType = Some s ->
       lacksContent s ->
       analyzeAggregateGaps slides = inr report ->
       mentions report slideType).
Proof.
  intros Hclaim.
  assert (Hrun : analyzeAggregateGaps nothingClassified
                 = inr (map noContentEntry
                          [ "title"; "problem"; "solution"; "whyNow";
                            "marketSize"; "competition"; "product";
                            "businessModel"; "traction"; "team" ]))
    by (vm_compute; reflexivity).
  assert (Hask : In "ask" SLIDE_TYPES) by (cbn; tauto).
  assert (Hslide : nothingClassified !! "ask" = Some emptySlide)
    by (vm_compute; reflexivity).
  assert (Hlack : lacksContent emptySlide)
    by (split; [reflexivity | constructor]).
  specialize (Hclaim nothingClassified _ "ask" emptySlide Hask Hslide Hlack Hrun).
  unfold mentions in Hclaim. apply List.Exists_exists in Hclaim.
  destruct Hclaim as (g & Hg & Hstart).
  cbn in Hg.
  repeat (destruct Hg as [<- | Hg]; [vm_compute in Hstart; discriminate |]).
  destruct Hg.
Qed.

Lemma gap_listed_within_first_ten_witness :
  exists gaps i,
    Gaps.collectGaps Gaps.criticalRequirements nothingClassified = inr gaps /\
    map noContentEntry
        [ "title"; "problem"; "solution"; "whyNow"; "marketSize";
          "competition"; "product"; "businessModel"; "traction"; "team" ]
    = firstn 10 (Gaps.uniq gaps) /\
    nth_error (Gaps.uniq gaps) i = Some (noContentEntry "title") /\
    (In (noContentEntry "title")
        (map noContentEntry
           [ "title"; "problem"; "solution"; "whyNow"; "marketSize";
             "competition"; "product"; "businessModel"; "traction"; "team" ])
     <-> (i < 10)%nat).
Proof.
  apply (gap_listed_within_first_ten nothingClassified _ "title"
           ["company_name"; "tagline"] Gaps.emptySlide).
  - cbn. tauto.
  - vm_compute. reflexivity.
  - split; [reflexivity | constructor].
  - vm_compute. reflexivity.
Defined.

(** The type [purpose] has no entry in the requirements table: an aggregate
    that holds only an empty [purpose] slide yields an empty report. *)
Example purpose_is_not_analysed :
  Gaps.analyzeAggregateGaps (list_to_map [("purpose", Gaps.emptySlide)]) = inr [].
Proof. vm_compute. reflexivity. Qed.

End GapExamples.

(** ** Image generator agent *)

Section ImageFacts.

Import Image.

Definition unavailable : Retry.outcome string :=
  Retry.Threw (JsError None (Some "503 Service Unavailable")).

(** A provider that is unavailable five times over. *)
Definition alwaysUnavailable : env :=
  Env 1000000 0 (repeat (unavailable, 100%Z) 5) [].

(** A provider that fails once and then answers, each call taking 100 ms. *)
Definition failsOnce : env :=
  Env 1000000 0
      [ (unavailable, 100%Z); (Retry.Returned "image-1", 100%Z);
        (Retry.Returned "image-2", 100%Z) ] [].

(** C6, evaluated.  The retries of the image agent go through the inherited
    executor: under the default configuration the delays of a provider that
    stays unavailable are 3000, 6000, 12000 and 24000 ms, the plain powers
    of two with nothing random in them, where [calculateBackoffWithJitter]
    would give 3300 ms for a first retry at a random draw of one half; with
    seven attempts configured the sixth delay is 96000 ms, above the ceiling
    of 60000 ms even with a fifth added; and when an image succeeds on its
    second attempt the first provider call of the next image starts 100 ms
    after that attempt, inside the minimum spacing of 3000 ms. *)
Theorem image_retries_use_plain_backoff :
  Retry.delays (snd (callNanoBanana IMAGE_GENERATION_CONFIG alwaysUnavailable))
  = [3000; 6000; 12000; 24000]%Z
  /\ calculateBackoffWithJitter IMAGE_GENERATION_CONFIG 1 (Number.decimal 5 1)
     = Number.ofZ 3300
  /\ Retry.delays
       (snd (callNanoBanana (ImageConfig 3000 7 3000 60000 (Number.decimal 2 1))
                            (Env 1000000 0 (repeat (unavailable, 100%Z) 7) [])))
     = [3000; 6000; 12000; 24000; 48000; 96000]%Z
  /\ providerCalls (snd (generateAll IMAGE_GENERATION_CONFIG 2 failsOnce))
     = [1000000; 1003100; 1003200]%Z
  /\ spacings (providerCalls (snd (generateAll IMAGE_GENERATION_CONFIG 2 failsOnce)))
     = [3100; 100]%Z.
Proof. repeat split; vm_compute; reflexivity. Qed.

End ImageFacts.

(** ** JSON texts: the scanner and the grammar *)

Section StringFacts.

Import Json Repair.

Lemma append_cons (c : ascii) (a b : string) :
  String c a ++ b = String c (a ++ b).
Proof. reflexivity. Qed.

Lemma append_nil_r (a : string) : a ++ EmptyString = a.
Proof.
  induction a as [| c a IH]; [reflexivity |].
  now rewrite append_cons, IH.
Qed.

Lemma append_assoc (a b c : string) : (a ++ b) ++ c = a ++ (b ++ c).
Proof.
  induction a as [| x a IH]; [reflexivity |].
  now rewrite !append_cons, IH.
Qed.

End StringFacts.

Section LexFacts.

Import Json Repair.

(** A text of JSON white space only. *)
Fixpoint allWs (s : string) : bool :=
  match s with
  | EmptyString => true
  | String c s' => isWs c && allWs s'
  end.

Lemma lexFrom_cons (st : lexState) (c : ascii) (s : string) :
  lexFrom st (String c s)
  = match lexStep st c with
    | Some (st', toks) => option_map (app toks) (lexFrom st' s)
    | None => None
    end.
Proof.
  cbn [lexFrom]. destruct (lexStep st c) as [[st' toks] |]; [| reflexivity].
  now destruct (lexFrom st' s).
Qed.

Lemma exists_last_or_nil {A : Type} (l : list A) :
  l = [] \/ exists l' x, l = (l' ++ [x])%list.
Proof.
  destruct l as [| a l]; [now left | right].
  destruct (exists_last (l := a :: l)) as (l' & x & ->); [discriminate |].
  now exists l', x.
Qed.

Lemma option_map_nil_app (o : option (list token)) : option_map (app []) o = o.
Proof. now destruct o. Qed.

(** Leading white space is skipped. *)
Lemma lexFrom_leading_ws (w x : string) :
  allWs w = true -> lexFrom LIdle (w ++ x) = lexFrom LIdle x.
Proof.
  induction w as [| c w IH]; intros Hw; [reflexivity |].
  cbn in Hw. apply andb_prop in Hw. destruct Hw as [Hc Hw].
  change (String c w ++ x) with (String c (w ++ x)).
  rewrite lexFrom_cons. cbn [lexStep]. unfold idleStep. rewrite Hc.
  rewrite option_map_nil_app. now apply IH.
Qed.

(** What one character can do outside of a token. *)
Lemma idleStep_cases (c : ascii) (st : lexState) (toks : list token) :
  idleStep c = Some (st, toks) ->
  (isWs c = true /\ st = LIdle /\ toks = []) \/
  (isWs c = false /\ st = LIdle /\
   exists t, toks = [t] /\ (t = TLBrace <-> c = "{"%char) /\ (t = TRBrace <-> c = "}"%char)
             /\ (forall x, t <> TStr x) /\ (forall x, t <> TNum x) /\ (forall l, t <> TLit l)) \/
  (isWs c = false /\ st <> LIdle /\ toks = []).
Proof.
  unfold idleStep.
  destruct (isWs c) eqn:Hws; [intros [= <- <-]; auto |].
  repeat match goal with
  | |- context [if Ascii.eqb c ?k then _ else _] =>
      let H := fresh "H" in
      destruct (Ascii.eqb c k) eqn:H;
      [ apply Ascii.eqb_eq in H; subst c; intros [= <- <-];
        first [ right; left; split; [reflexivity |]; split; [reflexivity |];
                eexists; split; [reflexivity |];
                repeat split; intros; try discriminate; try reflexivity; congruence
              | right; right; split; [reflexivity |]; split; [discriminate | reflexivity] ]
      | apply Ascii.eqb_neq in H ]
  end.
  destruct (isDigit c); [| discriminate].
  intros [= <- <-]. right; right. split; [reflexivity |]. split; [discriminate | reflexivity].
Qed.


(** A token that is a whole value by itself. *)
Definition scalar (t : token) : Prop :=
  match t with
  | TLit _ | TStr _ | TNum _ => True
  | _ => False
  end.

(** Inside a token, a character either keeps the scanner inside a token or
    completes a scalar. *)
Lemma lexStep_inside (st st' : lexState) (c : ascii) (toks : list token) :
  st <> LIdle ->
  lexStep st c = Some (st', toks) ->
  (toks = [] /\ st' <> LIdle) \/
  (exists t toks', toks = t :: toks' /\ scalar t).
Proof.
  intros Hst. destruct st as [| acc | acc | acc ds | l seen | ns acc];
    [contradiction | | | | |]; cbn [lexStep].
  - destruct (Ascii.eqb c JS.dquote); [intros [= <- <-]; right; eexists _, _; split; [reflexivity | exact I] |].
    destruct (Ascii.eqb c JS.backslash); [intros [= <- <-]; left; split; [reflexivity | discriminate] |].
    destruct (JS.charCode c <? 32)%N; [discriminate |].
    intros [= <- <-]; left; split; [reflexivity | discriminate].
  - destruct (Ascii.eqb c "u"); [intros [= <- <-]; left; split; [reflexivity | discriminate] |].
    destruct (unescape c); [| discriminate].
    intros [= <- <-]; left; split; [reflexivity | discriminate].
  - destruct (hexValue c); [| discriminate].
    destruct ds as [| d1 [| d2 [| d3 [| d4 ds]]]];
      try (intros [= <- <-]; left; split; [reflexivity | discriminate]).
  - destruct (String.get seen (literalText l)); [| discriminate].
    destruct (Ascii.eqb c a); [| discriminate].
    destruct (S seen =? String.length (literalText l))%nat.
    + intros [= <- <-]; right; eexists _, _; split; [reflexivity | exact I].
    + intros [= <- <-]; left; split; [reflexivity | discriminate].
  - destruct (numStep ns c).
    + intros [= <- <-]; left; split; [reflexivity | discriminate].
    + destruct (numAccepting ns); [| discriminate].
      destruct (idleStep c) as [[st1 toks1] |]; [| discriminate].
      intros [= <- <-]; right; eexists _, _; split; [reflexivity | exact I].
Qed.

(** A text that starts inside a token yields a scalar first. *)
Lemma lexFrom_inside (s : string) (st : lexState) (toks : list token) :
  st <> LIdle ->
  lexFrom st s = Some toks ->
  exists t toks', toks = t :: toks' /\ scalar t.
Proof.
  revert st toks. induction s as [| c s IH]; intros st toks Hst.
  - destruct st as [| | | | | ns acc]; cbn; try discriminate; [contradiction |].
    destruct (numAccepting ns); [| discriminate].
    intros [= <-]. eexists _, _; split; [reflexivity | exact I].
  - rewrite lexFrom_cons.
    destruct (lexStep st c) as [[st' em] |] eqn:Hstep; [| discriminate].
    destruct (lexFrom st' s) as [more |] eqn:Hmore; [| discriminate].
    intros [= <-].
    destruct (lexStep_inside st st' c em Hst Hstep) as [[-> Hst'] | (t & em' & -> & Ht)].
    + exact (IH st' more Hst' Hmore).
    + eexists _, _; split; [reflexivity | exact Ht].
Qed.

(** A text without tokens is white space. *)
Lemma lex_no_tokens (s : string) : lexFrom LIdle s = Some [] -> allWs s = true.
Proof.
  induction s as [| c s IH]; [reflexivity |].
  rewrite lexFrom_cons. cbn [lexStep].
  destruct (idleStep c) as [[st' em] |] eqn:Hstep; [| discriminate].
  destruct (lexFrom st' s) as [more |] eqn:Hmore; [| discriminate].
  intros [= Hnil]. apply app_eq_nil in Hnil. destruct Hnil as [-> ->].
  destruct (idleStep_cases c st' [] Hstep)
    as [(Hws & -> & _) | [(_ & _ & t & Ht & _) | (_ & Hst' & _)]].
  - cbn. rewrite Hws. now apply IH.
  - discriminate Ht.
  - destruct (lexFrom_inside s st' [] Hst' Hmore) as (t & toks' & Ht & _).
    discriminate Ht.
Qed.

(** A text whose first token is an opening brace starts, after white space,
    with that brace. *)
Lemma lex_first_brace (s : string) (toks : list token) :
  lexFrom LIdle s = Some (TLBrace :: toks) ->
  exists w s', s = w ++ String "{" s' /\ allWs w = true
               /\ lexFrom LIdle s' = Some toks.
Proof.
  induction s as [| c s IH]; [discriminate |].
  rewrite lexFrom_cons. cbn [lexStep].
  destruct (idleStep c) as [[st' em] |] eqn:Hstep; [| discriminate].
  destruct (lexFrom st' s) as [more |] eqn:Hmore; [| discriminate].
  intros [= Hcat].
  destruct (idleStep_cases c st' em Hstep)
    as [(Hws & -> & ->) | [(_ & -> & t & -> & Hopen & _) | (_ & Hst' & ->)]].
  - cbn in Hcat. subst more.
    destruct (IH Hmore) as (w & s' & -> & Hw & Hs').
    exists (String c w), s'. cbn. rewrite Hws. auto.
  - injection Hcat as -> ->.
    exists EmptyString, s. split; [| split; [reflexivity | exact Hmore]].
    replace c with "{"%char by (symmetry; now apply Hopen). reflexivity.
  - cbn in Hcat. subst more.
    destruct (lexFrom_inside s st' _ Hst' Hmore) as (t & toks' & [= <- <-] & []).
Qed.


(** The tokens a single character completes end with a closing brace only
    if the character is that brace; the scanner is then between tokens. *)
Lemma lexStep_closing_brace (st st' : lexState) (c : ascii)
      (toks : list token) :
  lexStep st c = Some (st', toks ++ [TRBrace])%list ->
  c = "}"%char /\ st' = LIdle.
Proof.
  assert (Hidle : forall st1 em, idleStep c = Some (st1, em) ->
            forall pre, em = (pre ++ [TRBrace])%list -> c = "}"%char /\ st1 = LIdle).
  { intros st1 em Hstep pre ->.
    destruct (idleStep_cases c st1 _ Hstep)
      as [(_ & _ & Hnil) | [(_ & -> & t & Ht & _ & Hclose & _) | (_ & _ & Hnil)]].
    - now destruct pre.
    - destruct pre as [| p [| q pre]]; try discriminate Ht.
      injection Ht as <-. split; [now apply Hclose | reflexivity].
    - now destruct pre. }
  destruct st as [| acc | acc | acc ds | l seen | ns acc]; cbn [lexStep].
  - intros Hstep. exact (Hidle _ _ Hstep toks eq_refl).
  - destruct (Ascii.eqb c JS.dquote).
    { intros [= _ Hem]. destruct toks as [| ? [| ? ?]]; discriminate Hem. }
    destruct (Ascii.eqb c JS.backslash).
    { intros [= _ Hem]. now destruct toks. }
    destruct (JS.charCode c <? 32)%N; [discriminate |].
    intros [= _ Hem]. now destruct toks.
  - destruct (Ascii.eqb c "u"); [intros [= _ Hem]; now destruct toks |].
    destruct (unescape c); [| discriminate].
    intros [= _ Hem]. now destruct toks.
  - destruct (hexValue c); [| discriminate].
    destruct ds as [| d1 [| d2 [| d3 [| d4 ds]]]];
      try (intros [= _ Hem]; now destruct toks).
  - destruct (String.get seen (literalText l)); [| discriminate].
    destruct (Ascii.eqb c a); [| discriminate].
    destruct (S seen =? String.length (literalText l))%nat.
    + intros [= _ Hem]. destruct toks as [| ? [| ? ?]]; discriminate Hem.
    + intros [= _ Hem]. now destruct toks.
  - destruct (numStep ns c).
    { intros [= _ Hem]. now destruct toks. }
    destruct (numAccepting ns); [| discriminate].
    destruct (idleStep c) as [[st1 em] |] eqn:Hstep; [| discriminate].
    intros [= <- Hem].
    destruct toks as [| t toks]; cbn in Hem.
    + injection Hem as Hem _. discriminate Hem.
    + injection Hem as _ Hem. exact (Hidle _ _ eq_refl toks Hem).
Qed.

(** A text whose last token is a closing brace ends, before white space,
    with that brace. *)
Lemma lex_last_brace (s : string) (st : lexState) (toks : list token) :
  lexFrom st s = Some (toks ++ [TRBrace])%list ->
  exists s' w, s = s' ++ String "}" w /\ allWs w = true.
Proof.
  revert st toks. induction s as [| c s IH]; intros st toks.
  - destruct st as [| | | | | ns acc]; cbn; try discriminate.
    + intros [= Hem]. now destruct toks.
    + destruct (numAccepting ns); [| discriminate].
      intros [= Hem]. destruct toks as [| ? [| ? ?]]; discriminate Hem.
  - rewrite lexFrom_cons.
    destruct (lexStep st c) as [[st' em] |] eqn:Hstep; [| discriminate].
    destruct (lexFrom st' s) as [more |] eqn:Hmore; [| discriminate].
    intros [= Hcat].
    destruct (exists_last_or_nil more) as [-> | (more' & t & ->)].
    + rewrite app_nil_r in Hcat. subst em.
      destruct (lexStep_closing_brace st st' c toks Hstep) as [-> ->].
      exists EmptyString, s. split; [reflexivity | now apply lex_no_tokens].
    + rewrite app_assoc in Hcat. apply app_inj_tail in Hcat.
      destruct Hcat as [_ ->].
      destruct (IH st' more' Hmore) as (s' & w & -> & Hw).
      exists (String c s'), w. split; [reflexivity | exact Hw].
Qed.


Lemma isWs_cases (c : ascii) :
  isWs c = true ->
  c = JS.TAB \/ c = JS.LF \/ c = JS.CR \/ c = " "%char.
Proof.
  destruct c as [[] [] [] [] [] [] [] []]; cbn; intros H;
    try discriminate H; auto.
Qed.

(** White space does not end a string literal. *)
Lemma lexFrom_string_ws (w : string) (acc : JS.ustring) :
  allWs w = true -> lexFrom (LStr acc) w = None.
Proof.
  revert acc. induction w as [| c w IH]; intros acc Hw; [reflexivity |].
  cbn in Hw. apply andb_prop in Hw. destruct Hw as [Hc Hw].
  rewrite lexFrom_cons.
  destruct (isWs_cases c Hc) as [-> | [-> | [-> | ->]]]; try reflexivity.
  change (lexStep (LStr acc) " ") with (Some (LStr (snoc acc " "), @nil token)).
  cbv beta iota. now rewrite IH.
Qed.

Lemma lexFrom_ws (w : string) : allWs w = true -> lexFrom LIdle w = Some [].
Proof.
  intros Hw. pose proof (lexFrom_leading_ws w EmptyString Hw) as H.
  now rewrite append_nil_r in H.
Qed.

(** After a closing brace, trailing white space changes nothing. *)
Lemma lexFrom_trailing_ws (x w : string) (st : lexState) (toks : list token) :
  allWs w = true ->
  lexFrom st (x ++ String "}" w) = Some toks ->
  lexFrom st (x ++ String "}" EmptyString) = Some toks.
Proof.
  intros Hw. revert st toks. induction x as [| c x IH]; intros st toks.
  - change (lexFrom st (String "}" w) = Some toks ->
            lexFrom st (String "}" EmptyString) = Some toks).
    rewrite !lexFrom_cons.
    assert (Hidle : idleStep "}" = Some (LIdle, [TRBrace])) by reflexivity.
    destruct st as [| acc | acc | acc ds | l seen | ns acc].
    + cbn [lexStep]. rewrite Hidle, (lexFrom_ws w Hw). exact (fun H => H).
    + change (lexStep (LStr acc) "}") with (Some (LStr (snoc acc "}"), @nil token)).
      cbv beta iota. now rewrite (lexFrom_string_ws w _ Hw).
    + change (lexStep (LEsc acc) "}") with (@None (lexState * list token)).
      discriminate.
    + change (lexStep (LHex acc ds) "}") with (@None (lexState * list token)).
      discriminate.
    + replace (lexStep (LLit l seen) "}") with (@None (lexState * list token));
        [discriminate |].
      now destruct l, seen as [| [| [| [| [| seen]]]]].
    + cbn [lexStep].
      replace (numStep ns "}") with (@None numState) by now destruct ns.
      destruct (numAccepting ns); [| discriminate].
      rewrite Hidle, (lexFrom_ws w Hw). exact (fun H => H).
  - rewrite !append_cons, !lexFrom_cons.
    destruct (lexStep st c) as [[st' em] |]; [| discriminate].
    destruct (lexFrom st' (x ++ String "}" w)) as [more |] eqn:Hmore;
      [| discriminate].
    now rewrite (IH st' more Hmore).
Qed.

End LexFacts.

Section ParseFacts.

Import Json Repair.

Definition ctxIsObject (c : context) : bool :=
  match c with
  | CObj _ _ => true
  | CArr _ => false
  end.

(** The kind of the outermost open container: [true] for an object. *)
Definition outermost (stk : list context) (innermost : bool) : bool :=
  List.last (map ctxIsObject stk) innermost.

Definition root (st : parseState) : option bool :=
  match st with
  | SValue [] => None
  | SValue (c :: stk) => Some (outermost stk (ctxIsObject c))
  | SArrOpen stk | SArrSep stk _ => Some (outermost stk false)
  | SObjOpen stk | SKey stk _ | SColon stk _ _ | SObjSep stk _ =>
      Some (outermost stk true)
  | SEnd _ => None
  end.

Definition kindOf (v : json) : option bool :=
  match v with
  | JObj _ => Some true
  | JArr _ => Some false
  | _ => None
  end.

Definition closerToken (b : bool) : token := if b then TRBrace else TRBracket.

Lemma last_cons_default (l : list bool) (x b : bool) :
  List.last (x :: l) b = List.last l x.
Proof.
  revert x b. induction l as [| y l IH]; intros x b; [reflexivity |].
  change (List.last (x :: y :: l) b) with (List.last (y :: l) b).
  now rewrite !IH.
Qed.

Lemma outermost_cons (c : context) (stk : list context) (b : bool) :
  outermost (c :: stk) b = outermost stk (ctxIsObject c).
Proof. apply last_cons_default. Qed.

(** A value delivered inside a container leaves the outermost container
    as it is; delivered outside of any, it ends the document. *)
Lemma deliver_root (stk : list context) (v : json) (b : bool) :
  root (deliver stk v)
  = match stk with
    | [] => None
    | c :: stk' => Some (outermost stk' (ctxIsObject c))
    end.
Proof. destruct stk as [| [elems | members key] stk']; reflexivity. Qed.

Lemma valueStep_root (c : context) (stk : list context) (t : token)
      (st' : parseState) :
  valueStep (c :: stk) t = Some st' ->
  root st' = Some (outermost stk (ctxIsObject c)).
Proof.
  destruct t; cbn [valueStep]; intros [= <-].
  - cbn [root]. apply f_equal, outermost_cons.
  - cbn [root]. apply f_equal, outermost_cons.
  - apply (deliver_root (c :: stk) _ true).
  - apply (deliver_root (c :: stk) _ true).
  - apply (deliver_root (c :: stk) _ true).
Qed.

(** One token keeps the outermost container open, unless it is the closer
    of that container and ends the document. *)
Lemma parseStep_root (st st' : parseState) (t : token) (b : bool) :
  root st = Some b ->
  parseStep st t = Some st' ->
  root st' = Some b \/
  (exists v, st' = SEnd v /\ kindOf v = Some b /\ t = closerToken b).
Proof.
  destruct st as [stk | stk | stk | stk ms | stk ms k | stk es | stk ms | v];
    cbn [root parseStep].
  - destruct stk as [| c stk]; [discriminate |].
    intros [= <-] Hstep. left. exact (valueStep_root c stk t st' Hstep).
  - intros [= <-]. destruct t;
      try (intros Hstep; left; rewrite (valueStep_root _ _ _ _ Hstep); reflexivity).
    intros [= <-]. destruct stk as [| c stk].
    + right. exists (JArr []). auto.
    + left. rewrite (deliver_root (c :: stk) _ true).
      apply f_equal. symmetry. apply outermost_cons.
  - intros [= <-]. destruct t; try discriminate.
    + intros [= <-]. destruct stk as [| c stk].
      * right. exists (JObj []). auto.
      * left. rewrite (deliver_root (c :: stk) _ true).
        apply f_equal. symmetry. apply outermost_cons.
    + intros [= <-]. now left.
  - intros [= <-]. destruct t; try discriminate. intros [= <-]. now left.
  - intros [= <-]. destruct t; try discriminate. intros [= <-]. now left.
  - intros [= <-]. destruct t; try discriminate.
    + intros [= <-]. destruct stk as [| c stk].
      * right. exists (JArr es). auto.
      * left. rewrite (deliver_root (c :: stk) _ true).
        apply f_equal. symmetry. apply outermost_cons.
    + intros [= <-]. now left.
  - intros [= <-]. destruct t; try discriminate.
    + intros [= <-]. destruct stk as [| c stk].
      * right. exists (JObj ms). auto.
      * left. rewrite (deliver_root (c :: stk) _ true).
        apply f_equal. symmetry. apply outermost_cons.
    + intros [= <-]. now left.
  - discriminate.
Qed.

Lemma parseFrom_root (toks : list token) (st : parseState) (b : bool) (v : json) :
  root st = Some b ->
  parseFrom st toks = Some v ->
  kindOf v = Some b /\ exists toks', toks = (toks' ++ [closerToken b])%list.
Proof.
  revert st. induction toks as [| t toks IH]; intros st Hroot.
  - cbn. destruct st; discriminate.
  - cbn [parseFrom]. destruct (parseStep st t) as [st' |] eqn:Hstep; [| discriminate].
    intros Hrun.
    destruct (parseStep_root st st' t b Hroot Hstep)
      as [Hroot' | (v' & -> & Hkind & ->)].
    + destruct (IH st' Hroot' Hrun) as [Hkind (toks' & ->)].
      split; [exact Hkind |]. now exists (t :: toks').
    + destruct toks; [| discriminate Hrun]. injection Hrun as <-.
      split; [exact Hkind |]. now exists [].
Qed.

(** The tokens of a document that is an object start with an opening brace
    and end with a closing brace. *)
Lemma parse_object_tokens (toks : list token) (members : list (JS.ustring * json)) :
  parseFrom (SValue []) toks = Some (JObj members) ->
  exists mid, toks = TLBrace :: (mid ++ [TRBrace])%list.
Proof.
  destruct toks as [| t toks]; [discriminate |].
  cbn [parseFrom parseStep].
  destruct t; cbn [valueStep deliver]; try discriminate.
  - intros Hrun.
    destruct (parseFrom_root toks (SObjOpen []) true _ eq_refl Hrun)
      as [_ (mid & ->)].
    now exists mid.
  - intros Hrun.
    destruct (parseFrom_root toks (SArrOpen []) false _ eq_refl Hrun)
      as [Hkind _].
    discriminate Hkind.
  - destruct toks; [| discriminate]. now destruct l.
  - destruct toks; discriminate.
  - destruct toks; discriminate.
Qed.

End ParseFacts.

Section ExtractFacts.

Import Json Repair.

Lemma isWs_not_brace (c : ascii) :
  isWs c = true -> Ascii.eqb c "{" = false /\ Ascii.eqb c "}" = false.
Proof. intros H. destruct (isWs_cases c H) as [-> | [-> | [-> | ->]]]; now split. Qed.

Lemma upToLastBrace_ws (w : string) : allWs w = true -> upToLastBrace w = None.
Proof.
  induction w as [| c w IH]; [reflexivity |].
  cbn. intros Hw. apply andb_prop in Hw. destruct Hw as [Hc Hw].
  rewrite (IH Hw). now rewrite (proj2 (isWs_not_brace c Hc)).
Qed.

Lemma upToLastBrace_last (body w : string) :
  allWs w = true ->
  upToLastBrace (body ++ String "}" w) = Some (body ++ String "}" EmptyString).
Proof.
  intros Hw. induction body as [| c body IH].
  - change (upToLastBrace (String "}" w) = Some (String "}" EmptyString)).
    cbn. now rewrite (upToLastBrace_ws w Hw).
  - rewrite !append_cons. cbn [upToLastBrace]. now rewrite IH.
Qed.

(** The raw-object pattern finds an object written between white space. *)
Lemma jsonMatch_object (w1 body w2 : string) :
  allWs w1 = true -> allWs w2 = true ->
  jsonMatch (w1 ++ String "{" (body ++ String "}" w2))
  = Some (String "{" (body ++ String "}" EmptyString)).
Proof.
  intros Hw1 Hw2. induction w1 as [| c w1 IH].
  - change (jsonMatch (String "{" (body ++ String "}" w2))
            = Some (String "{" (body ++ String "}" EmptyString))).
    cbn [jsonMatch]. change (Ascii.eqb "{" "{") with true. cbv iota.
    now rewrite (upToLastBrace_last body w2 Hw2).
  - cbn in Hw1. apply andb_prop in Hw1. destruct Hw1 as [Hc Hw1].
    rewrite append_cons. cbn [jsonMatch].
    rewrite (proj1 (isWs_not_brace c Hc)). now apply IH.
Qed.

(** C1, as the code has it.  A valid JSON text whose value is an object and
    which holds no fenced code block: [extractJSON] returns what
    [JSON.parse] returns for the text, at the first attempt, without the
    repair pass. *)
Theorem extractJSON_returns_valid_object
    (s : string) (members : list (JS.ustring * json)) :
  JSON_parse s = Some (JObj members) ->
  codeBlockMatch s = None ->
  extractJSON s = Extraction (inr (JObj members)) false None.
Proof.
  unfold JSON_parse, lex. intros Hparse Hfence.
  destruct (lexFrom LIdle s) as [toks |] eqn:Hlex; [| discriminate].
  destruct (parse_object_tokens toks members Hparse) as (mid & ->).
  destruct (lex_first_brace s _ Hlex) as (w1 & s' & -> & Hw1 & Hs').
  destruct (lex_last_brace s' LIdle mid Hs') as (body & w2 & -> & Hw2).
  assert (Hcand : candidate (w1 ++ String "{" (body ++ String "}" w2))
                  = Some (String "{" (body ++ String "}" EmptyString))).
  { unfold candidate. rewrite Hfence. now apply jsonMatch_object. }
  assert (Hsame : lexFrom LIdle (String "{" (body ++ String "}" EmptyString))
                  = Some (TLBrace :: (mid ++ [TRBrace])%list)).
  { rewrite lexFrom_cons.
    change (lexStep LIdle "{") with (Some (LIdle, [TLBrace])). cbv beta iota.
    now rewrite (lexFrom_trailing_ws body w2 LIdle _ Hw2 Hs'). }
  unfold extractJSON. rewrite Hcand.
  cbn [JS.truthy String.eqb negb].
  unfold JSON_parse, lex. rewrite Hsame. now rewrite Hparse.
Qed.

(** C1 as stated fails: the text [[1,2]] is valid JSON, and [extractJSON]
    throws for it instead of returning the array. *)
Lemma extractJSON_rejects_valid_array :
  ~ (forall (s : string) (v : json),
       JSON_parse s = Some v ->
       result (extractJSON s) = inr v /\ repairAttempted (extractJSON s) = false).
Proof.
  intros Hclaim.
  destruct (Hclaim "[1,2]" (JArr [JNum "1"; JNum "2"]) eq_refl) as [Hres _].
  vm_compute in Hres. discriminate Hres.
Qed.

(** The other texts that the claim as stated does not hold for: a fenced
    block inside a string of a valid object is taken for the reply. *)
Example extractJSON_reads_fence_inside_string :
  JSON_parse (JS.fixture "{'a':'```1```'}") = Some (obj [("a", str "```1```")]) /\
  extractJSON (JS.fixture "{'a':'```1```'}") = Extraction (inr (JNum "1")) false None.
Proof. vm_compute. split; reflexivity. Qed.

End ExtractFacts.

Lemma extractJSON_returns_valid_object_witness :
  Repair.extractJSON (JS.fixture " {'company': {'name': 'Acme'}, 'slides': []}
")
  = Repair.Extraction
      (inr (Json.obj [("company", Json.obj [("name", Json.str "Acme")]);
                      ("slides", Json.JArr [])]))
      false None.
Proof.
  apply (extractJSON_returns_valid_object
           (JS.fixture " {'company': {'name': 'Acme'}, 'slides': []}
")).
  - vm_compute. reflexivity.
  - vm_compute. reflexivity.
Defined.

(** ** The repair pass on truncated documents *)

Section RunFacts.

Import Json Repair.

(** The scanner after a text, with the tokens completed so far. *)
Fixpoint lexRun (st : lexState) (s : string) : option (lexState * list token) :=
  match s with
  | EmptyString => Some (st, [])
  | String c s' =>
      match lexStep st c with
      | Some (st', toks) =>
          match lexRun st' s' with
          | Some (st'', more) => Some (st'', (toks ++ more)%list)
          | None => None
          end
      | None => None
      end
  end.

(** The parser after a list of tokens. *)
Fixpoint parseRun (st : parseState) (toks : list token) : option parseState :=
  match toks with
  | [] => Some st
  | t :: toks' =>
      match parseStep st t with
      | Some st' => parseRun st' toks'
      | None => None
      end
  end.

Lemma lexFrom_lexRun (s : string) (st : lexState) :
  lexFrom st s
  = match lexRun st s with
    | Some (st', toks) => option_map (app toks) (lexEnd st')
    | None => None
    end.
Proof.
  revert st. induction s as [| c s IH]; intros st.
  - cbn. now destruct (lexEnd st).
  - cbn [lexFrom lexRun]. destruct (lexStep st c) as [[st' em] |]; [| reflexivity].
    rewrite IH. destruct (lexRun st' s) as [[st'' more] |]; [| reflexivity].
    destruct (lexEnd st'') as [tail |]; cbn; [| reflexivity].
    now rewrite app_assoc.
Qed.

Lemma lexFrom_app (s r : string) (st : lexState) :
  lexFrom st (s ++ r)
  = match lexRun st s with
    | Some (st', toks) => option_map (app toks) (lexFrom st' r)
    | None => None
    end.
Proof.
  revert st. induction s as [| c s IH]; intros st.
  - change (lexFrom st r = option_map (app []) (lexFrom st r)).
    now destruct (lexFrom st r).
  - rewrite append_cons. cbn [lexFrom lexRun].
    destruct (lexStep st c) as [[st' em] |]; [| reflexivity].
    rewrite IH. destruct (lexRun st' s) as [[st'' more] |]; [| reflexivity].
    destruct (lexFrom st'' r) as [tail |]; cbn; [| reflexivity].
    now rewrite app_assoc.
Qed.

Lemma parseRun_app (toks1 toks2 : list token) (st : parseState) :
  parseRun st (toks1 ++ toks2)
  = match parseRun st toks1 with
    | Some st' => parseRun st' toks2
    | None => None
    end.
Proof.
  revert st. induction toks1 as [| t toks1 IH]; intros st; [reflexivity |].
  cbn. destruct (parseStep st t); [apply IH | reflexivity].
Qed.

Lemma parseFrom_parseRun (toks : list token) (st : parseState) :
  parseFrom st toks
  = match parseRun st toks with
    | Some (SEnd v) => Some v
    | _ => None
    end.
Proof.
  revert st. induction toks as [| t toks IH]; intros st.
  - now destruct st.
  - cbn. destruct (parseStep st t); [apply IH | reflexivity].
Qed.

(** The closers that the open containers of a parser state still need,
    the innermost first. *)
Definition closerChar (c : context) : ascii :=
  if ctxIsObject c then "}"%char else "]"%char.

Definition openClosers (st : parseState) : list ascii :=
  match st with
  | SValue stk => map closerChar stk
  | SArrOpen stk | SArrSep stk _ => "]"%char :: map closerChar stk
  | SObjOpen stk | SKey stk _ | SColon stk _ _ | SObjSep stk _ =>
      "}"%char :: map closerChar stk
  | SEnd _ => []
  end.

Lemma deliver_closers (stk : list context) (v : json) :
  openClosers (deliver stk v) = map closerChar stk.
Proof. destruct stk as [| [es | ms k] stk]; reflexivity. Qed.

(** What a token does to the closers owed. *)
Lemma parseStep_closers (st st' : parseState) (t : token) :
  parseStep st t = Some st' ->
  match t with
  | TLBrace => openClosers st' = "}"%char :: openClosers st
  | TLBracket => openClosers st' = "]"%char :: openClosers st
  | TRBrace => openClosers st = "}"%char :: openClosers st'
  | TRBracket => openClosers st = "]"%char :: openClosers st'
  | _ => openClosers st' = openClosers st
  end.
Proof.
  destruct st as [stk | stk | stk | stk ms | stk ms k | stk es | stk ms | v];
    destruct t; cbn [parseStep valueStep]; try discriminate;
    intros [= <-]; rewrite ?deliver_closers; reflexivity.
Qed.


(** Whether the scanner of [closeOpenBrackets] is inside a string, and
    whether it is about to skip a character, when the JSON scanner is in a
    given state. *)
Definition inStr (st : lexState) : bool :=
  match st with
  | LStr _ | LEsc _ | LHex _ _ => true
  | _ => false
  end.

Definition escaping (st : lexState) : bool :=
  match st with
  | LEsc _ => true
  | _ => false
  end.

(** A character that means nothing to the bracket scanner outside a
    string. *)
Definition plain (c : ascii) : Prop :=
  Ascii.eqb c JS.backslash = false /\ Ascii.eqb c JS.dquote = false /\
  Ascii.eqb c "{" = false /\ Ascii.eqb c "[" = false /\
  Ascii.eqb c "}" = false /\ Ascii.eqb c "]" = false.

Lemma scanStep_plain (stk : list ascii) (c : ascii) :
  plain c -> scanStep (ScanState stk false false) c = ScanState stk false false.
Proof.
  intros (H1 & H2 & H3 & H4 & H5 & H6). unfold scanStep. cbn.
  now rewrite H1, H2, H3, H4, H5, H6.
Qed.

Lemma scanStep_in_string (stk : list ascii) (c : ascii) :
  Ascii.eqb c JS.backslash = false -> Ascii.eqb c JS.dquote = false ->
  scanStep (ScanState stk true false) c = ScanState stk true false.
Proof. intros H1 H2. unfold scanStep. cbn. now rewrite H1, H2. Qed.

Lemma scanStep_skip (stk : list ascii) (i : bool) (c : ascii) :
  scanStep (ScanState stk i true) c = ScanState stk i false.
Proof. reflexivity. Qed.

Ltac each_char c :=
  destruct c as [[] [] [] [] [] [] [] []].

Lemma isWs_plain (c : ascii) : isWs c = true -> plain c.
Proof. each_char c; cbn; intros H; try discriminate H; repeat split. Qed.

Lemma isDigit_plain (c : ascii) : isDigit c = true -> plain c.
Proof. each_char c; cbn; intros H; try discriminate H; repeat split. Qed.

Lemma numStep_plain (ns ns' : numState) (c : ascii) :
  numStep ns c = Some ns' -> plain c.
Proof.
  destruct ns; each_char c; cbn; intros H; try discriminate H; repeat split.
Qed.

(** One character read between tokens: the bracket scanner follows the
    parser. *)
Lemma idle_simulation (c : ascii) (lst : lexState) (em : list token)
      (pst pst' : parseState) :
  idleStep c = Some (lst, em) ->
  parseRun pst em = Some pst' ->
  scanStep (ScanState (openClosers pst) false false) c
  = ScanState (openClosers pst') (inStr lst) (escaping lst).
Proof.
  unfold idleStep.
  destruct (isWs c) eqn:Hws.
  { intros [= <- <-] [= <-]. now apply scanStep_plain, isWs_plain. }
  destruct (Ascii.eqb c "{") eqn:H1.
  { apply Ascii.eqb_eq in H1. subst c. intros [= <- <-]. cbn [parseRun].
    destruct (parseStep pst TLBrace) as [st1 |] eqn:Hs; [| discriminate].
    intros [= <-]. apply parseStep_closers in Hs. now rewrite Hs. }
  destruct (Ascii.eqb c "}") eqn:H2.
  { apply Ascii.eqb_eq in H2. subst c. intros [= <- <-]. cbn [parseRun].
    destruct (parseStep pst TRBrace) as [st1 |] eqn:Hs; [| discriminate].
    intros [= <-]. apply parseStep_closers in Hs. now rewrite Hs. }
  destruct (Ascii.eqb c "[") eqn:H3.
  { apply Ascii.eqb_eq in H3. subst c. intros [= <- <-]. cbn [parseRun].
    destruct (parseStep pst TLBracket) as [st1 |] eqn:Hs; [| discriminate].
    intros [= <-]. apply parseStep_closers in Hs. now rewrite Hs. }
  destruct (Ascii.eqb c "]") eqn:H4.
  { apply Ascii.eqb_eq in H4. subst c. intros [= <- <-]. cbn [parseRun].
    destruct (parseStep pst TRBracket) as [st1 |] eqn:Hs; [| discriminate].
    intros [= <-]. apply parseStep_closers in Hs. now rewrite Hs. }
  destruct (Ascii.eqb c ":") eqn:H5.
  { apply Ascii.eqb_eq in H5. subst c. intros [= <- <-]. cbn [parseRun].
    destruct (parseStep pst TColon) as [st1 |] eqn:Hs; [| discriminate].
    intros [= <-]. apply parseStep_closers in Hs. now rewrite Hs. }
  destruct (Ascii.eqb c ",") eqn:H6.
  { apply Ascii.eqb_eq in H6. subst c. intros [= <- <-]. cbn [parseRun].
    destruct (parseStep pst TComma) as [st1 |] eqn:Hs; [| discriminate].
    intros [= <-]. apply parseStep_closers in Hs. now rewrite Hs. }
  destruct (Ascii.eqb c JS.dquote) eqn:H7.
  { apply Ascii.eqb_eq in H7. subst c. now intros [= <- <-] [= <-]. }
  destruct (Ascii.eqb c "t") eqn:H8.
  { apply Ascii.eqb_eq in H8. subst c. now intros [= <- <-] [= <-]. }
  destruct (Ascii.eqb c "f") eqn:H9.
  { apply Ascii.eqb_eq in H9. subst c. now intros [= <- <-] [= <-]. }
  destruct (Ascii.eqb c "n") eqn:H10.
  { apply Ascii.eqb_eq in H10. subst c. now intros [= <- <-] [= <-]. }
  destruct (Ascii.eqb c "-") eqn:H11.
  { apply Ascii.eqb_eq in H11. subst c. now intros [= <- <-] [= <-]. }
  destruct (Ascii.eqb c "0") eqn:H12.
  { apply Ascii.eqb_eq in H12. subst c. now intros [= <- <-] [= <-]. }
  destruct (isDigit c) eqn:H13; [| discriminate].
  intros [= <- <-] [= <-]. now apply scanStep_plain, isDigit_plain.
Qed.


Lemma hexValue_in_string (c : ascii) (d : N) :
  hexValue c = Some d ->
  Ascii.eqb c JS.backslash = false /\ Ascii.eqb c JS.dquote = false.
Proof. each_char c; cbn; intros H; try discriminate H; now split. Qed.

Lemma literal_char_plain (l : literal) (seen : nat) (a : ascii) :
  String.get seen (literalText l) = Some a -> plain a.
Proof.
  destruct l, seen as [| [| [| [| [| seen]]]]]; cbn; intros [= <-];
    repeat split.
Qed.

(** One character of a text that the grammar accepts: the bracket scanner
    of [closeOpenBrackets] moves in step with the JSON scanner and the
    parser. *)
Lemma step_simulation (lst lst' : lexState) (c : ascii) (em : list token)
      (pst pst' : parseState) :
  lexStep lst c = Some (lst', em) ->
  parseRun pst em = Some pst' ->
  scanStep (ScanState (openClosers pst) (inStr lst) (escaping lst)) c
  = ScanState (openClosers pst') (inStr lst') (escaping lst').
Proof.
  destruct lst as [| acc | acc | acc ds | l seen | ns acc];
    cbn [lexStep inStr escaping].
  - apply idle_simulation.
  - destruct (Ascii.eqb c JS.dquote) eqn:Hdq.
    { apply Ascii.eqb_eq in Hdq. subst c. intros [= <- <-]. cbn [parseRun].
      destruct (parseStep pst (TStr acc)) as [st1 |] eqn:Hs; [| discriminate].
      intros [= <-]. apply parseStep_closers in Hs. now rewrite Hs. }
    destruct (Ascii.eqb c JS.backslash) eqn:Hbs.
    { apply Ascii.eqb_eq in Hbs. subst c. now intros [= <- <-] [= <-]. }
    destruct (JS.charCode c <? 32)%N; [discriminate |].
    intros [= <- <-] [= <-]. now apply scanStep_in_string.
  - rewrite scanStep_skip.
    destruct (Ascii.eqb c "u"); [now intros [= <- <-] [= <-] |].
    destruct (unescape c); [| discriminate].
    now intros [= <- <-] [= <-].
  - destruct (hexValue c) as [d |] eqn:Hhex; [| discriminate].
    destruct (hexValue_in_string c d Hhex) as [Hbs Hdq].
    rewrite (scanStep_in_string _ c Hbs Hdq).
    destruct ds as [| d1 [| d2 [| d3 [| d4 ds]]]];
      try (now intros [= <- <-] [= <-]).
  - destruct (String.get seen (literalText l)) as [a |] eqn:Hget; [| discriminate].
    destruct (Ascii.eqb c a) eqn:Hc; [| discriminate].
    apply Ascii.eqb_eq in Hc. subst a.
    rewrite (scanStep_plain _ c (literal_char_plain l seen c Hget)).
    destruct (S seen =? String.length (literalText l))%nat.
    + intros [= <- <-]. cbn [parseRun].
      destruct (parseStep pst (TLit l)) as [st1 |] eqn:Hs; [| discriminate].
      intros [= <-]. apply parseStep_closers in Hs. now rewrite Hs.
    + now intros [= <- <-] [= <-].
  - destruct (numStep ns c) as [ns' |] eqn:Hnum.
    { intros [= <- <-] [= <-]. apply scanStep_plain.
      exact (numStep_plain ns ns' c Hnum). }
    destruct (numAccepting ns); [| discriminate].
    destruct (idleStep c) as [[st1 toks1] |] eqn:Hidle; [| discriminate].
    intros [= <- <-]. cbn [parseRun].
    destruct (parseStep pst (TNum acc)) as [pmid |] eqn:Hs; [| discriminate].
    intros Hrun. apply parseStep_closers in Hs. rewrite <- Hs.
    exact (idle_simulation c st1 toks1 pmid pst' Hidle Hrun).
Qed.

Lemma run_simulation (p : string) (lst lst' : lexState) (toks : list token)
      (pst pst' : parseState) :
  lexRun lst p = Some (lst', toks) ->
  parseRun pst toks = Some pst' ->
  scan p (ScanState (openClosers pst) (inStr lst) (escaping lst))
  = ScanState (openClosers pst') (inStr lst') (escaping lst').
Proof.
  revert lst pst toks. induction p as [| c p IH]; intros lst pst toks.
  - now intros [= <- <-] [= <-].
  - cbn [lexRun scan].
    destruct (lexStep lst c) as [[lst1 em] |] eqn:Hstep; [| discriminate].
    destruct (lexRun lst1 p) as [[lst2 more] |] eqn:Hrun; [| discriminate].
    intros [= <- <-]. rewrite parseRun_app.
    destruct (parseRun pst em) as [pmid |] eqn:Hem; [| discriminate].
    intros Hmore.
    rewrite (step_simulation lst lst1 c em pst pmid Hstep Hem).
    exact (IH lst1 pmid more Hrun Hmore).
Qed.


Lemma printable_not_control (c : ascii) :
  (JS.charCode c <? 32)%N = false ->
  Ascii.eqb c JS.LF = false /\ Ascii.eqb c JS.CR = false /\
  Ascii.eqb c JS.TAB = false.
Proof. each_char c; cbn; intros H; try discriminate H; repeat split. Qed.

Lemma hexValue_printable (c : ascii) (d : N) :
  hexValue c = Some d -> (JS.charCode c <? 32)%N = false.
Proof. each_char c; cbn; intros H; try discriminate H; reflexivity. Qed.

(** A character that the JSON scanner accepts inside a string literal is
    not one that [fixStringEscaping] rewrites. *)
Lemma lexStep_in_string_printable (lst lst' : lexState) (c : ascii)
      (em : list token) :
  lexStep lst c = Some (lst', em) ->
  inStr lst = true -> escaping lst = false ->
  (JS.charCode c <? 32)%N = false.
Proof.
  destruct lst as [| acc | acc | acc ds | l seen | ns acc];
    cbn [lexStep inStr escaping]; try discriminate.
  - intros Hstep _ _. revert Hstep.
    destruct (Ascii.eqb c JS.dquote) eqn:Hdq.
    { apply Ascii.eqb_eq in Hdq. now subst c. }
    destruct (Ascii.eqb c JS.backslash) eqn:Hbs.
    { apply Ascii.eqb_eq in Hbs. now subst c. }
    now destruct (JS.charCode c <? 32)%N.
  - intros Hstep _ _. revert Hstep.
    destruct (hexValue c) as [d |] eqn:Hhex; [| discriminate].
    intros _. exact (hexValue_printable c d Hhex).
Qed.

(** [fixStringEscaping] copies a character of an accepted text, and keeps
    track of strings and escapes as the bracket scanner does. *)
Lemma fixEscaping_step (lst lst' : lexState) (c : ascii) (em : list token)
      (p : string) (stk : list ascii) :
  lexStep lst c = Some (lst', em) ->
  fixEscapingFrom (String c p) (inStr lst) (escaping lst)
  = String c
      (fixEscapingFrom p
         (inString (scanStep (ScanState stk (inStr lst) (escaping lst)) c))
         (escapeNext (scanStep (ScanState stk (inStr lst) (escaping lst)) c))).
Proof.
  intros Hstep. cbn [fixEscapingFrom]. unfold scanStep.
  cbn [stack inString escapeNext].
  destruct (escaping lst) eqn:Hesc; [reflexivity |].
  destruct (Ascii.eqb c JS.backslash); [reflexivity |].
  destruct (Ascii.eqb c JS.dquote); [reflexivity |].
  destruct (inStr lst) eqn:Hin; cbn [negb].
  - pose proof (lexStep_in_string_printable lst lst' c em Hstep Hin Hesc) as Hc.
    destruct (printable_not_control c Hc) as (H1 & H2 & H3).
    now rewrite H1, H2, H3, Hc.
  - destruct (Ascii.eqb c "{"); [reflexivity |].
    destruct (Ascii.eqb c "["); [reflexivity |].
    destruct (Ascii.eqb c "}" || Ascii.eqb c "]"); [| reflexivity].
    destruct stk as [| top below]; [reflexivity |].
    now destruct (Ascii.eqb top c).
Qed.

(** [fixStringEscaping] leaves a text that the grammar accepts as it is. *)
Lemma fixEscaping_accepted (p : string) (lst lst' : lexState)
      (toks : list token) (pst pst' : parseState) :
  lexRun lst p = Some (lst', toks) ->
  parseRun pst toks = Some pst' ->
  fixEscapingFrom p (inStr lst) (escaping lst) = p.
Proof.
  revert lst pst toks. induction p as [| c p IH]; intros lst pst toks;
    [reflexivity |].
  cbn [lexRun].
  destruct (lexStep lst c) as [[lst1 em] |] eqn:Hstep; [| discriminate].
  destruct (lexRun lst1 p) as [[lst2 more] |] eqn:Hrun; [| discriminate].
  intros [= <- <-]. rewrite parseRun_app.
  destruct (parseRun pst em) as [pmid |] eqn:Hem; [| discriminate].
  intros Hmore.
  rewrite (fixEscaping_step lst lst1 c em p (openClosers pst) Hstep).
  rewrite (step_simulation lst lst1 c em pst pmid Hstep Hem).
  cbn [inString escapeNext]. f_equal.
  exact (IH lst1 pmid more Hrun Hmore).
Qed.


(** *** The comma passes on a text without their patterns *)

(** A pattern matches at no position of a text. *)
Fixpoint nowhere (m : string -> option (string * string)) (s : string) : bool :=
  match m s with
  | Some _ => false
  | None =>
      match s with
      | EmptyString => true
      | String _ s' => nowhere m s'
      end
  end.

(** None of the patterns of steps 1 to 7 occurs in the text. *)
Definition quiet (s : string) : bool :=
  nowhere trailingComma s && nowhere missingComma s
  && nowhere (commaBetween "}" "{") s && nowhere (commaBetween "]" "[") s
  && nowhere (commaBetween "]" "{") s && nowhere (commaBetween "}" "[") s
  && nowhere doubleComma s.

Lemma replaceAll_nowhere (m : string -> option (string * string))
      (fuel : nat) (s : string) :
  nowhere m s = true -> replaceAll m fuel s = s.
Proof.
  revert s. induction fuel as [| fuel IH]; intros s Hs; [reflexivity |].
  cbn [replaceAll]. destruct s as [| c s]; cbn [nowhere] in Hs.
  - now destruct (m EmptyString).
  - destruct (m (String c s)); [discriminate Hs |]. now rewrite IH.
Qed.

Lemma commaPasses_quiet (s : string) : quiet s = true -> commaPasses s = s.
Proof.
  unfold quiet, commaPasses, replace. intros H.
  apply andb_prop in H. destruct H as [H H7].
  apply andb_prop in H. destruct H as [H H6].
  apply andb_prop in H. destruct H as [H H5].
  apply andb_prop in H. destruct H as [H H4].
  apply andb_prop in H. destruct H as [H H3].
  apply andb_prop in H. destruct H as [H1 H2].
  cbv zeta.
  rewrite (replaceAll_nowhere trailingComma _ s H1).
  rewrite (replaceAll_nowhere missingComma _ s H2).
  rewrite (replaceAll_nowhere _ _ s H3).
  rewrite (replaceAll_nowhere _ _ s H4).
  rewrite (replaceAll_nowhere _ _ s H5).
  rewrite (replaceAll_nowhere _ _ s H6).
  exact (replaceAll_nowhere _ _ s H7).
Qed.

(** *** Closing the open containers *)

(** A value put into the containers around it, each closed in turn. *)
Fixpoint plug (stk : list context) (v : json) : json :=
  match stk with
  | [] => v
  | CArr elems :: stk' => plug stk' (JArr (elems ++ [v]))
  | CObj members key :: stk' => plug stk' (JObj (setProp members key v))
  end.

(** The document that a parser state stands for once every open container
    is closed, where the grammar allows a closer. *)
Definition closeAll (st : parseState) : option json :=
  match st with
  | SArrOpen stk => Some (plug stk (JArr []))
  | SArrSep stk elems => Some (plug stk (JArr elems))
  | SObjOpen stk => Some (plug stk (JObj []))
  | SObjSep stk members => Some (plug stk (JObj members))
  | _ => None
  end.

Definition closerToken' (c : ascii) : token :=
  if Ascii.eqb c "}" then TRBrace else TRBracket.

Lemma parseRun_plug (stk : list context) (v : json) :
  parseRun (deliver stk v) (map closerToken' (map closerChar stk))
  = Some (SEnd (plug stk v)).
Proof.
  revert v. induction stk as [| [es | ms k] stk IH]; intros v.
  - reflexivity.
  - apply (IH (JArr (es ++ [v]))).
  - apply (IH (JObj (setProp ms k v))).
Qed.

(** The closers owed are accepted and complete the document. *)
Lemma parseRun_closers (st : parseState) (v : json) :
  closeAll st = Some v ->
  parseRun st (map closerToken' (openClosers st)) = Some (SEnd v).
Proof.
  destruct st as [stk | stk | stk | stk ms | stk ms k | stk es | stk ms | v0];
    cbn [closeAll]; try discriminate; intros [= <-]; apply parseRun_plug.
Qed.

Definition isCloser (c : ascii) : bool := Ascii.eqb c "}" || Ascii.eqb c "]".

Lemma lexStep_idle_closer (c : ascii) :
  isCloser c = true -> idleStep c = Some (LIdle, [closerToken' c]).
Proof.
  unfold isCloser. intros H. apply orb_prop in H.
  destruct H as [H | H]; apply Ascii.eqb_eq in H; now subst c.
Qed.

Lemma lex_closers (cs : list ascii) :
  forallb isCloser cs = true ->
  lexFrom LIdle (string_of_list_ascii cs) = Some (map closerToken' cs).
Proof.
  induction cs as [| c cs IH]; [reflexivity |].
  cbn [forallb]. intros H. apply andb_prop in H. destruct H as [Hc Hcs].
  cbn [string_of_list_ascii map]. rewrite lexFrom_cons. cbn [lexStep].
  rewrite (lexStep_idle_closer c Hc), (IH Hcs). reflexivity.
Qed.

(** A closer ends a number, if one is being read, and is then read as
    between tokens. *)
Lemma lexFrom_closer (lst : lexState) (tail : list token) (c : ascii)
      (r : string) :
  lexEnd lst = Some tail ->
  isCloser c = true ->
  lexFrom lst (String c r)
  = option_map (app tail) (lexFrom LIdle (String c r)).
Proof.
  intros Hend Hc. rewrite !lexFrom_cons.
  destruct lst as [| acc | acc | acc ds | l seen | ns acc]; try discriminate Hend.
  - injection Hend as <-. cbn [lexStep].
    rewrite (lexStep_idle_closer c Hc). now destruct (lexFrom LIdle r).
  - cbn [lexEnd] in Hend. cbn [lexStep].
    destruct (numAccepting ns); [| discriminate Hend]. injection Hend as <-.
    replace (numStep ns c) with (@None numState).
    + rewrite (lexStep_idle_closer c Hc). now destruct (lexFrom LIdle r).
    + unfold isCloser in Hc. apply orb_prop in Hc.
      destruct Hc as [H | H]; apply Ascii.eqb_eq in H; subst c; now destruct ns.
Qed.

Lemma openClosers_closers (st : parseState) :
  forallb isCloser (openClosers st) = true.
Proof.
  assert (H : forall stk, forallb isCloser (map closerChar stk) = true).
  { induction stk as [| [es | ms k] stk IH]; cbn; auto. }
  destruct st; cbn [openClosers forallb]; rewrite ?H; reflexivity.
Qed.


Lemma lexEnd_outside (lst : lexState) (tail : list token) :
  lexEnd lst = Some tail ->
  inStr lst = false /\ escaping lst = false /\
  (tail = [] \/ exists l, tail = [TNum l]).
Proof.
  destruct lst as [| | | | | ns acc]; cbn; try discriminate.
  - intros [= <-]. auto.
  - destruct (numAccepting ns); [| discriminate]. intros [= <-]. eauto.
Qed.

Lemma closeAll_closers (st : parseState) (v : json) :
  closeAll st = Some v ->
  exists c cs, openClosers st = c :: cs /\ isCloser c = true.
Proof.
  destruct st; cbn; try discriminate; intros _; eexists _, _;
    split; reflexivity.
Qed.

(** What the last two steps of the repair pass do to an accepted text
    that is cut where the grammar allows a closer: the escaping step leaves
    it as it is, the closing step appends the closers owed, and the result
    parses to the document with its open containers closed. *)
Lemma closing_steps_close (q : string) (toks : list token) (st : parseState)
      (v : json) :
  lex q = Some toks ->
  parseRun (SValue []) toks = Some st ->
  closeAll st = Some v ->
  closeOpenBrackets (fixStringEscaping q)
  = q ++ string_of_list_ascii (openClosers st) /\
  JSON_parse (closeOpenBrackets (fixStringEscaping q)) = Some v.
Proof.
  unfold lex. rewrite lexFrom_lexRun.
  destruct (lexRun LIdle q) as [[lst toks0] |] eqn:Hrun; [| discriminate].
  destruct (lexEnd lst) as [tail |] eqn:Hend; [| discriminate].
  intros [= <-]. rewrite parseRun_app.
  destruct (parseRun (SValue []) toks0) as [pst0 |] eqn:Hp0; [| discriminate].
  intros Htail Hclose.
  destruct (lexEnd_outside lst tail Hend) as (Hin & Hesc & Htl).
  assert (Hsame : openClosers st = openClosers pst0).
  { destruct Htl as [-> | [l ->]].
    - now injection Htail as <-.
    - cbn [parseRun] in Htail.
      destruct (parseStep pst0 (TNum l)) as [st1 |] eqn:Hs; [| discriminate].
      injection Htail as <-. exact (parseStep_closers _ _ _ Hs). }
  assert (Hscan : scan q scanStart = ScanState (openClosers st) false false).
  { pose proof (run_simulation q LIdle lst toks0 (SValue []) pst0 Hrun Hp0)
      as Hsim.
    rewrite Hin, Hesc in Hsim. rewrite Hsame. exact Hsim. }
  assert (Hrepair : closeOpenBrackets (fixStringEscaping q)
                    = q ++ string_of_list_ascii (openClosers st)).
  { unfold fixStringEscaping.
    change (fixEscapingFrom q false false)
      with (fixEscapingFrom q (inStr LIdle) (escaping LIdle)).
    rewrite (fixEscaping_accepted q LIdle lst toks0 (SValue []) pst0 Hrun Hp0).
    unfold closeOpenBrackets, closers. now rewrite Hscan. }
  split; [exact Hrepair |].
  rewrite Hrepair. unfold JSON_parse, lex. rewrite lexFrom_app, Hrun.
  destruct (closeAll_closers st v Hclose) as (c & cs & Hcs & Hc).
  pose proof (lex_closers _ (openClosers_closers st)) as Hlex.
  rewrite Hcs in *. cbn [string_of_list_ascii] in *.
  rewrite (lexFrom_closer lst tail c _ Hend Hc), Hlex.
  cbn [option_map]. rewrite parseFrom_parseRun, parseRun_app, Hp0.
  rewrite parseRun_app, Htail.
  rewrite <- Hcs. now rewrite (parseRun_closers st v Hclose).
Qed.


(** *** The keys of the closed document *)

(** Every key of every object of a document. *)
Fixpoint keysOf (v : json) : list JS.ustring :=
  match v with
  | JArr l => flat_map keysOf l
  | JObj m => flat_map (fun kv => fst kv :: keysOf (snd kv)) m
  | _ => []
  end.

Definition memberKeys (m : list (JS.ustring * json)) : list JS.ustring :=
  flat_map (fun kv => fst kv :: keysOf (snd kv)) m.

Definition contextKeys (c : context) : list JS.ustring :=
  match c with
  | CArr elems => flat_map keysOf elems
  | CObj members key => key :: memberKeys members
  end.

(** The keys a parser state holds. *)
Definition stateKeys (st : parseState) : list JS.ustring :=
  match st with
  | SValue stk | SArrOpen stk | SObjOpen stk => flat_map contextKeys stk
  | SKey stk ms | SObjSep stk ms => memberKeys ms ++ flat_map contextKeys stk
  | SColon stk ms k => k :: memberKeys ms ++ flat_map contextKeys stk
  | SArrSep stk es => flat_map keysOf es ++ flat_map contextKeys stk
  | SEnd v => keysOf v
  end.

(** The strings of a list of tokens that stand where a key stands: right
    before a colon. *)
Fixpoint keyStrings (toks : list token) : list JS.ustring :=
  match toks with
  | [] => []
  | t :: rest =>
      match t, rest with
      | TStr k, TColon :: _ => k :: keyStrings rest
      | _, _ => keyStrings rest
      end
  end.

Lemma setProp_keys (ms : list (JS.ustring * json)) (k : JS.ustring) (v : json)
      (x : JS.ustring) :
  In x (memberKeys (setProp ms k v)) ->
  x = k \/ In x (keysOf v) \/ In x (memberKeys ms).
Proof.
  induction ms as [| [k' v'] ms IH]; cbn [setProp memberKeys flat_map fst snd].
  - rewrite app_nil_r. intros [<- | H]; auto.
  - destruct (bool_decide (k' = k)) eqn:Hk; cbn [flat_map fst snd].
    + apply bool_decide_eq_true in Hk. subst k'.
      intros [<- | H]; [auto |]. apply in_app_or in H.
      destruct H as [H | H]; [auto |].
      right; right; right. apply in_or_app. now right.
    + intros [<- | H]; [right; right; now left |].
      apply in_app_or in H. destruct H as [H | H].
      * right; right; right. apply in_or_app. now left.
      * destruct (IH H) as [-> | [H' | H']]; [auto | auto |].
        right; right; right. apply in_or_app. now right.
Qed.

Lemma deliver_keys (stk : list context) (v : json) (x : JS.ustring) :
  In x (stateKeys (deliver stk v)) ->
  In x (keysOf v) \/ In x (flat_map contextKeys stk).
Proof.
  destruct stk as [| [es | ms k] stk]; cbn [deliver stateKeys flat_map contextKeys].
  - auto.
  - rewrite flat_map_app. cbn [flat_map]. rewrite app_nil_r.
    intros H. apply in_app_or in H. destruct H as [H | H].
    + apply in_app_or in H. destruct H as [H | H]; [| auto].
      right. apply in_or_app. now left.
    + right. apply in_or_app. now right.
  - intros H. apply in_app_or in H. destruct H as [H | H].
    + destruct (setProp_keys ms k v x H) as [-> | [H' | H']].
      * right. now left.
      * now left.
      * right. right. apply in_or_app. now left.
    + right. right. apply in_or_app. now right.
Qed.

Lemma valueStep_keys (stk : list context) (t : token) (st' : parseState)
      (x : JS.ustring) :
  valueStep stk t = Some st' ->
  In x (stateKeys st') ->
  In x (flat_map contextKeys stk).
Proof.
  destruct t; cbn [valueStep]; try discriminate; intros [= <-]; try (now auto);
    intros H; apply deliver_keys in H; destruct H as [H | H]; auto;
    try (now destruct H); now destruct l.
Qed.

(** A token adds a key to the keys held only where a key is expected, and
    the parser then waits for the colon. *)
Lemma parseStep_keys (st st' : parseState) (t : token) (x : JS.ustring) :
  parseStep st t = Some st' ->
  In x (stateKeys st') ->
  In x (stateKeys st) \/
  (t = TStr x /\ exists stk ms, st' = SColon stk ms x).
Proof.
  destruct st as [stk | stk | stk | stk ms | stk ms k | stk es | stk ms | v];
    cbn [parseStep stateKeys].
  - intros Hs H. left. exact (valueStep_keys stk t st' x Hs H).
  - destruct t; try (intros Hs H; left;
                     exact (valueStep_keys (CArr [] :: stk) _ st' x Hs H)).
    intros [= <-] H. apply deliver_keys in H. destruct H as [[] | H]; auto.
  - destruct t; try discriminate.
    + intros [= <-] H. apply deliver_keys in H. destruct H as [[] | H]; auto.
    + intros [= <-]. cbn [stateKeys memberKeys flat_map app].
      intros [<- | H]; [right; split; [reflexivity | now eexists _, _] | auto].
  - destruct t; try discriminate. intros [= <-].
    cbn [stateKeys]. intros [<- | H];
      [right; split; [reflexivity | now eexists _, _] | auto].
  - destruct t; try discriminate. intros [= <-].
    cbn [stateKeys flat_map contextKeys]. intros H. left.
    destruct H as [<- | H]; [now left |]. right.
    apply in_app_or in H. apply in_or_app. tauto.
  - destruct t; try discriminate.
    + intros [= <-] H. apply deliver_keys in H. left. apply in_or_app.
      cbn [keysOf] in H. tauto.
    + intros [= <-]. cbn [stateKeys flat_map contextKeys]. auto.
  - destruct t; try discriminate.
    + intros [= <-] H. apply deliver_keys in H. left. apply in_or_app.
      cbn [keysOf] in H. tauto.
    + intros [= <-]. cbn [stateKeys]. auto.
  - discriminate.
Qed.

Lemma keyStrings_cons (t : token) (toks : list token) (x : JS.ustring) :
  In x (keyStrings toks) -> In x (keyStrings (t :: toks)).
Proof.
  cbn [keyStrings]. intros H.
  destruct t; try exact H. destruct toks as [| [] toks]; try exact H.
  now right.
Qed.

(** The keys held after a run are keys held before it or strings that stood
    before a colon, the pending key apart. *)
Lemma parseRun_keys (toks : list token) (st st' : parseState) (x : JS.ustring) :
  parseRun st toks = Some st' ->
  In x (stateKeys st') ->
  (exists stk ms, st' = SColon stk ms x) \/
  In x (keyStrings toks) \/ In x (stateKeys st).
Proof.
  revert st. induction toks as [| t toks IH]; intros st.
  - intros [= <-]. auto.
  - cbn [parseRun]. destruct (parseStep st t) as [st1 |] eqn:Hs; [| discriminate].
    intros Hrun Hx. destruct (IH st1 Hrun Hx) as [H | [H | H]].
    + now left.
    + right. left. now apply keyStrings_cons.
    + destruct (parseStep_keys st st1 t x Hs H) as [Hst | (-> & stk & ms & ->)];
        [auto |].
      destruct toks as [| t2 toks].
      * injection Hrun as <-. left. now exists stk, ms.
      * right. left. cbn [parseRun parseStep] in Hrun.
        destruct t2; try discriminate Hrun. now left.
Qed.

Lemma plug_keys (stk : list context) (v : json) (x : JS.ustring) :
  In x (keysOf (plug stk v)) ->
  In x (keysOf v) \/ In x (flat_map contextKeys stk).
Proof.
  revert v. induction stk as [| [es | ms k] stk IH]; intros v; cbn [plug flat_map].
  - auto.
  - intros H. destruct (IH _ H) as [H' | H'].
    + cbn [keysOf] in H'. rewrite flat_map_app in H'. cbn in H'.
      rewrite app_nil_r in H'. apply in_app_or in H'.
      destruct H' as [H' | H']; [| auto].
      right. apply in_or_app. now left.
    + right. apply in_or_app. now right.
  - intros H. destruct (IH _ H) as [H' | H'].
    + change (keysOf (JObj (setProp ms k v)))
        with (memberKeys (setProp ms k v)) in H'.
      destruct (setProp_keys ms k v x H') as [-> | [H'' | H'']].
      * right. now left.
      * now left.
      * right. right. apply in_or_app. now left.
    + right. right. apply in_or_app. now right.
Qed.

Lemma closeAll_keys (st : parseState) (v : json) (x : JS.ustring) :
  closeAll st = Some v -> In x (keysOf v) -> In x (stateKeys st).
Proof.
  destruct st as [stk | stk | stk | stk ms | stk ms k | stk es | stk ms | v0];
    cbn [closeAll stateKeys]; try discriminate; intros [= <-] H;
    apply plug_keys in H; cbn [keysOf] in H.
  - now destruct H.
  - now destruct H.
  - apply in_or_app. tauto.
  - apply in_or_app. tauto.
Qed.

(** The keys of the closed document stood before a colon in the text. *)
Lemma closed_keys (toks : list token) (st : parseState) (v : json)
      (x : JS.ustring) :
  parseRun (SValue []) toks = Some st ->
  closeAll st = Some v ->
  In x (keysOf v) -> In x (keyStrings toks).
Proof.
  intros Hrun Hclose Hx.
  pose proof (closeAll_keys st v x Hclose Hx) as Hst.
  destruct (parseRun_keys toks (SValue []) st x Hrun Hst)
    as [(stk & ms & ->) | [H | []]]; [discriminate Hclose | exact H].
Qed.


(** *** String values that the comma passes rewrite *)

(** A document with the text of its string values left out: its
    structure, its keys, its numbers and its literals. *)
Fixpoint blank (v : json) : json :=
  match v with
  | JStr _ => JStr []
  | JArr l => JArr (map blank l)
  | JObj m => JObj (map (fun kv => (fst kv, blank (snd kv))) m)
  | _ => v
  end.

Definition blankMembers (m : list (JS.ustring * json)) : list (JS.ustring * json) :=
  map (fun kv => (fst kv, blank (snd kv))) m.

Definition blankContext (c : context) : context :=
  match c with
  | CArr elems => CArr (map blank elems)
  | CObj members key => CObj (blankMembers members) key
  end.

Definition blankState (st : parseState) : parseState :=
  match st with
  | SValue stk => SValue (map blankContext stk)
  | SArrOpen stk => SArrOpen (map blankContext stk)
  | SObjOpen stk => SObjOpen (map blankContext stk)
  | SKey stk ms => SKey (map blankContext stk) (blankMembers ms)
  | SColon stk ms k => SColon (map blankContext stk) (blankMembers ms) k
  | SArrSep stk es => SArrSep (map blankContext stk) (map blank es)
  | SObjSep stk ms => SObjSep (map blankContext stk) (blankMembers ms)
  | SEnd v => SEnd (blank v)
  end.

Definition blankToken (t : token) : token :=
  match t with
  | TStr _ => TStr []
  | _ => t
  end.

(** Whether a string that comes next is read as a value. *)
Definition expectsValue (st : parseState) : bool :=
  match st with
  | SValue _ | SArrOpen _ => true
  | _ => false
  end.

(** A token as the structure of the document sees it. *)
Definition seen (st : parseState) (t : token) : token :=
  if expectsValue st then blankToken t else t.

#[local] Instance literal_eq_dec : EqDecision literal.
Proof. solve_decision. Defined.

#[local] Instance token_eq_dec : EqDecision token.
Proof. solve_decision. Defined.

(** Two lists of tokens are the same, a string apart where the parser,
    started in [st], reads a value. *)
Fixpoint sameButValues (st : parseState) (toks toks' : list token) : bool :=
  match toks, toks' with
  | [], [] => true
  | t :: rest, t' :: rest' =>
      bool_decide (seen st t = seen st t')
      && match parseStep st t with
         | Some st1 => sameButValues st1 rest rest'
         | None => false
         end
  | _, _ => false
  end.

Lemma blankMembers_setProp (ms : list (JS.ustring * json)) (k : JS.ustring)
      (v : json) :
  blankMembers (setProp ms k v) = setProp (blankMembers ms) k (blank v).
Proof.
  induction ms as [| [k' v'] ms IH]; [reflexivity |].
  cbn [setProp blankMembers map fst snd].
  destruct (bool_decide (k' = k)); cbn [map fst snd]; [reflexivity |].
  f_equal. exact IH.
Qed.

Lemma deliver_blank (stk : list context) (v : json) :
  blankState (deliver stk v) = deliver (map blankContext stk) (blank v).
Proof.
  destruct stk as [| [es | ms k] stk]; cbn [deliver blankState map blankContext].
  - reflexivity.
  - now rewrite map_app.
  - now rewrite blankMembers_setProp.
Qed.

Lemma literalValue_blank (l : literal) : blank (literalValue l) = literalValue l.
Proof. now destruct l. Qed.

Lemma valueStep_blank (stk : list context) (t : token) :
  option_map blankState (valueStep stk t)
  = valueStep (map blankContext stk) (blankToken t).
Proof.
  destruct t; cbn [valueStep blankToken option_map]; try reflexivity;
    rewrite deliver_blank; try reflexivity.
  now rewrite literalValue_blank.
Qed.

(** The parser reads the structure of a document whatever the text of its
    string values. *)
Lemma parseStep_blank (st : parseState) (t : token) :
  option_map blankState (parseStep st t) = parseStep (blankState st) (seen st t).
Proof.
  destruct st as [stk | stk | stk | stk ms | stk ms k | stk es | stk ms | v];
    unfold seen; cbn [expectsValue parseStep blankState].
  - apply valueStep_blank.
  - destruct t; cbn [blankToken];
      try exact (valueStep_blank (CArr [] :: stk) _).
    cbn [option_map]. now rewrite deliver_blank.
  - destruct t; cbn [option_map]; try reflexivity. now rewrite deliver_blank.
  - destruct t; reflexivity.
  - destruct t; reflexivity.
  - destruct t; cbn [option_map]; try reflexivity. now rewrite deliver_blank.
  - destruct t; cbn [option_map]; try reflexivity. now rewrite deliver_blank.
  - reflexivity.
Qed.

Lemma expectsValue_blank (st st' : parseState) :
  blankState st' = blankState st -> expectsValue st' = expectsValue st.
Proof. destruct st, st'; cbn; intros H; try discriminate H; reflexivity. Qed.

(** Two runs of the parser over tokens that are the same but for string
    values end in states that are the same but for string values. *)
Lemma parseRun_same (toks toks' : list token) (st st0 st1 : parseState) :
  sameButValues st toks toks' = true ->
  blankState st0 = blankState st ->
  parseRun st toks = Some st1 ->
  exists st1', parseRun st0 toks' = Some st1' /\ blankState st1' = blankState st1.
Proof.
  revert toks' st st0. induction toks as [| t toks IH]; intros toks' st st0.
  - destruct toks'; [| discriminate]. intros _ Hst [= <-]. now exists st0.
  - destruct toks' as [| t' toks']; [discriminate |].
    cbn [sameButValues parseRun]. intros Hsame Hst.
    apply andb_prop in Hsame. destruct Hsame as [Ht Hrest].
    apply bool_decide_eq_true in Ht.
    destruct (parseStep st t) as [st2 |] eqn:Hstep; [| discriminate].
    intros Hrun.
    pose proof (parseStep_blank st t) as H1.
    pose proof (parseStep_blank st0 t') as H2.
    rewrite Hstep in H1. cbn [option_map] in H1.
    unfold seen in H2. rewrite (expectsValue_blank st st0 Hst) in H2.
    fold (seen st t') in H2. rewrite Hst, <- Ht, <- H1 in H2.
    destruct (parseStep st0 t') as [st2' |]; [| discriminate H2].
    injection H2 as H2.
    exact (IH toks' st2 st2' Hrest H2 Hrun).
Qed.

Lemma plug_blank (stk : list context) (v : json) :
  blank (plug stk v) = plug (map blankContext stk) (blank v).
Proof.
  revert v. induction stk as [| [es | ms k] stk IH]; intros v;
    cbn [plug map blankContext]; [reflexivity | |]; rewrite IH; cbn [blank].
  - now rewrite map_app.
  - fold (blankMembers (setProp ms k v)). now rewrite blankMembers_setProp.
Qed.

Lemma closeAll_blank (st : parseState) :
  option_map blank (closeAll st) = closeAll (blankState st).
Proof.
  destruct st; cbn [closeAll blankState option_map]; try reflexivity;
    now rewrite plug_blank.
Qed.

Lemma openClosers_blank (st : parseState) :
  openClosers (blankState st) = openClosers st.
Proof.
  assert (H : forall stk, map closerChar (map blankContext stk) = map closerChar stk).
  { intros stk. rewrite map_map. apply map_ext. now intros [es | ms k]. }
  destruct st; cbn [openClosers blankState]; now rewrite ?H.
Qed.

Lemma keysOf_blank (v : json) : keysOf (blank v) = keysOf v.
Proof.
  revert v.
  fix IH 1. intros [| b | l | s | es | ms]; try reflexivity.
  - cbn [blank keysOf]. induction es as [| e es IHes]; [reflexivity |].
    cbn [map flat_map]. now rewrite IH, IHes.
  - cbn [blank keysOf]. induction ms as [| [k x] ms IHms]; [reflexivity |].
    cbn [map flat_map fst snd]. now rewrite IH, IHms.
Qed.

Lemma sameButValues_refl (toks : list token) (st st1 : parseState) :
  parseRun st toks = Some st1 -> sameButValues st toks toks = true.
Proof.
  revert st. induction toks as [| t toks IH]; intros st; [reflexivity |].
  cbn [parseRun sameButValues].
  destruct (parseStep st t) as [st2 |]; [| discriminate].
  intros Hrun. rewrite (IH st2 Hrun), andb_true_r.
  now apply bool_decide_eq_true.
Qed.

(** Where a text is cut: strictly inside an object or array, and not inside
    a string, as the bracket scanner sees it. *)
Definition cutInside (p : string) : Prop :=
  stack (scan p scanStart) <> [] /\ inString (scan p scanStart) = false.

(** C2, as the code has it.  A text that the JSON grammar accepts up to its
    end, where an array or object is open and a comma or a closer is
    expected (the text was cut right after an opening bracket or brace, or
    right after a complete element or member value), and to which the
    comma passes do nothing but rewrite string values (the tokens of the
    text they leave are the tokens of the text, a string apart where a
    value is read): [repairJSON] leaves the text as the comma passes leave
    it and appends the closers of the open containers and nothing else;
    the result parses, to the document with its open containers closed,
    which is the document before the cut with its open containers closed
    but for the string values rewritten (and that very document when the
    comma passes change nothing); and the keys of the result are the keys
    of that document, each of which stood before a colon in the text. *)
Theorem repairJSON_closes_truncated_document
    (p : string) (toks toks' : list token) (st : parseState) (v : json) :
  lex p = Some toks ->
  parseRun (SValue []) toks = Some st ->
  closeAll st = Some v ->
  lex (commaPasses p) = Some toks' ->
  sameButValues (SValue []) toks toks' = true ->
  repairJSON p = commaPasses p ++ string_of_list_ascii (openClosers st) /\
  exists v',
    JSON_parse (repairJSON p) = Some v' /\
    blank v' = blank v /\
    (commaPasses p = p -> v' = v) /\
    keysOf v' = keysOf v /\
    (forall k, In k (keysOf v') -> In k (keyStrings toks)).
Proof.
  intros Hlex Hrun Hclose Hlex' Hsame.
  destruct (parseRun_same toks toks' (SValue []) (SValue []) st Hsame eq_refl Hrun)
    as (st' & Hrun' & Hst').
  pose proof (closeAll_blank st') as Hc'. rewrite Hst', <- closeAll_blank in Hc'.
  rewrite Hclose in Hc'. cbn [option_map] in Hc'.
  destruct (closeAll st') as [v' |] eqn:Hclose'; [| discriminate Hc'].
  injection Hc' as Hv'.
  destruct (closing_steps_close (commaPasses p) toks' st' v' Hlex' Hrun' Hclose')
    as [Hrepair Hparse].
  assert (Hkeys : keysOf v' = keysOf v)
    by (rewrite <- (keysOf_blank v'), Hv'; apply keysOf_blank).
  split.
  - unfold repairJSON. rewrite Hrepair.
    now rewrite <- (openClosers_blank st'), Hst', openClosers_blank.
  - exists v'. unfold repairJSON. repeat split; try assumption.
    + intros Hquiet. rewrite Hquiet in Hlex'.
      assert (toks' = toks) by congruence. subst toks'.
      congruence.
    + intros k Hk. rewrite Hkeys in Hk.
      exact (closed_keys toks st v k Hrun Hclose Hk).
Qed.

(** C2 as stated fails: the document [{"a":1}] cut after its colon is cut
    inside the object and outside any string, and the repaired text,
    [{"a":}], does not parse. *)
Lemma repairJSON_fails_after_colon :
  ~ (forall (doc p : string) (v : json),
       JSON_parse doc = Some v ->
       JS.startsWith p doc = true ->
       cutInside p ->
       exists v', JSON_parse (repairJSON p) = Some v' /\
                  (forall k, In k (keysOf v') -> In k (keysOf v))).
Proof.
  intros Hclaim.
  destruct (Hclaim (JS.fixture "{'a':1}") (JS.fixture "{'a':")
                   (obj [("a", JNum "1")]))
    as (v' & Hparse & _).
  - vm_compute. reflexivity.
  - vm_compute. reflexivity.
  - split; vm_compute; [discriminate | reflexivity].
  - vm_compute in Hparse. discriminate Hparse.
Qed.

(** A comma pattern inside a key: the document [{"a,}":1,"b":2}] cut after
    the value 1 is repaired to a text that parses, with the key [a}] that
    the document does not have. *)
Example repairJSON_rewrites_key :
  JSON_parse (repairJSON (JS.fixture "{'a,}':1"))
  = Some (obj [("a}", JNum "1")]).
Proof. vm_compute. reflexivity. Qed.

End RunFacts.

(** A pretty-printed reply that ends after the second slide, with comma
    patterns in a string value: a comma before a closing bracket, and a
    closing brace before an opening one. *)
Definition truncatedReply : string :=
  JS.fixture "{
  'company': {'name': 'Acme'},
  'note': 'see [a, b,] and {x}{y}',
  'slides': [
    {'type': 'title'},
    {'type': 'ask'}".

Lemma repairJSON_closes_truncated_document_witness :
  Repair.repairJSON truncatedReply = Repair.commaPasses truncatedReply ++ "]}" /\
  exists v',
    Json.JSON_parse (Repair.repairJSON truncatedReply) = Some v' /\
    blank v'
    = blank (Json.obj
               [ ("company", Json.obj [("name", Json.str "Acme")]);
                 ("note", Json.str "see [a, b,] and {x}{y}");
                 ("slides", Json.JArr [ Json.obj [("type", Json.str "title")];
                                        Json.obj [("type", Json.str "ask")] ]) ]) /\
    (Repair.commaPasses truncatedReply = truncatedReply ->
     v' = Json.obj
            [ ("company", Json.obj [("name", Json.str "Acme")]);
              ("note", Json.str "see [a, b,] and {x}{y}");
              ("slides", Json.JArr [ Json.obj [("type", Json.str "title")];
                                     Json.obj [("type", Json.str "ask")] ]) ]) /\
    keysOf v' = map JS.units ["company"; "name"; "note"; "slides"; "type"; "type"] /\
    (forall k, In k (keysOf v') ->
       In k (map JS.units ["company"; "name"; "note"; "slides"; "type"; "type"])).
Proof.
  assert (Hlex : Json.lex truncatedReply
                 = Some (default [] (Json.lex truncatedReply)))
    by (vm_compute; reflexivity).
  assert (Hlex' : Json.lex (Repair.commaPasses truncatedReply)
                  = Some (default [] (Json.lex (Repair.commaPasses truncatedReply))))
    by (vm_compute; reflexivity).
  pose proof (repairJSON_closes_truncated_document truncatedReply
           (default [] (Json.lex truncatedReply))
           (default [] (Json.lex (Repair.commaPasses truncatedReply)))
           (Json.SArrSep
              [Json.CObj [ (JS.units "company", Json.obj [("name", Json.str "Acme")]);
                           (JS.units "note", Json.str "see [a, b,] and {x}{y}") ]
                         (JS.units "slides")]
              [ Json.obj [("type", Json.str "title")];
                Json.obj [("type", Json.str "ask")] ])
           (Json.obj
              [ ("company", Json.obj [("name", Json.str "Acme")]);
                ("note", Json.str "see [a, b,] and {x}{y}");
                ("slides", Json.JArr [ Json.obj [("type", Json.str "title")];
                                       Json.obj [("type", Json.str "ask")] ]) ])
           Hlex) as H.
  apply H; [vm_compute; reflexivity | vm_compute; reflexivity | exact Hlex'
           | vm_compute; reflexivity].
Defined.

(** What the witness is repaired to: the string value is rewritten, the
    keys are not. *)
Example repairJSON_rewrites_value :
  Json.JSON_parse (Repair.repairJSON truncatedReply)
  = Some (Json.obj
            [ ("company", Json.obj [("name", Json.str "Acme")]);
              ("note", Json.str "see [a, b] and {x},{y}");
              ("slides", Json.JArr [ Json.obj [("type", Json.str "title")];
                                     Json.obj [("type", Json.str "ask")] ]) ]).
Proof. vm_compute. reflexivity. Qed.

(** * The rest of the agents *)

(** ** Retry executor: the schedule and the exhaustion of the attempts *)

Section RetrySchedule.

Import Retry.

Context {St A : Type}.
Variable fn : St -> outcome A * St.
Variable delay : Z -> St -> St.
Variable context : list (string * string).
Variable retryAttempts retryDelay : Z.

(** The first [k] delays of the backoff schedule:
    [retryDelay * 2^0], ..., [retryDelay * 2^(k-1)]. *)
Definition backoffSchedule (base : Z) (k : nat) : list Z :=
  map (fun i => (base * 2 ^ Z.of_nat i)%Z) (seq 0 k).

Lemma backoffSchedule_S (base : Z) (k : nat) :
  backoffSchedule base (S k)
  = (backoffSchedule base k ++ [(base * 2 ^ Z.of_nat k)%Z])%list.
Proof. unfold backoffSchedule. now rewrite seq_S, map_app. Qed.

(** The warnings of attempts [from], [from + 1], ... ([k] of them). *)
Fixpoint retryWarnings (N : Z) (from : Z) (k : nat) : list string :=
  match k with
  | O => []
  | S k' => retryWarning N from :: retryWarnings N (from + 1)%Z k'
  end.

Lemma retryWarnings_snoc (N from : Z) (k : nat) :
  retryWarnings N from (S k)
  = (retryWarnings N from k ++ [retryWarning N (from + Z.of_nat k)%Z])%list.
Proof.
  revert from. induction k as [| k IH]; intros from.
  - cbn. now rewrite Z.add_0_r.
  - change (retryWarnings N from (S (S k)))
      with (retryWarning N from :: retryWarnings N (from + 1)%Z (S k)).
    rewrite IH. cbn [retryWarnings app].
    replace (from + 1 + Z.of_nat k)%Z with (from + Z.of_nat (S k))%Z by lia.
    reflexivity.
Qed.

Lemma retryLoop_schedule (n : nat) (attempt : Z) last (w : world) :
  (n + invocations w = Z.to_nat retryAttempts)%nat ->
  attempt = (Z.of_nat (invocations w) + 1)%Z ->
  delays w = backoffSchedule retryDelay
               (Nat.min (invocations w) (pred (Z.to_nat retryAttempts))) ->
  let w' := snd (retryLoop fn delay retryAttempts retryDelay context n attempt last w) in
  (invocations w' <= Z.to_nat retryAttempts)%nat /\
  delays w' = backoffSchedule retryDelay (pred (invocations w')).
Proof.
  revert attempt last w. induction n as [| n IH]; intros attempt last w Hn Ha Hd.
  - cbn [retryLoop snd]. cbv zeta. split; [lia |]. rewrite Hd. f_equal. lia.
  - cbn [retryLoop].
    destruct (fn (opState w)) as [r st'] eqn:Hfn.
    destruct r as [a | e].
    + cbn [snd invocations delays]. cbv zeta. split; [lia |]. rewrite Hd. f_equal. lia.
    + destruct (isRetryable e).
      * apply IH.
        -- destruct (attempt <? retryAttempts)%Z; cbn [invocations]; lia.
        -- destruct (attempt <? retryAttempts)%Z; cbn [invocations]; lia.
        -- destruct (attempt <? retryAttempts)%Z eqn:Hlt; cbn [invocations delays].
           ++ apply Z.ltb_lt in Hlt.
              replace (Nat.min (S (invocations w)) (pred (Z.to_nat retryAttempts)))
                with (S (invocations w)) by lia.
              rewrite backoffSchedule_S, Hd.
              replace (Nat.min (invocations w) (pred (Z.to_nat retryAttempts)))
                with (invocations w) by lia.
              replace (attempt - 1)%Z with (Z.of_nat (invocations w)) by lia.
              reflexivity.
           ++ apply Z.ltb_ge in Hlt. rewrite Hd. f_equal. lia.
      * cbn [snd invocations delays]. cbv zeta. split; [lia |]. rewrite Hd. f_equal. lia.
Qed.

(** X1.  Whatever the operation does: it is invoked at most [retryAttempts]
    times, there is one sleep between two consecutive invocations and none
    after the last, and the k-th sleep lasts [retryDelay * 2^(k-1)]. *)
Theorem withRetry_follows_backoff_schedule (st : St) :
  let w := snd (withRetry fn delay retryAttempts retryDelay context st) in
  (invocations w <= Z.to_nat retryAttempts)%nat /\
  delays w = backoffSchedule retryDelay (pred (invocations w)).
Proof.
  unfold withRetry. apply retryLoop_schedule; cbn; [lia | lia | reflexivity].
Qed.

(** The environment in which invocation [k + 1] starts when every
    invocation before it has failed with a retryable error: after each of
    them the executor has slept, [retryDelay * 2^0] after the first. *)
Fixpoint stateBefore (st : St) (k : nat) : St :=
  match k with
  | O => st
  | S k' => delay (retryDelay * 2 ^ Z.of_nat k')%Z (snd (fn (stateBefore st k')))
  end.

Lemma retryLoop_exhausted (st : St) (n : nat) (attempt : Z)
      (last : option js_error) (w : world) :
  (forall s, exists e s', fn s = (Threw e, s') /\ isRetryable e = true) ->
  (n + invocations w = Z.to_nat retryAttempts)%nat ->
  attempt = (Z.of_nat (invocations w) + 1)%Z ->
  (n <> 0%nat -> opState w = stateBefore st (invocations w)) ->
  (n = 0%nat ->
   exists e, fn (stateBefore st (pred (Z.to_nat retryAttempts))) = (Threw e, opState w)
             /\ last = Some e /\ isRetryable e = true) ->
  exists e w',
    fn (stateBefore st (pred (Z.to_nat retryAttempts))) = (Threw e, opState w') /\
    retryLoop fn delay retryAttempts retryDelay context n attempt last w
    = (inl (RetryExhaustedError
              ("All " ++ show_Z retryAttempts ++ " attempts failed")
              retryAttempts (Some e)), w') /\
    isRetryable e = true /\
    invocations w' = Z.to_nat retryAttempts /\
    warned w' = (warned w ++ retryWarnings retryAttempts attempt n)%list.
Proof.
  intros Hfail. revert attempt last w.
  induction n as [| n IH]; intros attempt last w Hn Ha Hstate Hlast.
  - destruct (Hlast eq_refl) as (e & Hfn & -> & He).
    exists e, w. cbn. rewrite app_nil_r. repeat split; [assumption .. | lia].
  - cbn [retryLoop].
    destruct (Hfail (opState w)) as (e & st' & Hfn & He).
    rewrite Hfn, He.
    specialize (Hstate ltac:(discriminate)).
    match goal with
    | |- context [retryLoop _ _ _ _ _ n ?a ?l ?w2] =>
        destruct (IH a l w2) as (e' & w' & Hlastfn & Hrun & He' & Hinv & Hw)
    end.
    + destruct (attempt <? retryAttempts)%Z; cbn; lia.
    + destruct (attempt <? retryAttempts)%Z; cbn; lia.
    + intros Hn0.
      destruct (attempt <? retryAttempts)%Z eqn:Hlt; cbn [opState invocations].
      * cbn [stateBefore]. rewrite <- Hstate, Hfn. cbn [snd].
        replace (attempt - 1)%Z with (Z.of_nat (invocations w)) by lia.
        reflexivity.
      * apply Z.ltb_ge in Hlt. lia.
    + intros ->. exists e.
      destruct (attempt <? retryAttempts)%Z eqn:Hlt.
      * apply Z.ltb_lt in Hlt. lia.
      * cbn [opState].
        replace (pred (Z.to_nat retryAttempts)) with (invocations w) by lia.
        rewrite <- Hstate. repeat split; assumption.
    + exists e', w'. rewrite Hrun. repeat split; try assumption.
      rewrite Hw. cbn [retryWarnings].
      destruct (attempt <? retryAttempts)%Z; cbn; now rewrite <- app_assoc.
Qed.

(** X2.  An operation that fails with a retryable error at every call, with at
    least one attempt configured: it is invoked [retryAttempts] times, every
    failure is logged as a retry (the last one too), and the executor
    throws a [RetryExhaustedError] that carries the number of attempts and
    the error that the last invocation threw, but not the [context]; it
    does not sleep after the last invocation. *)
Theorem withRetry_exhausts_its_attempts (st : St) :
  (1 <= retryAttempts)%Z ->
  (forall s, exists e s', fn s = (Threw e, s') /\ isRetryable e = true) ->
  exists e w,
    fn (stateBefore st (pred (Z.to_nat retryAttempts))) = (Threw e, opState w) /\
    withRetry fn delay retryAttempts retryDelay context st
    = (inl (AgentErrorObj RetryExhaustedErrorName
              (Msg ("All " ++ show_Z retryAttempts ++ " attempts failed"))
              (Some e) [] (Some retryAttempts)), w) /\
    isRetryable e = true /\
    invocations w = Z.to_nat retryAttempts /\
    delays w = backoffSchedule retryDelay (pred (Z.to_nat retryAttempts)) /\
    warned w = retryWarnings retryAttempts 1 (Z.to_nat retryAttempts).
Proof.
  intros HN Hfail. unfold withRetry.
  destruct (retryLoop_exhausted st (Z.to_nat retryAttempts) 1 None (start st) Hfail)
    as (e & w & Hlast & Hrun & He & Hinv & Hw).
  - cbn. lia.
  - reflexivity.
  - intros _. reflexivity.
  - intros H0. lia.
  - exists e, w. repeat split; try assumption.
    pose proof (retryLoop_schedule (Z.to_nat retryAttempts) 1 None (start st)) as Hs.
    rewrite Hrun in Hs. cbn [snd] in Hs.
    destruct Hs as [_ Hs]; [cbn; lia | reflexivity | reflexivity |].
    now rewrite Hs, Hinv.
Qed.

End RetrySchedule.

(** An operation on a counter that times out at every call and says at
    which call. *)
Definition alwaysTimesOut (n : nat) : Retry.outcome string * nat :=
  (Retry.Threw (JsError (Some "timeout")
                        (Some ("request " ++ show_Z (Z.of_nat n) ++ " timed out"))),
   S n).

Lemma withRetry_exhausts_its_attempts_witness :
  exists e w,
    alwaysTimesOut 2%nat = (Retry.Threw e, Retry.opState w) /\
    Retry.withRetry alwaysTimesOut (fun _ n => n) 3 1000 [] 0%nat
    = (inl (AgentErrorObj RetryExhaustedErrorName
              (Msg ("All " ++ show_Z 3 ++ " attempts failed"))
              (Some e) [] (Some 3%Z)), w) /\
    Retry.isRetryable e = true /\
    Retry.invocations w = Z.to_nat 3 /\
    Retry.delays w = backoffSchedule 1000 (pred (Z.to_nat 3)) /\
    Retry.warned w = retryWarnings 3 1 (Z.to_nat 3).
Proof.
  apply (withRetry_exhausts_its_attempts alwaysTimesOut (fun _ n => n) [] 3 1000 0%nat).
  - lia.
  - intros s. eexists. eexists. split; reflexivity.
Defined.

(** ** Truncation and token estimates *)

Section TextFacts.

Import Text.

Lemma length_append (a b : string) :
  String.length (a ++ b) = (String.length a + String.length b)%nat.
Proof.
  induction a as [| c a IH]; [reflexivity |].
  rewrite append_cons. cbn [String.length]. now rewrite IH.
Qed.

Lemma length_substring_0 (n : nat) (s : string) :
  (n <= String.length s)%nat -> String.length (String.substring 0 n s) = n.
Proof.
  revert n. induction s as [| c s IH]; intros n Hn.
  - cbn in Hn. now replace n with 0%nat by lia.
  - destruct n as [| n]; [reflexivity |].
    cbn [String.substring String.length] in *. rewrite IH; lia.
Qed.

Lemma substring_all (s : string) (n : nat) :
  (String.length s <= n)%nat -> String.substring 0 n s = s.
Proof.
  revert n. induction s as [| c s IH]; intros n Hn; [now destruct n |].
  destruct n as [| n]; [cbn in Hn; lia |].
  cbn [String.substring]. rewrite IH; [reflexivity | cbn in Hn; lia].
Qed.

Lemma substring_0_prefix (n : nat) (s : string) :
  JS.startsWith (String.substring 0 n s) s = true.
Proof.
  revert n. induction s as [| c s IH]; intros n.
  - now destruct n.
  - destruct n as [| n]; [reflexivity |].
    cbn [String.substring JS.startsWith]. now rewrite Ascii.eqb_refl, IH.
Qed.

(** X5.  A text that is too long, with a suffix that fits in the limit: the
    result is a prefix of the text followed by the suffix, and it has
    exactly [maxLength] characters. *)
Theorem truncateText_cuts_to_the_limit
    (text : string) (maxLength : Z) (suffix : string) :
  (maxLength < Z.of_nat (String.length text))%Z ->
  (Z.of_nat (String.length suffix) <= maxLength)%Z ->
  exists kept,
    truncateText text maxLength suffix = kept ++ suffix /\
    JS.startsWith kept text = true /\
    Z.of_nat (String.length (truncateText text maxLength suffix)) = maxLength.
Proof.
  intros Hlong Hfit. unfold truncateText.
  replace (Z.of_nat (String.length text) <=? maxLength)%Z with false
    by (symmetry; apply Z.leb_gt; lia).
  eexists. split; [reflexivity |]. split.
  - apply substring_0_prefix.
  - unfold slice0.
    replace (maxLength - Z.of_nat (String.length suffix) <? 0)%Z with false
      by (symmetry; apply Z.ltb_ge; lia).
    rewrite length_append, length_substring_0; lia.
Qed.

(** X6.  A text that is too long, with a suffix that is longer than the limit:
    the subtraction gives a negative end, which [slice] counts from the end
    of the text, and the result is longer than [maxLength]. *)
Theorem truncateText_exceeds_a_small_limit
    (text : string) (maxLength : Z) (suffix : string) :
  (maxLength < Z.of_nat (String.length text))%Z ->
  (maxLength < Z.of_nat (String.length suffix))%Z ->
  (maxLength < Z.of_nat (String.length (truncateText text maxLength suffix)))%Z.
Proof.
  intros Hlong Hsuffix. unfold truncateText.
  replace (Z.of_nat (String.length text) <=? maxLength)%Z with false
    by (symmetry; apply Z.leb_gt; lia).
  rewrite length_append. lia.
Qed.

(** A text within the limit is returned as it is. *)
Lemma truncateText_short (text : string) (maxLength : Z) (suffix : string) :
  (Z.of_nat (String.length text) <= maxLength)%Z ->
  truncateText text maxLength suffix = text.
Proof.
  intros Hle. unfold truncateText.
  now replace (Z.of_nat (String.length text) <=? maxLength)%Z with true
    by (symmetry; apply Z.leb_le; lia).
Qed.

Lemma estimateTokens_bounds (text : string) :
  (Z.of_nat (String.length text) <= 4 * estimateTokens text
   < Z.of_nat (String.length text) + 4)%Z.
Proof.
  unfold estimateTokens.
  set (n := Z.of_nat (String.length text)).
  assert (Hq : inject_Z n / 4 == n # 4).
  { unfold Qdiv, Qmult, Qinv, inject_Z, Qeq. cbn. lia. }
  rewrite (Qceiling_comp _ _ Hq).
  unfold Qceiling, Qfloor, Qopp. cbn [Qnum Qden].
  change (Z.pos 4) with 4%Z.
  pose proof (Z.div_mod (- n) 4 ltac:(lia)) as Hdm.
  pose proof (Z.mod_pos_bound (- n) 4 ltac:(lia)) as Hb.
  lia.
Qed.

End TextFacts.

Lemma truncateText_cuts_to_the_limit_witness :
  exists kept,
    Text.truncateText "0123456789012345678901234567890123456789" 30 Text.defaultSuffix
    = kept ++ Text.defaultSuffix /\
    JS.startsWith kept "0123456789012345678901234567890123456789" = true /\
    Z.of_nat (String.length
      (Text.truncateText "0123456789012345678901234567890123456789" 30 Text.defaultSuffix))
    = 30%Z.
Proof.
  apply (truncateText_cuts_to_the_limit
           "0123456789012345678901234567890123456789" 30 Text.defaultSuffix).
  - vm_compute. reflexivity.
  - vm_compute. discriminate.
Defined.

Lemma truncateText_exceeds_a_small_limit_witness :
  (10 < Z.of_nat (String.length
          (Text.truncateText "012345678901234567890123456789" 10 Text.defaultSuffix)))%Z.
Proof.
  apply (truncateText_exceeds_a_small_limit
           "012345678901234567890123456789" 10 Text.defaultSuffix).
  - vm_compute. reflexivity.
  - vm_compute. reflexivity.
Defined.

(** ** Stability of the repair steps *)

Section RepairStability.

Import Json Repair.

Lemma scan_app (a b : string) (st : scanState) :
  scan (a ++ b) st = scan b (scan a st).
Proof.
  revert st. induction a as [| c a IH]; intros st; [reflexivity |].
  rewrite append_cons. cbn [scan]. apply IH.
Qed.

(** Outside a string, the owed closers are read back one by one. *)
Lemma scan_owed_closers (opened : list ascii) :
  scan (string_of_list_ascii (map closerOf opened))
       (ScanState (map closerOf opened) false false)
  = scanStart.
Proof.
  induction opened as [| o opened IH]; [reflexivity |].
  cbn [map string_of_list_ascii scan].
  replace (scanStep (ScanState (closerOf o :: map closerOf opened) false false)
                    (closerOf o))
    with (ScanState (map closerOf opened) false false); [exact IH |].
  unfold closerOf. destruct (Ascii.eqb o "{"); reflexivity.
Qed.

(** X7.  A text that does not end right after a backslash: the repaired text is
    balanced for the scanner, so that closing it again appends nothing. *)
Theorem closeOpenBrackets_is_idempotent (s : string) :
  escapeNext (scan s scanStart) = false ->
  scan (closeOpenBrackets s) scanStart = scanStart /\
  closeOpenBrackets (closeOpenBrackets s) = closeOpenBrackets s.
Proof.
  intros Hesc.
  assert (Hbal : scan (closeOpenBrackets s) scanStart = scanStart).
  { unfold closeOpenBrackets. rewrite scan_app.
    destruct (scan_two_phases s [] false false) as [Hstack Hin].
    change (ScanState (map closerOf []) false false) with scanStart in *.
    destruct (scan s scanStart) as [stk inS esc] eqn:Hst.
    cbn [stack inString escapeNext] in *. subst esc stk.
    unfold closers. cbn [stack inString].
    destruct inS.
    - rewrite append_cons. change (EmptyString ++ ?x) with x.
      cbn [scan]. unfold scanStep at 1. cbn [escapeNext stack inString].
      change (Ascii.eqb JS.dquote JS.backslash) with false.
      change (Ascii.eqb JS.dquote JS.dquote) with true.
      cbn [negb]. apply scan_owed_closers.
    - change (EmptyString ++ ?x) with x. apply scan_owed_closers. }
  split; [exact Hbal |].
  unfold closeOpenBrackets at 1. rewrite Hbal.
  unfold closers, scanStart. cbn [stack inString string_of_list_ascii].
  change (EmptyString ++ EmptyString) with EmptyString.
  apply append_nil_r.
Qed.

Lemma hexDigit_plain (n : N) :
  (n < 16)%N ->
  let d := hexDigit n in
  Ascii.eqb d JS.backslash = false /\ Ascii.eqb d JS.dquote = false /\
  Ascii.eqb d JS.LF = false /\ Ascii.eqb d JS.CR = false /\
  Ascii.eqb d JS.TAB = false /\ (JS.charCode d <? 32)%N = false.
Proof.
  intros Hn.
  assert (Hcases : In n [0; 1; 2; 3; 4; 5; 6; 7; 8; 9; 10; 11; 12; 13; 14; 15]%N).
  { cbn. lia. }
  cbn in Hcases.
  repeat (destruct Hcases as [<- | Hcases]; [vm_compute; repeat split |]).
  destruct Hcases.
Qed.

(** One ordinary character inside a string is copied. *)
Lemma fixEscapingFrom_plain (c : ascii) (s : string) :
  Ascii.eqb c JS.backslash = false -> Ascii.eqb c JS.dquote = false ->
  Ascii.eqb c JS.LF = false -> Ascii.eqb c JS.CR = false ->
  Ascii.eqb c JS.TAB = false -> (JS.charCode c <? 32)%N = false ->
  fixEscapingFrom (String c s) true false
  = String c (fixEscapingFrom s true false).
Proof.
  intros H1 H2 H3 H4 H5 H6. cbn [fixEscapingFrom].
  rewrite H1, H2, H3, H4, H5, H6. now rewrite append_cons.
Qed.

Lemma fixEscapingFrom_idempotent (s : string) (inStr escNext : bool) :
  fixEscapingFrom (fixEscapingFrom s inStr escNext) inStr escNext
  = fixEscapingFrom s inStr escNext.
Proof.
  revert inStr escNext. induction s as [| c s IH]; intros inStr escNext;
    [reflexivity |].
  cbn [fixEscapingFrom].
  destruct escNext.
  { cbn [fixEscapingFrom]. now rewrite IH. }
  destruct (Ascii.eqb c JS.backslash) eqn:Hbs.
  { cbn [fixEscapingFrom]. now rewrite Hbs, IH. }
  destruct (Ascii.eqb c JS.dquote) eqn:Hdq.
  { cbn [fixEscapingFrom]. now rewrite Hbs, Hdq, IH. }
  destruct inStr.
  2: { cbn [fixEscapingFrom]. now rewrite Hbs, Hdq, IH. }
  assert (Hesc : forall x rest,
            Ascii.eqb x JS.backslash = false ->
            fixEscapingFrom (String JS.backslash (String x rest)) true false
            = String JS.backslash (String x (fixEscapingFrom rest true false))).
  { intros x rest Hx. cbn [fixEscapingFrom].
    change (Ascii.eqb JS.backslash JS.backslash) with true. reflexivity. }
  destruct (Ascii.eqb c JS.LF) eqn:Hlf.
  { rewrite !append_cons. change (EmptyString ++ ?x) with x.
    rewrite Hesc by reflexivity. now rewrite IH. }
  destruct (Ascii.eqb c JS.CR) eqn:Hcr.
  { rewrite !append_cons. change (EmptyString ++ ?x) with x.
    rewrite Hesc by reflexivity. now rewrite IH. }
  destruct (Ascii.eqb c JS.TAB) eqn:Htab.
  { rewrite !append_cons. change (EmptyString ++ ?x) with x.
    rewrite Hesc by reflexivity. now rewrite IH. }
  destruct (JS.charCode c <? 32)%N eqn:Hctl.
  - unfold hex4. rewrite !append_cons. change (EmptyString ++ ?x) with x.
    rewrite Hesc by reflexivity.
    apply N.ltb_lt in Hctl.
    assert (Hhi : (JS.charCode c / 16 < 16)%N)
      by (apply N.Div0.div_lt_upper_bound; lia).
    assert (Hlo : (JS.charCode c mod 16 < 16)%N) by (apply N.mod_lt; lia).
    destruct (hexDigit_plain _ Hhi) as (A1 & A2 & A3 & A4 & A5 & A6).
    destruct (hexDigit_plain _ Hlo) as (B1 & B2 & B3 & B4 & B5 & B6).
    rewrite (fixEscapingFrom_plain "0") by reflexivity.
    rewrite (fixEscapingFrom_plain "0") by reflexivity.
    rewrite fixEscapingFrom_plain by assumption.
    rewrite fixEscapingFrom_plain by assumption.
    now rewrite IH.
  - rewrite !append_cons. change (EmptyString ++ ?x) with x.
    rewrite fixEscapingFrom_plain by assumption. now rewrite IH.
Qed.

(** X8.  Escaping is stable: a second pass over its own output changes
    nothing. *)
Theorem fixStringEscaping_is_idempotent (s : string) :
  fixStringEscaping (fixStringEscaping s) = fixStringEscaping s.
Proof. apply fixEscapingFrom_idempotent. Qed.

End RepairStability.

Lemma closeOpenBrackets_is_idempotent_witness :
  Repair.scan (Repair.closeOpenBrackets (JS.fixture "{'a': [1, {'b': 'c"))
              Repair.scanStart
  = Repair.scanStart /\
  Repair.closeOpenBrackets (Repair.closeOpenBrackets (JS.fixture "{'a': [1, {'b': 'c"))
  = Repair.closeOpenBrackets (JS.fixture "{'a': [1, {'b': 'c").
Proof.
  apply (closeOpenBrackets_is_idempotent (JS.fixture "{'a': [1, {'b': 'c")).
  vm_compute. reflexivity.
Defined.

(** ** What the comma passes leave alone *)

Section CommaPasses.

Import Json Repair.

(** The text without its commas and its white space. *)
Fixpoint significant (s : string) : string :=
  match s with
  | EmptyString => EmptyString
  | String c s' =>
      if Ascii.eqb c "," || JS.isSpace c then significant s'
      else String c (significant s')
  end.

Lemma significant_app (a b : string) :
  significant (a ++ b) = significant a ++ significant b.
Proof.
  induction a as [| c a IH]; [reflexivity |].
  rewrite append_cons. cbn [significant].
  destruct (Ascii.eqb c "," || JS.isSpace c); [exact IH |].
  now rewrite append_cons, IH.
Qed.

Lemma span_spaces (r ws r' : string) :
  JS.span JS.isSpace r = (ws, r') -> r = ws ++ r' /\ significant ws = EmptyString.
Proof.
  revert ws r'. induction r as [| c r IH]; intros ws r'; cbn [JS.span].
  - intros [= <- <-]. now split.
  - destruct (JS.isSpace c) eqn:Hc.
    + destruct (JS.span JS.isSpace r) as [a b]. intros [= <- <-].
      destruct (IH a b eq_refl) as [-> Ha]. split.
      * now rewrite append_cons.
      * cbn [significant]. now rewrite Hc, orb_true_r.
    + intros [= <- <-]. now split.
Qed.

Lemma matchPair_shape (x : ascii) (y : ascii -> bool) (s ws rest : string) (d : ascii) :
  matchPair x y s = Some (ws, d, rest) ->
  s = String x (ws ++ String d rest) /\ significant ws = EmptyString.
Proof.
  unfold matchPair. destruct s as [| c r]; [discriminate |].
  destruct (Ascii.eqb c x) eqn:Hc; [| discriminate].
  apply Ascii.eqb_eq in Hc. subst c.
  destruct (JS.span JS.isSpace r) as [a r'] eqn:Hspan.
  destruct r' as [| e rest']; [discriminate |].
  destruct (y e); [| discriminate].
  intros [= <- <- <-].
  destruct (span_spaces r a (String e rest') Hspan) as [-> Ha]. now split.
Qed.

Lemma substring_beyond (t : string) (n k1 k2 : nat) :
  (String.length t <= n + k1)%nat -> (String.length t <= n + k2)%nat ->
  String.substring n k1 t = String.substring n k2 t.
Proof.
  revert n k1 k2. induction t as [| c t IH]; intros n k1 k2 H1 H2.
  - destruct n, k1, k2; reflexivity.
  - destruct n as [| n].
    + destruct k1 as [| k1]; [cbn in H1; lia |].
      destruct k2 as [| k2]; [cbn in H2; lia |].
      cbn [String.substring]. f_equal. apply IH; cbn in *; lia.
    + cbn [String.substring]. apply IH; cbn in *; lia.
Qed.

Lemma startsWith_split (p s : string) :
  JS.startsWith p s = true ->
  s = p ++ String.substring (String.length p) (String.length s) s.
Proof.
  revert s. induction p as [| a p IH]; intros s.
  - intros _. cbn [String.length]. change (EmptyString ++ ?x) with x.
    symmetry. apply substring_all. lia.
  - destruct s as [| b s]; [discriminate |]. cbn [JS.startsWith].
    intros H. apply andb_prop in H. destruct H as [Hab Hp].
    apply Ascii.eqb_eq in Hab. subst b.
    rewrite append_cons. cbn [String.length String.substring]. f_equal.
    rewrite (IH s Hp) at 1. f_equal. apply substring_beyond; lia.
Qed.

(** What a pattern replaces differs from its replacement in commas and
    white space only. *)
Definition keepsSignificant (m : string -> option (string * string)) : Prop :=
  forall s replacement rest,
    m s = Some (replacement, rest) ->
    significant s = significant replacement ++ significant rest.

Lemma trailingComma_keeps : keepsSignificant trailingComma.
Proof.
  intros s rep rest. unfold trailingComma.
  destruct (matchPair "," (isOneOf "]}") s) as [[[ws d] r] |] eqn:Hm; [| discriminate].
  intros [= <- <-]. destruct (matchPair_shape _ _ _ _ _ _ Hm) as [-> Hws].
  cbn [significant Ascii.eqb Bool.eqb orb].
  rewrite !significant_app, Hws.
  change (String d r) with (String d EmptyString ++ r).
  now rewrite significant_app.
Qed.

Lemma valueEnd_shape (s g r : string) :
  valueEnd s = Some (g, r) -> s = g ++ r.
Proof.
  unfold valueEnd. destruct s as [| c t]; [discriminate |].
  destruct (Ascii.eqb c JS.dquote || isDigit c || isOneOf "]}" c).
  { now intros [= <- <-]. }
  destruct (JS.startsWith "true" (String c t)) eqn:H1.
  { intros [= <- <-]. now apply startsWith_split in H1. }
  destruct (JS.startsWith "false" (String c t)) eqn:H2.
  { intros [= <- <-]. now apply startsWith_split in H2. }
  destruct (JS.startsWith "null" (String c t)) eqn:H3; [| discriminate].
  intros [= <- <-]. now apply startsWith_split in H3.
Qed.

Lemma missingComma_keeps : keepsSignificant missingComma.
Proof.
  intros s rep rest. unfold missingComma.
  destruct (valueEnd s) as [[g r] |] eqn:Hv; [| discriminate].
  destruct (JS.span JS.isSpace r) as [ws r'] eqn:Hspan.
  destruct r' as [| d rest']; [discriminate |].
  destruct (_ && _); [| discriminate].
  intros [= <- <-].
  rewrite (valueEnd_shape s g r Hv).
  destruct (span_spaces r ws (String d rest') Hspan) as [-> Hws].
  rewrite !significant_app, Hws.
  change (String d rest') with (String d EmptyString ++ rest').
  rewrite significant_app.
  change (significant ",") with EmptyString.
  change (EmptyString ++ ?x) with x.
  now rewrite append_assoc.
Qed.

Lemma commaBetween_keeps (x y : ascii) : keepsSignificant (commaBetween x y).
Proof.
  intros s rep rest. unfold commaBetween.
  destruct (matchPair x (Ascii.eqb y) s) as [[[ws d] r] |] eqn:Hm; [| discriminate].
  intros [= <- <-]. destruct (matchPair_shape _ _ _ _ _ _ Hm) as [-> Hws].
  change (String x (ws ++ String d r))
    with (String x EmptyString ++ (ws ++ String d r)).
  change (String x ("," ++ ws ++ String d EmptyString))
    with (String x EmptyString ++ ("," ++ ws ++ String d EmptyString)).
  rewrite !significant_app, Hws.
  change (String d r) with (String d EmptyString ++ r).
  rewrite significant_app.
  change (significant ",") with EmptyString.
  change (EmptyString ++ ?x) with x.
  now rewrite !append_assoc.
Qed.

Lemma doubleComma_keeps : keepsSignificant doubleComma.
Proof.
  intros s rep rest. unfold doubleComma.
  destruct (matchPair "," (Ascii.eqb ",") s) as [[[ws d] r] |] eqn:Hm; [| discriminate].
  intros [= <- <-].
  assert (Hd : d = ","%char).
  { unfold matchPair in Hm. destruct s as [| c t]; [discriminate |].
    destruct (Ascii.eqb c ","); [| discriminate].
    destruct (JS.span JS.isSpace t) as [a r']. destruct r' as [| e rest']; [discriminate |].
    destruct (Ascii.eqb "," e) eqn:He; [| discriminate].
    apply Ascii.eqb_eq in He. now injection Hm as _ <- _. }
  destruct (matchPair_shape _ _ _ _ _ _ Hm) as [-> Hws]. subst d.
  cbn [significant Ascii.eqb Bool.eqb orb].
  rewrite significant_app, Hws. reflexivity.
Qed.

Lemma replaceAll_keeps (m : string -> option (string * string)) (fuel : nat)
      (s : string) :
  keepsSignificant m -> significant (replaceAll m fuel s) = significant s.
Proof.
  intros Hm. revert s. induction fuel as [| fuel IH]; intros s; [reflexivity |].
  cbn [replaceAll]. destruct (m s) as [[rep rest] |] eqn:Hs.
  - now rewrite significant_app, IH, (Hm s rep rest Hs).
  - destruct s as [| c s]; [reflexivity |].
    cbn [significant]. now rewrite IH.
Qed.

(** X9.  Steps 1 to 7 of [repairJSON] add and remove nothing but commas
    and white space: the text that is left when both are taken out is the
    same before and after. *)
Theorem commaPasses_changes_only_commas_and_space (jsonStr : string) :
  significant (commaPasses jsonStr) = significant jsonStr.
Proof.
  unfold commaPasses, Repair.replace. cbv zeta.
  rewrite !replaceAll_keeps;
    auto using trailingComma_keeps, missingComma_keeps, commaBetween_keeps,
               doubleComma_keeps.
Qed.

End CommaPasses.

(** ** Replies in a code fence and replies without a candidate *)

Section FencedReplies.

Import Json Repair.

(** No character of the text is [c]. *)
Fixpoint lacks (c : ascii) (s : string) : bool :=
  match s with
  | EmptyString => true
  | String d s' => negb (Ascii.eqb d c) && lacks c s'
  end.

(** Every character of the text is white space for [trim] and [\s]. *)
Fixpoint allSpace (s : string) : bool :=
  match s with
  | EmptyString => true
  | String c s' => JS.isSpace c && allSpace s'
  end.

Lemma isSpace_cases (c : ascii) :
  JS.isSpace c = true ->
  c = JS.TAB \/ c = JS.LF \/ c = "011"%char \/ c = "012"%char \/ c = JS.CR
  \/ c = " "%char \/ c = "160"%char.
Proof.
  destruct c as [[] [] [] [] [] [] [] []]; cbn; intros H;
    try discriminate H; auto 10.
Qed.

Ltac each_space c H :=
  destruct (isSpace_cases c H) as [-> | [-> | [-> | [-> | [-> | [-> | ->]]]]]].

(** *** Reversal and trimming *)

Lemma rev_onto_app (s acc : string) : JS.rev_onto s acc = JS.rev s ++ acc.
Proof.
  unfold JS.rev. revert acc. induction s as [| c s IH]; intros acc; [reflexivity |].
  cbn [JS.rev_onto]. rewrite IH, (IH (String c EmptyString)).
  now rewrite append_assoc.
Qed.

Lemma rev_cons (c : ascii) (s : string) :
  JS.rev (String c s) = JS.rev s ++ String c EmptyString.
Proof. unfold JS.rev at 1. cbn [JS.rev_onto]. apply rev_onto_app. Qed.

Lemma rev_app (a b : string) : JS.rev (a ++ b) = JS.rev b ++ JS.rev a.
Proof.
  induction a as [| c a IH].
  - change (EmptyString ++ b) with b. change (JS.rev EmptyString) with EmptyString.
    now rewrite append_nil_r.
  - rewrite append_cons, !rev_cons, IH. apply append_assoc.
Qed.

Lemma rev_involutive (s : string) : JS.rev (JS.rev s) = s.
Proof.
  induction s as [| c s IH]; [reflexivity |].
  rewrite rev_cons, rev_app, IH. reflexivity.
Qed.

Lemma allSpace_app (a b : string) :
  allSpace (a ++ b) = allSpace a && allSpace b.
Proof.
  induction a as [| c a IH]; [reflexivity |].
  rewrite append_cons. cbn [allSpace]. now rewrite IH, andb_assoc.
Qed.

Lemma allSpace_rev (s : string) : allSpace (JS.rev s) = allSpace s.
Proof.
  induction s as [| c s IH]; [reflexivity |].
  rewrite rev_cons, allSpace_app, IH. cbn [allSpace].
  rewrite andb_true_r. apply andb_comm.
Qed.

Lemma trimStart_split (s : string) :
  exists w, s = w ++ JS.trimStart s /\ allSpace w = true.
Proof.
  induction s as [| c s (w & Hs & Hw)]; [now exists EmptyString |].
  cbn [JS.trimStart]. destruct (JS.isSpace c) eqn:Hc.
  - exists (String c w). rewrite append_cons, <- Hs. cbn [allSpace].
    now rewrite Hc, Hw.
  - now exists EmptyString.
Qed.

Lemma trimStart_skip (w x : string) :
  allSpace w = true -> JS.trimStart (w ++ x) = JS.trimStart x.
Proof.
  induction w as [| c w IH]; intros Hw; [reflexivity |].
  cbn [allSpace] in Hw. apply andb_prop in Hw. destruct Hw as [Hc Hw].
  rewrite append_cons. cbn [JS.trimStart]. rewrite Hc. now apply IH.
Qed.

Lemma trimStart_fixed (x y : string) :
  JS.trimStart x <> EmptyString ->
  JS.trimStart (JS.trimStart x ++ y) = JS.trimStart x ++ y.
Proof.
  induction x as [| c x IH]; intros Hne; [contradiction |].
  cbn [JS.trimStart] in *. destruct (JS.isSpace c) eqn:Hc; [now apply IH |].
  rewrite append_cons. cbn [JS.trimStart]. now rewrite Hc.
Qed.

Lemma trimEnd_split (s : string) :
  exists w, s = JS.trimEnd s ++ w /\ allSpace w = true.
Proof.
  destruct (trimStart_split (JS.rev s)) as (w & Hs & Hw).
  exists (JS.rev w). split.
  - rewrite <- (rev_involutive s) at 1. rewrite Hs at 1. now rewrite rev_app.
  - now rewrite allSpace_rev.
Qed.

Lemma trimEnd_skip (x w : string) :
  allSpace w = true -> JS.trimEnd (x ++ w) = JS.trimEnd x.
Proof.
  intros Hw. unfold JS.trimEnd. rewrite rev_app, trimStart_skip; [reflexivity |].
  now rewrite allSpace_rev.
Qed.

Lemma span_trimStart (s : string) :
  snd (JS.span JS.isSpace s) = JS.trimStart s.
Proof.
  induction s as [| c s IH]; [reflexivity |].
  cbn [JS.span JS.trimStart]. destruct (JS.isSpace c); [| reflexivity].
  destruct (JS.span JS.isSpace s). exact IH.
Qed.

(** *** White space around a document *)

(** At white space, the scanner is between tokens or ends a number there;
    inside a string it goes on, and anywhere else it fails. *)
Lemma lexFrom_spaces_end (w : string) (st : lexState) (toks : list token) :
  allSpace w = true -> lexFrom st w = Some toks -> lexEnd st = Some toks.
Proof.
  revert st toks. induction w as [| c w IH]; intros st toks Hw; [trivial |].
  cbn [allSpace] in Hw. apply andb_prop in Hw. destruct Hw as [Hc Hw].
  rewrite lexFrom_cons.
  destruct (lexStep st c) as [[st' em] |] eqn:Hstep; [| discriminate].
  destruct (lexFrom st' w) as [more |] eqn:Hmore; [| discriminate].
  cbn [option_map]. intros [= <-].
  pose proof (IH st' more Hw Hmore) as Hend.
  destruct st as [| acc | acc | acc ds | l seen | ns acc].
  - cbn [lexStep] in Hstep.
    each_space c Hc; vm_compute in Hstep; try discriminate Hstep;
      injection Hstep as <- <-; exact Hend.
  - each_space c Hc; vm_compute in Hstep; try discriminate Hstep;
      injection Hstep as <- <-; discriminate Hend.
  - each_space c Hc; vm_compute in Hstep; discriminate Hstep.
  - each_space c Hc; vm_compute in Hstep; discriminate Hstep.
  - destruct l; destruct seen as [| [| [| [| [| seen]]]]];
      each_space c Hc; vm_compute in Hstep; discriminate Hstep.
  - cbn [lexStep] in Hstep.
    assert (Hnum : numStep ns c = None).
    { destruct ns; each_space c Hc; reflexivity. }
    rewrite Hnum in Hstep.
    destruct (numAccepting ns) eqn:Hacc; [| discriminate].
    cbn [lexEnd]. rewrite Hacc.
    each_space c Hc; cbn in Hstep; try discriminate Hstep;
      injection Hstep as <- <-; cbn [lexEnd] in Hend;
      injection Hend as <-; reflexivity.
Qed.

Lemma lexFrom_drop_trailing (x w : string) (st : lexState) (toks : list token) :
  allSpace w = true ->
  lexFrom st (x ++ w) = Some toks -> lexFrom st x = Some toks.
Proof.
  intros Hw. revert st toks. induction x as [| c x IH]; intros st toks.
  - change (EmptyString ++ w) with w. cbn [lexFrom]. now apply lexFrom_spaces_end.
  - rewrite append_cons, !lexFrom_cons.
    destruct (lexStep st c) as [[st' em] |]; [| discriminate].
    destruct (lexFrom st' (x ++ w)) as [more |] eqn:Hmore; [| discriminate].
    now rewrite (IH st' more Hmore).
Qed.

Lemma lexFrom_drop_leading (s : string) (toks : list token) :
  lexFrom LIdle s = Some toks -> lexFrom LIdle (JS.trimStart s) = Some toks.
Proof.
  revert toks. induction s as [| c s IH]; intros toks; [trivial |].
  cbn [JS.trimStart]. destruct (JS.isSpace c) eqn:Hc; [| trivial].
  rewrite lexFrom_cons. cbn [lexStep].
  destruct (idleStep c) as [[st' em] |] eqn:Hstep; [| discriminate].
  each_space c Hc; vm_compute in Hstep; try discriminate Hstep;
    injection Hstep as <- <-; rewrite option_map_nil_app; apply IH.
Qed.

(** [JSON.parse] accepts the trimmed text of any text it accepts. *)
Lemma JSON_parse_trim (s : string) (v : json) :
  JSON_parse s = Some v -> JSON_parse (JS.trim s) = Some v.
Proof.
  unfold JSON_parse, lex.
  destruct (lexFrom LIdle s) as [toks |] eqn:Hlex; [| discriminate].
  intros Hparse.
  apply lexFrom_drop_leading in Hlex.
  destruct (trimEnd_split (JS.trimStart s)) as (w & Hs & Hw).
  rewrite Hs in Hlex. apply (lexFrom_drop_trailing _ w _ _ Hw) in Hlex.
  unfold JS.trim. now rewrite Hlex.
Qed.

(** *** The two patterns of [extractJSON] *)

Lemma codeBlockMatch_unfold (s : string) :
  codeBlockMatch s
  = match
      (if JS.startsWith fence s then
         let r := String.substring 3 (String.length s) s in
         let r1 := match dropPrefix "json" r with
                   | Some r' => r'
                   | None => r
                   end in
         let '(_, r2) := JS.span JS.isSpace r1 in
         match JS.splitAt fence r2 with
         | Some (group, _) => Some group
         | None => None
         end
       else None)
    with
    | Some group => Some group
    | None =>
        match s with
        | EmptyString => None
        | String _ s' => codeBlockMatch s'
        end
    end.
Proof. destruct s; reflexivity. Qed.

Lemma startsWith_fence_cons (c : ascii) (s : string) :
  Ascii.eqb c "`" = false -> JS.startsWith fence (String c s) = false.
Proof.
  intros Hc. unfold fence. cbn [JS.startsWith].
  rewrite Ascii.eqb_sym, Hc. reflexivity.
Qed.

(** Text without a backtick before the first fence plays no part. *)
Lemma codeBlockMatch_skip (before x : string) :
  lacks "`" before = true -> codeBlockMatch (before ++ x) = codeBlockMatch x.
Proof.
  induction before as [| c before IH]; intros Hb; [reflexivity |].
  cbn [lacks] in Hb. apply andb_prop in Hb. destruct Hb as [Hc Hb].
  apply negb_true_iff in Hc.
  rewrite append_cons, codeBlockMatch_unfold.
  rewrite (startsWith_fence_cons c _ Hc). now apply IH.
Qed.

Lemma codeBlockMatch_none (s : string) :
  lacks "`" s = true -> codeBlockMatch s = None.
Proof.
  intros Hs. rewrite <- (append_nil_r s). now rewrite codeBlockMatch_skip.
Qed.

Lemma splitAt_fence (a b : string) :
  lacks "`" a = true -> JS.splitAt fence (a ++ fence ++ b) = Some (a, b).
Proof.
  induction a as [| c a IH]; intros Ha.
  - change (EmptyString ++ fence ++ b) with (String "`" (String "`" (String "`" b))).
    cbn [JS.splitAt]. unfold fence at 1. cbn [JS.startsWith].
    rewrite Ascii.eqb_refl. cbn [andb].
    unfold fence. cbn [String.length String.substring].
    rewrite substring_all by lia. reflexivity.
  - cbn [lacks] in Ha. apply andb_prop in Ha. destruct Ha as [Hc Ha].
    apply negb_true_iff in Hc.
    rewrite append_cons. cbn [JS.splitAt].
    rewrite (startsWith_fence_cons c _ Hc). now rewrite (IH Ha).
Qed.

Lemma lacks_app (c : ascii) (a b : string) :
  lacks c (a ++ b) = lacks c a && lacks c b.
Proof.
  induction a as [| d a IH]; [reflexivity |].
  rewrite append_cons. cbn [lacks]. now rewrite IH, andb_assoc.
Qed.

Lemma lacks_trimStart (c : ascii) (s : string) :
  lacks c s = true -> lacks c (JS.trimStart s) = true.
Proof.
  induction s as [| d s IH]; [trivial |].
  cbn [lacks JS.trimStart]. intros H. destruct (JS.isSpace d); [| exact H].
  apply andb_prop in H. now apply IH.
Qed.

Lemma allSpace_lacks_backtick (w : string) :
  allSpace w = true -> lacks "`" w = true.
Proof.
  induction w as [| c w IH]; [trivial |].
  cbn [allSpace lacks]. intros H. apply andb_prop in H. destruct H as [Hc Hw].
  rewrite (IH Hw), andb_true_r.
  each_space c Hc; reflexivity.
Qed.

Lemma JSON_parse_nonempty (s : string) (v : json) :
  JSON_parse s = Some v -> s <> EmptyString.
Proof. intros H ->. discriminate H. Qed.

(** The start of a document is not the word [json]. *)
Lemma document_not_tag (ws body rest : string) (v : json) :
  allSpace ws = true -> JSON_parse body = Some v ->
  dropPrefix "json" (ws ++ body ++ rest) = None.
Proof.
  intros Hws Hparse. unfold dropPrefix.
  replace (JS.startsWith "json" (ws ++ body ++ rest)) with false; [reflexivity |].
  symmetry. destruct ws as [| c ws].
  - change (EmptyString ++ body ++ rest) with (body ++ rest).
    destruct body as [| c body]; [discriminate Hparse |].
    rewrite append_cons. cbn [JS.startsWith].
    destruct (Ascii.eqb "j" c) eqn:Hj; [| reflexivity].
    apply Ascii.eqb_eq in Hj. subst c. discriminate Hparse.
  - cbn [allSpace] in Hws. apply andb_prop in Hws. destruct Hws as [Hc _].
    rewrite append_cons. cbn [JS.startsWith].
    each_space c Hc; reflexivity.
Qed.

(** The shape of a reply that follows the instruction of the prompts:
    any text, an opening fence with or without the word [json], white
    space, the document, white space, a closing fence, any text. *)
Definition fencedReply (before : string) (tagged : bool) (ws1 body ws2 after : string)
  : string :=
  before ++ fence ++ (if tagged then "json" else EmptyString)
  ++ ws1 ++ body ++ ws2 ++ fence ++ after.

Lemma codeBlockMatch_fenced (before : string) (tagged : bool)
      (ws1 body ws2 after : string) (v : json) :
  lacks "`" before = true -> lacks "`" body = true ->
  allSpace ws1 = true -> allSpace ws2 = true ->
  JSON_parse body = Some v ->
  codeBlockMatch (fencedReply before tagged ws1 body ws2 after)
  = Some (JS.trimStart body ++ ws2).
Proof.
  intros Hbefore Hbody Hws1 Hws2 Hparse. unfold fencedReply.
  rewrite codeBlockMatch_skip by exact Hbefore.
  rewrite codeBlockMatch_unfold.
  set (y := ws1 ++ body ++ ws2 ++ fence ++ after).
  set (x := (if tagged then "json" else EmptyString) ++ y).
  assert (Hstart : JS.startsWith fence (fence ++ x) = true) by reflexivity.
  rewrite Hstart.
  assert (Hr : String.substring 3 (String.length (fence ++ x)) (fence ++ x) = x).
  { unfold fence. rewrite !append_cons. change (EmptyString ++ x) with x.
    cbn [String.length String.substring]. apply substring_all. lia. }
  rewrite Hr. cbv zeta.
  assert (Hr1 : match dropPrefix "json" x with
                | Some r' => r'
                | None => x
                end = y).
  { subst x. destruct tagged.
    - rewrite !append_cons. change (EmptyString ++ y) with y.
      unfold dropPrefix. cbn [JS.startsWith]. rewrite !Ascii.eqb_refl. cbn [andb].
      cbn [String.length String.substring]. apply substring_all. lia.
    - change (EmptyString ++ y) with y. subst y.
      now rewrite (document_not_tag ws1 body _ v Hws1 Hparse). }
  rewrite Hr1.
  pose proof (span_trimStart y) as Hspan.
  destruct (JS.span JS.isSpace y) as [skipped r2]. cbn [snd] in Hspan. subst r2.
  assert (Hne : JS.trimStart body <> EmptyString).
  { intros Hempty. apply JSON_parse_trim in Hparse. unfold JS.trim in Hparse.
    rewrite Hempty in Hparse. discriminate Hparse. }
  assert (Hy : JS.trimStart y = (JS.trimStart body ++ ws2) ++ fence ++ after).
  { subst y. rewrite trimStart_skip by exact Hws1.
    destruct (trimStart_split body) as (w & Hb & Hw).
    rewrite Hb at 1. rewrite append_assoc, trimStart_skip by exact Hw.
    rewrite trimStart_fixed by exact Hne. now rewrite append_assoc. }
  rewrite Hy, splitAt_fence; [reflexivity |].
  rewrite lacks_app, (lacks_trimStart _ _ Hbody).
  now rewrite (allSpace_lacks_backtick ws2 Hws2).
Qed.

(** X10.  A reply that wraps a valid JSON document in a code fence, whatever
    text without a backtick comes before the fence and whatever text comes
    after it: [extractJSON] returns the value of the document, an array or a
    scalar as well as an object, at the first parse. *)
Theorem extractJSON_reads_fenced_document (before : string) (tagged : bool)
      (ws1 body ws2 after : string) (v : json) :
  lacks "`" before = true -> lacks "`" body = true ->
  allSpace ws1 = true -> allSpace ws2 = true ->
  JSON_parse body = Some v ->
  extractJSON (fencedReply before tagged ws1 body ws2 after)
  = Extraction (inr v) false None.
Proof.
  intros Hbefore Hbody Hws1 Hws2 Hparse.
  pose proof (JSON_parse_trim body v Hparse) as Htrim.
  assert (Hcand : candidate (fencedReply before tagged ws1 body ws2 after)
                  = Some (JS.trim body)).
  { unfold candidate.
    rewrite (codeBlockMatch_fenced before tagged ws1 body ws2 after v)
      by assumption.
    f_equal. unfold JS.trim.
    assert (Hne : JS.trimStart body <> EmptyString).
    { intros Hempty. unfold JS.trim in Htrim. rewrite Hempty in Htrim.
      discriminate Htrim. }
    rewrite trimStart_fixed by exact Hne. now apply trimEnd_skip. }
  unfold extractJSON. rewrite Hcand. cbn [JS.truthy].
  replace (String.eqb (JS.trim body) EmptyString) with false.
  - cbn [negb]. now rewrite Htrim.
  - symmetry. apply String.eqb_neq. now apply (JSON_parse_nonempty _ v).
Qed.

(** X11.  A reply with no backtick and no opening brace holds no candidate:
    [extractJSON] throws, without a parse or a repair attempt. *)
Theorem extractJSON_rejects_reply_without_candidate (reply : string) :
  lacks "`" reply = true -> lacks "{" reply = true ->
  extractJSON reply
  = Extraction (inl (AgentError "Could not extract JSON from response" None []))
               false None.
Proof.
  intros Hfence Hbrace. unfold extractJSON, candidate.
  rewrite (codeBlockMatch_none reply Hfence).
  replace (jsonMatch reply) with (@None string); [reflexivity |].
  symmetry. clear Hfence. induction reply as [| c reply IH]; [reflexivity |].
  cbn [lacks] in Hbrace. apply andb_prop in Hbrace. destruct Hbrace as [Hc Hr].
  apply negb_true_iff in Hc. cbn [jsonMatch]. rewrite Hc. now apply IH.
Qed.

End FencedReplies.

Lemma extractJSON_reads_fenced_document_witness :
  Repair.extractJSON
    (fencedReply "Here is the deck:
" true (String JS.LF EmptyString) (JS.fixture "[{'type': 'title'}, 12]")
       (String JS.LF EmptyString) "
Let me know if {anything} should change.")
  = Repair.Extraction
      (inr (Json.JArr [Json.obj [("type", Json.str "title")]; Json.JNum "12"]))
      false None.
Proof.
  apply (extractJSON_reads_fenced_document "Here is the deck:
" true (String JS.LF EmptyString) (JS.fixture "[{'type': 'title'}, 12]")
       (String JS.LF EmptyString) "
Let me know if {anything} should change.").
  - vm_compute. reflexivity.
  - vm_compute. reflexivity.
  - vm_compute. reflexivity.
  - vm_compute. reflexivity.
  - vm_compute. reflexivity.
Defined.

Lemma extractJSON_rejects_reply_without_candidate_witness :
  Repair.extractJSON "I could not find any data in the documents."
  = Repair.Extraction
      (inl (AgentError "Could not extract JSON from response" None []))
      false None.
Proof.
  apply (extractJSON_rejects_reply_without_candidate
           "I could not find any data in the documents.").
  - vm_compute. reflexivity.
  - vm_compute. reflexivity.
Defined.

(** ** Verdicts of the validators *)

Section ValidatorVerdicts.

Import Json Value Validate.

(** The [slides] member is an array. *)
Definition hasSlidesArray (doc : json) : Prop :=
  exists slides, get doc "slides" = Some (JArr slides).

(** Where the loop over the slides throws: at a slide without citations
    whose type has no string form. *)
Lemma citationWarnings_throws_at (slides : list json) (e : thrown) :
  citationWarnings slides = inl e ->
  e = TypeError /\
  exists s v, In s slides /\ uncited s = true /\
              get s "type" = Some v /\ printable v = false.
Proof.
  induction slides as [| s slides IH]; [discriminate |].
  cbn [citationWarnings]. fold (uncited s).
  assert (Hrest : match citationWarnings slides with
                  | inl e' => inl e'
                  | inr ws' => inr ws'
                  end = citationWarnings slides)
    by now destruct (citationWarnings slides).
  destruct (uncited s) eqn:Hu.
  - unfold citationWarning.
    destruct (get s "type") as [v |] eqn:Hv.
    + destruct (printable v) eqn:Hp.
      * destruct (citationWarnings slides) as [e' | ws]; [| discriminate].
        intros [= <-]. destruct (IH eq_refl) as (-> & s' & v' & Hin & H).
        split; [reflexivity |]. exists s', v'. split; [now right | exact H].
      * intros [= <-]. split; [reflexivity |].
        exists s, v. repeat split; try assumption. now left.
    + destruct (citationWarnings slides) as [e' | ws]; [| discriminate].
      intros [= <-]. destruct (IH eq_refl) as (-> & s' & v' & Hin & H).
      split; [reflexivity |]. exists s', v'. split; [now right | exact H].
  - destruct (citationWarnings slides) as [e' | ws]; [| discriminate].
    intros [= <-]. destruct (IH eq_refl) as (-> & s' & v' & Hin & H).
    split; [reflexivity |]. exists s', v'. split; [now right | exact H].
Qed.

(** X12.  [validateSynthesisOutput] never throws an [AgentError]: without an
    array of slides it returns [valid: false] with the one error, with an
    array it returns [valid: true] without errors; the only thing it can
    throw is a [TypeError]: of reading a property of [null] (the output or
    a slide), or of printing, in the warning about a slide without
    citations, a type that has no string form. *)
Theorem validateSynthesisOutput_reports_without_raising (output : json) :
  match validateSynthesisOutput output with
  | inr r =>
      match get output "slides" with
      | Some (JArr _) => valid r = true /\ errors r = []
      | _ => valid r = false /\ errors r = ["Missing or invalid slides array"]
      end
  | inl TypeError =>
      output = JNull \/
      exists slides, get output "slides" = Some (JArr slides) /\
        (In JNull slides \/
         exists s v, In s slides /\ uncited s = true /\
                     get s "type" = Some v /\ printable v = false)
  | inl (Thrown _) => False
  end.
Proof.
  unfold validateSynthesisOutput.
  destruct (read (Some output) "company") as [e | company] eqn:Hread.
  { destruct output; cbn in Hread; try discriminate Hread.
    injection Hread as <-. now left. }
  destruct (get output "slides") as [[| | | | slides |] |] eqn:Hslides;
    try (cbn; now split).
  destruct (types slides) as [e | found] eqn:Htypes.
  - destruct (types_throws slides e Htypes) as [-> Hin].
    right. exists slides. split; [reflexivity | now left].
  - destruct (citationWarnings slides) as [e | ws] eqn:Hws.
    + destruct (citationWarnings_throws_at slides e Hws) as [-> Hat].
      right. exists slides. split; [reflexivity | now right].
    + cbn. now split.
Qed.

(** X13.  [validateDeckConfig] never returns a verdict that is not valid: when
    it returns, the configuration has a company name and an array of
    slides; and the [AgentError] it throws is for a configuration that
    lacks one of the two. *)
Theorem validateDeckConfig_passes_or_raises (config : json) :
  match validateDeckConfig config with
  | inr r =>
      valid r = true /\ errors r = [] /\
      hasCompanyName config /\ hasSlidesArray config
  | inl (Thrown e) =>
      name e = AgentErrorName /\ originalError e = None /\
      (~ hasCompanyName config \/ ~ hasSlidesArray config)
  | inl TypeError =>
      config = JNull \/
      (truthy (get config "slides") = true /\ ~ hasSlidesArray config) \/
      exists slides, get config "slides" = Some (JArr slides) /\ In JNull slides
  end.
Proof.
  unfold validateDeckConfig, hasCompanyName, hasSlidesArray.
  destruct (read (Some config) "company") as [e | company] eqn:Hread.
  { destruct config; cbn in Hread; try discriminate Hread.
    injection Hread as <-. now left. }
  assert (Hcompany : company = get config "company").
  { destruct config; cbn in Hread |- *; congruence. }
  subst company.
  destruct (get config "slides") as [[| b | l | s | slides |] |] eqn:Hslides;
    cbn [truthy].
  - (* null *)
    destruct (truthy (readOpt (get config "company") "name"));
      cbn; repeat split; right; intros (x & Hx); discriminate Hx.
  - destruct b.
    + right. left. split; [reflexivity | intros (x & Hx); discriminate Hx].
    + destruct (truthy (readOpt (get config "company") "name"));
        cbn; repeat split; right; intros (x & Hx); discriminate Hx.
  - destruct (negb (numberIsZero l)) eqn:Hz.
    + right. left. split; [reflexivity | intros (x & Hx); discriminate Hx].
    + destruct (truthy (readOpt (get config "company") "name"));
        cbn; repeat split; right; intros (x & Hx); discriminate Hx.
  - destruct (negb (bool_decide (s = []))) eqn:Hz.
    + right. left. split; [reflexivity | intros (x & Hx); discriminate Hx].
    + destruct (truthy (readOpt (get config "company") "name"));
        cbn; repeat split; right; intros (x & Hx); discriminate Hx.
  - destruct (types slides) as [e | found] eqn:Htypes.
    + destruct (types_throws slides e Htypes) as [-> Hin].
      right. right. now exists slides.
    + destruct (truthy (readOpt (get config "company") "name")) eqn:Hname;
        cbn.
      * repeat split. now exists slides.
      * repeat split. left. discriminate.
  - right. left. split; [reflexivity | intros (x & Hx); discriminate Hx].
  - destruct (truthy (readOpt (get config "company") "name"));
      cbn; repeat split; right; intros (x & Hx); discriminate Hx.
Qed.

End ValidatorVerdicts.

(** ** Citation index *)

Section CitationFacts.

Import Citations.

(** Every citation of the output with the type of its slide, in the
    order of the document. *)
Definition entriesOf (slides : list slide) : list entry :=
  flat_map (fun s => map (fun c => Entry c (type s)) (citations s)) slides.

Definition fromSource (k : string) (e : entry) : bool :=
  String.eqb (sourceKey (cited e)) k.

(** What the index holds once the entries [seen] have been read. *)
Definition indexes (idx : index) (seen : list entry) : Prop :=
  totalCitations idx = length seen /\
  (forall k, default [] (bySource idx !! k) = List.filter (fromSource k) seen) /\
  lowConfidence idx = List.filter (fun e => isLow (cited e)) seen.

Lemma addCitation_indexes (t : option string) (idx idx' : index) (c : citation)
      (seen : list entry) :
  indexes idx seen ->
  addCitation t idx c = inr idx' ->
  indexes idx' (seen ++ [Entry c t]).
Proof.
  intros (Htot & Hsrc & Hlow). unfold addCitation.
  assert (Hgoal : forall l,
            default [] (bySource idx !! sourceKey c) = l ->
            indexes
              (Index (extractedAt idx) (S (totalCitations idx))
                     (alter (fun l => l ++ [c])%list (typeKey t) (bySlide idx))
                     (<[sourceKey c := (l ++ [Entry c t])%list]> (bySource idx))
                     (if isLow c then (lowConfidence idx ++ [Entry c t])%list
                      else lowConfidence idx))
              (seen ++ [Entry c t])).
  { intros l Hl. repeat split; cbn [totalCitations bySource lowConfidence].
    - rewrite length_app, Htot. cbn. lia.
    - intros k. rewrite List.filter_app. cbn [List.filter].
      change (fromSource k (Entry c t)) with (String.eqb (sourceKey c) k).
      destruct (String.eqb (sourceKey c) k) eqn:Hk.
      + apply String.eqb_eq in Hk. subst k.
        rewrite lookup_insert_eq. cbn [default id]. now rewrite <- Hl, Hsrc.
      + apply String.eqb_neq in Hk.
        rewrite lookup_insert_ne by exact Hk.
        now rewrite app_nil_r, Hsrc.
    - rewrite List.filter_app. cbn [List.filter cited].
      destruct (isLow c); [now rewrite Hlow | now rewrite app_nil_r, Hlow]. }
  destruct (bySource idx !! sourceKey c) as [l |] eqn:Hl in Hgoal |- *.
  - intros [= <-]. apply (Hgoal l). reflexivity.
  - destruct (JS.arrayIncludes objectPrototypeKeys (sourceKey c)); [discriminate |].
    intros [= <-]. apply (Hgoal []). reflexivity.
Qed.

Lemma addCitations_indexes (t : option string) (cs : list citation)
      (idx idx' : index) (seen : list entry) :
  indexes idx seen ->
  foldThrow (addCitation t) cs idx = inr idx' ->
  indexes idx' (seen ++ map (fun c => Entry c t) cs).
Proof.
  revert idx seen. induction cs as [| c cs IH]; intros idx seen Hidx.
  - cbn. intros [= <-]. now rewrite app_nil_r.
  - cbn [foldThrow map].
    destruct (addCitation t idx c) as [e | idx1] eqn:Hadd; [discriminate |].
    intros Hrest.
    replace (seen ++ Entry c t :: map (fun c => Entry c t) cs)%list
      with ((seen ++ [Entry c t]) ++ map (fun c => Entry c t) cs)%list
      by now rewrite <- app_assoc.
    apply (IH idx1); [| exact Hrest].
    now apply (addCitation_indexes t idx).
Qed.

Lemma addSlides_indexes (slides : list slide) (idx idx' : index) (seen : list entry) :
  indexes idx seen ->
  foldThrow addSlide slides idx = inr idx' ->
  indexes idx' (seen ++ entriesOf slides).
Proof.
  revert idx seen. induction slides as [| s slides IH]; intros idx seen Hidx.
  - cbn. intros [= <-]. now rewrite app_nil_r.
  - cbn [foldThrow].
    destruct (addSlide idx s) as [e | idx1] eqn:Hadd; [discriminate |].
    intros Hrest. unfold entriesOf. cbn [flat_map]. rewrite app_assoc.
    apply (IH idx1); [| exact Hrest].
    unfold addSlide in Hadd.
    eapply (addCitations_indexes (type s) (citations s)); [| exact Hadd].
    exact Hidx.
Qed.

(** X14.  The index that [extractAllCitations] returns groups the citations
    of the output by source: [totalCitations] counts every citation of
    every slide, the list under a source holds exactly the citations
    with that source (those without one under [unknown]), in the order of
    the document, and [lowConfidence] holds exactly those with a
    confidence that is not 0 and is below 0.7. *)
Theorem extractAllCitations_groups_by_source
    (now : string) (slides : list slide) (idx : index) :
  extractAllCitations now slides = inr idx ->
  totalCitations idx = length (entriesOf slides) /\
  (forall k, default [] (bySource idx !! k)
             = List.filter (fromSource k) (entriesOf slides)) /\
  lowConfidence idx = List.filter (fun e => isLow (cited e)) (entriesOf slides).
Proof.
  intros Hrun.
  apply (addSlides_indexes slides (Index now 0 ∅ ∅ []) idx [] ); [| exact Hrun].
  repeat split.
Qed.

(** The slide whose citations [bySlide] lists under a name: the last one
    of that type. *)
Definition lastOfType (k : string) (slides : list slide) : option slide :=
  fold_left (fun found s => if String.eqb (typeKey (type s)) k then Some s else found)
            slides None.

Lemma addCitation_bySlide (t : option string) (idx idx' : index) (c : citation) :
  addCitation t idx c = inr idx' ->
  bySlide idx' = alter (fun l => l ++ [c])%list (typeKey t) (bySlide idx).
Proof.
  unfold addCitation.
  destruct (bySource idx !! sourceKey c).
  - now intros [= <-].
  - destruct (JS.arrayIncludes objectPrototypeKeys (sourceKey c)); [discriminate |].
    now intros [= <-].
Qed.

Lemma addCitations_bySlide (t : option string) (cs : list citation)
      (idx idx' : index) :
  foldThrow (addCitation t) cs idx = inr idx' ->
  bySlide idx' = alter (fun l => l ++ cs)%list (typeKey t) (bySlide idx).
Proof.
  revert idx. induction cs as [| c cs IH]; intros idx.
  - cbn. intros [= <-]. apply map_eq. intros k.
    destruct (decide (k = typeKey t)) as [-> | Hk].
    + rewrite lookup_alter_eq. destruct (bySlide idx !! typeKey t); cbn;
        [now rewrite app_nil_r | reflexivity].
    + now rewrite lookup_alter_ne.
  - cbn [foldThrow].
    destruct (addCitation t idx c) as [e | idx1] eqn:Hadd; [discriminate |].
    intros Hrest. rewrite (IH idx1 Hrest), (addCitation_bySlide t idx idx1 c Hadd).
    apply map_eq. intros k.
    destruct (decide (k = typeKey t)) as [-> | Hk].
    + rewrite !lookup_alter_eq. destruct (bySlide idx !! typeKey t); cbn;
        [now rewrite <- app_assoc | reflexivity].
    + now rewrite !lookup_alter_ne.
Qed.

Lemma addSlides_bySlide (slides : list slide) (idx idx' : index) (k : string)
      (found : option slide) :
  k <> "__proto__" ->
  bySlide idx !! k = option_map citations found ->
  foldThrow addSlide slides idx = inr idx' ->
  bySlide idx' !! k
  = option_map citations
      (fold_left (fun found s => if String.eqb (typeKey (type s)) k then Some s else found)
                 slides found).
Proof.
  intros Hk. revert idx found. induction slides as [| s slides IH]; intros idx found Hidx.
  - cbn. now intros [= <-].
  - cbn [foldThrow fold_left].
    destruct (addSlide idx s) as [e | idx1] eqn:Hadd; [discriminate |].
    apply IH. unfold addSlide in Hadd.
    rewrite (addCitations_bySlide _ _ _ _ Hadd). cbn [bySlide].
    destruct (String.eqb (typeKey (type s)) k) eqn:Hs.
    + apply String.eqb_eq in Hs. rewrite Hs.
      replace (String.eqb k "__proto__") with false
        by (symmetry; now apply String.eqb_neq).
      rewrite lookup_alter_eq, lookup_insert_eq. reflexivity.
    + apply String.eqb_neq in Hs.
      rewrite lookup_alter_ne by congruence.
      destruct (String.eqb (typeKey (type s)) "__proto__");
        [exact Hidx | now rewrite lookup_insert_ne].
Qed.

(** X15.  [bySlide] is written anew for every slide: under a type it lists
    the citations of the last slide of that type only, while
    [totalCitations] counts the citations of the earlier slides of the
    type as well. *)
Theorem extractAllCitations_lists_last_slide_of_a_type
    (now : string) (slides : list slide) (idx : index) (k : string) :
  extractAllCitations now slides = inr idx ->
  k <> "__proto__" ->
  bySlide idx !! k = option_map citations (lastOfType k slides).
Proof.
  intros Hrun Hk. unfold lastOfType.
  apply (addSlides_bySlide slides (Index now 0 ∅ ∅ []) idx k None Hk);
    [apply lookup_empty | exact Hrun].
Qed.

End CitationFacts.

(** Two slides of the same type, citing the same report; one citation has
    confidence 0. *)
Definition citedTwice : list Citations.slide :=
  [ Citations.Slide (Some "traction")
      [ Citations.Citation (Json.str "ARR of 2M") (Some "report.txt") (Some (Cost.usd 9 10));
        Citations.Citation (Json.str "40 customers") None (Some (Cost.usd 1 2)) ];
    Citations.Slide (Some "traction")
      [ Citations.Citation (Json.str "churn under 2%") (Some "report.txt") (Some 0%Qc) ] ].

Lemma extractAllCitations_groups_by_source_witness :
  exists idx,
    Citations.extractAllCitations "2026-01-01T00:00:00.000Z" citedTwice = inr idx /\
    Citations.totalCitations idx = 3%nat /\
    map (fun e => Citations.fact (Citations.cited e))
        (default [] (Citations.bySource idx !! "report.txt"))
    = [Json.str "ARR of 2M"; Json.str "churn under 2%"] /\
    map (fun e => Citations.fact (Citations.cited e)) (Citations.lowConfidence idx)
    = [Json.str "40 customers"].
Proof.
  destruct (Citations.extractAllCitations "2026-01-01T00:00:00.000Z" citedTwice)
    as [e | idx] eqn:Hrun; [vm_compute in Hrun; discriminate Hrun |].
  exists idx. split; [reflexivity |].
  destruct (extractAllCitations_groups_by_source _ _ _ Hrun) as (Htot & Hsrc & Hlow).
  rewrite Htot, Hsrc, Hlow. repeat split.
Defined.

Lemma extractAllCitations_lists_last_slide_of_a_type_witness :
  exists idx,
    Citations.extractAllCitations "2026-01-01T00:00:00.000Z" citedTwice = inr idx /\
    option_map (map Citations.fact) (Citations.bySlide idx !! "traction")
    = Some [Json.str "churn under 2%"].
Proof.
  destruct (Citations.extractAllCitations "2026-01-01T00:00:00.000Z" citedTwice)
    as [e | idx] eqn:Hrun; [vm_compute in Hrun; discriminate Hrun |].
  exists idx. split; [reflexivity |].
  rewrite (extractAllCitations_lists_last_slide_of_a_type _ _ _ "traction" Hrun)
    by discriminate.
  reflexivity.
Defined.

(** ** Prompt logger *)

Section PromptLogFacts.

Import PromptLog.

Definition byAgentName (a : string) (p : prompt) : bool :=
  String.eqb (agentName p) a.

Definition sumTokens (ps : list prompt) : Z :=
  fold_right (fun p sum => (tokenEstimate p + sum)%Z) 0%Z ps.

(** The group of the prompts [ps] of one agent. *)
Definition groupOf (ps : list prompt) : option group :=
  match ps with
  | [] => None
  | _ => Some (Group (length ps) (sumTokens ps) (map filename ps))
  end.

Definition groupCounts (m : gmap string group) : nat :=
  map_fold (fun _ g acc => (count g + acc)%nat) 0%nat m.

Definition groupTokens (m : gmap string group) : Z :=
  map_fold (fun _ g acc => (totalTokens g + acc)%Z) 0%Z m.

Lemma sumTokens_app (a b : list prompt) :
  sumTokens (a ++ b) = (sumTokens a + sumTokens b)%Z.
Proof.
  induction a as [| p a IH]; [reflexivity |].
  cbn. fold (sumTokens (a ++ b)). fold (sumTokens a). rewrite IH. lia.
Qed.

Lemma getTotalTokenEstimate_sum (ps : list prompt) :
  getTotalTokenEstimate ps = sumTokens ps.
Proof.
  unfold getTotalTokenEstimate.
  assert (H : forall acc, fold_left (fun sum p => (sum + tokenEstimate p)%Z) ps acc
                          = (acc + sumTokens ps)%Z).
  { induction ps as [| p ps IH]; intros acc; cbn; [lia |].
    fold (sumTokens ps). rewrite IH. lia. }
  rewrite H. lia.
Qed.

Lemma groupCounts_insert (m : gmap string group) (a : string) (g : group) :
  groupCounts (<[a := g]> m)
  = (count g + groupCounts m - match m !! a with Some g0 => count g0 | None => 0 end)%nat.
Proof.
  unfold groupCounts.
  destruct (m !! a) as [g0 |] eqn:Ha.
  - rewrite <- (insert_delete_id m a g0 Ha) at 2.
    rewrite <- insert_delete_eq.
    rewrite !(map_fold_insert_L (fun _ g acc => (count g + acc)%nat))
      by (try apply lookup_delete_eq; intros; lia).
    lia.
  - rewrite (map_fold_insert_L (fun _ g acc => (count g + acc)%nat))
      by (try exact Ha; intros; lia).
    lia.
Qed.

Lemma groupTokens_insert (m : gmap string group) (a : string) (g : group) :
  groupTokens (<[a := g]> m)
  = (totalTokens g + groupTokens m
     - match m !! a with Some g0 => totalTokens g0 | None => 0 end)%Z.
Proof.
  unfold groupTokens.
  destruct (m !! a) as [g0 |] eqn:Ha.
  - rewrite <- (insert_delete_id m a g0 Ha) at 2.
    rewrite <- insert_delete_eq.
    rewrite !(map_fold_insert_L (fun _ g acc => (totalTokens g + acc)%Z))
      by (try apply lookup_delete_eq; intros; lia).
    lia.
  - rewrite (map_fold_insert_L (fun _ g acc => (totalTokens g + acc)%Z))
      by (try exact Ha; intros; lia).
    lia.
Qed.

Lemma groupOf_snoc (l : list prompt) (p : prompt) :
  groupOf (l ++ [p])
  = Some (Group (S (length l)) (sumTokens l + tokenEstimate p)
                (map filename l ++ [filename p])).
Proof.
  assert (H : groupOf (l ++ [p])
              = Some (Group (length (l ++ [p])) (sumTokens (l ++ [p]))
                            (map filename (l ++ [p]))))
    by now destruct l.
  rewrite H, length_app, sumTokens_app, map_app. cbn.
  do 2 f_equal; lia.
Qed.

Definition grouped (m : gmap string group) (seen : list prompt) : Prop :=
  (forall a, m !! a = groupOf (List.filter (byAgentName a) seen)) /\
  groupCounts m = length seen /\
  groupTokens m = sumTokens seen.

Lemma addPrompt_grouped (m m' : gmap string group) (p : prompt) (seen : list prompt) :
  grouped m seen -> addPrompt m p = inr m' -> grouped m' (seen ++ [p]).
Proof.
  intros (Hgroups & Hcount & Htokens). unfold addPrompt.
  pose proof (Hgroups (agentName p)) as Hown.
  assert (Hstep : forall g,
            g = Group (S (length (List.filter (byAgentName (agentName p)) seen)))
                      (sumTokens (List.filter (byAgentName (agentName p)) seen)
                       + tokenEstimate p)
                      (map filename (List.filter (byAgentName (agentName p)) seen)
                       ++ [filename p]) ->
            grouped (<[agentName p := g]> m) (seen ++ [p])).
  { intros g ->. repeat split.
    - intros a. rewrite List.filter_app. cbn [List.filter].
      change (byAgentName a p) with (String.eqb (agentName p) a).
      destruct (String.eqb (agentName p) a) eqn:Ha.
      + apply String.eqb_eq in Ha. subst a. rewrite lookup_insert_eq.
        now rewrite groupOf_snoc.
      + apply String.eqb_neq in Ha. rewrite lookup_insert_ne by exact Ha.
        now rewrite app_nil_r.
    - rewrite groupCounts_insert, Hown, Hcount, length_app. cbn [count length].
      unfold groupOf. destruct (List.filter (byAgentName (agentName p)) seen);
        cbn [count length]; lia.
    - rewrite groupTokens_insert, Hown, Htokens, sumTokens_app. cbn [totalTokens].
      unfold groupOf. destruct (List.filter (byAgentName (agentName p)) seen);
        cbn [totalTokens sumTokens fold_right]; lia. }
  rewrite Hown. unfold groupOf.
  destruct (List.filter (byAgentName (agentName p)) seen) as [| q qs] eqn:Hq.
  - destruct (JS.arrayIncludes objectPrototypeKeys (agentName p)); [discriminate |].
    intros [= <-]. apply Hstep. reflexivity.
  - intros [= <-]. apply Hstep. reflexivity.
Qed.

Lemma addPrompts_grouped (ps : list prompt) (m m' : gmap string group)
      (seen : list prompt) :
  grouped m seen -> foldThrow addPrompt ps m = inr m' -> grouped m' (seen ++ ps).
Proof.
  revert m seen. induction ps as [| p ps IH]; intros m seen Hm.
  - cbn. intros [= <-]. now rewrite app_nil_r.
  - cbn [foldThrow]. destruct (addPrompt m p) as [e | m1] eqn:Hadd; [discriminate |].
    intros Hrest.
    replace (seen ++ p :: ps)%list with ((seen ++ [p]) ++ ps)%list
      by now rewrite <- app_assoc.
    apply (IH m1); [| exact Hrest]. now apply (addPrompt_grouped m).
Qed.

(** X16.  [getPromptsByAgent] groups the prompts by agent name: the group of
    an agent counts its prompts, adds up their token estimates and lists
    their file names in order, and an agent without prompts has no group;
    the counts of all groups add up to the number of prompts and their
    token totals to [getTotalTokenEstimate()]. *)
Theorem getPromptsByAgent_groups_and_adds_up
    (ps : list prompt) (byAgent : gmap string group) :
  getPromptsByAgent ps = inr byAgent ->
  (forall a, byAgent !! a = groupOf (List.filter (byAgentName a) ps)) /\
  groupCounts byAgent = length ps /\
  groupTokens byAgent = getTotalTokenEstimate ps.
Proof.
  intros Hrun. rewrite getTotalTokenEstimate_sum.
  apply (addPrompts_grouped ps ∅ byAgent []); [| exact Hrun].
  repeat split.
Qed.

Section Logged.

Variable pathJoin : string -> string -> string.
Variable promptsDir : string.

(** One call of [logPrompt]: the agent, the type, the content, the
    metadata and the two readings of the clock. *)
Definition call : Type := string * string * string * Json.json * string * string.

Definition callContent (c : call) : string :=
  let '(_, _, content, _, _, _) := c in content.

(** The list [this.prompts] after a sequence of calls on a new logger. *)
Definition logged (calls : list call) : list prompt :=
  fold_left
    (fun ps c =>
       let '(agent, type, content, meta, now1, now2) := c in
       snd (logPrompt pathJoin promptsDir agent type content meta now1 now2 ps))
    calls [].

Definition totalCharacters (ps : list prompt) : nat :=
  fold_right (fun p sum => (contentLength p + sum)%nat) 0%nat ps.

Lemma logged_snoc (calls : list call) (c : call) :
  logged (calls ++ [c])
  = (let '(agent, type, content, meta, now1, now2) := c in
     snd (logPrompt pathJoin promptsDir agent type content meta now1 now2
                    (logged calls))).
Proof. unfold logged. now rewrite fold_left_app. Qed.

Lemma totalCharacters_app (a b : list prompt) :
  totalCharacters (a ++ b) = (totalCharacters a + totalCharacters b)%nat.
Proof.
  induction a as [| p a IH]; [reflexivity |].
  cbn. fold (totalCharacters (a ++ b)). fold (totalCharacters a). rewrite IH. lia.
Qed.

(** X17.  After any sequence of [logPrompt] calls on a new logger there is
    one record per call, and the total token estimate is the number of
    characters logged divided by four, rounded up prompt by prompt: four
    times the estimate is at least the number of characters and exceeds it
    by less than four per prompt. *)
Theorem logged_tokens_bound_characters (calls : list call) :
  let ps := logged calls in
  length ps = length calls /\
  totalCharacters ps = list_sum (map (fun c => String.length (callContent c)) calls) /\
  (Z.of_nat (totalCharacters ps) <= 4 * getTotalTokenEstimate ps
   <= Z.of_nat (totalCharacters ps) + 3 * Z.of_nat (length calls))%Z.
Proof.
  cbv zeta. rewrite getTotalTokenEstimate_sum.
  induction calls as [| c calls IH] using rev_ind.
  - cbn. repeat split; lia.
  - destruct IH as (Hlen & Hchars & Hlo & Hhi).
    rewrite logged_snoc.
    destruct c as [[[[[agent type] content] meta] now1] now2].
    unfold logPrompt. cbn [snd].
    rewrite !length_app, totalCharacters_app, sumTokens_app, map_app, list_sum_app.
    cbn [length totalCharacters sumTokens fold_right contentLength tokenEstimate
         map list_sum callContent].
    pose proof (estimateTokens_bounds content) as Hb.
    unfold Text.estimateTokens in Hb.
    repeat split; lia.
Qed.

End Logged.

End PromptLogFacts.

Definition threePrompts : list PromptLog.prompt :=
  [ PromptLog.Prompt "t1" "ClaudeClassifier" "toc" "/p/a.md" "a.md" Json.JNull 10 40;
    PromptLog.Prompt "t2" "OpenAISynthesizer" "user" "/p/b.md" "b.md" Json.JNull 5 18;
    PromptLog.Prompt "t3" "ClaudeClassifier" "user" "/p/c.md" "c.md" Json.JNull 7 27 ].

Lemma getPromptsByAgent_groups_and_adds_up_witness :
  exists byAgent,
    PromptLog.getPromptsByAgent threePrompts = inr byAgent /\
    byAgent !! "ClaudeClassifier" = Some (PromptLog.Group 2 17 ["a.md"; "c.md"]) /\
    groupCounts byAgent = 3%nat /\
    groupTokens byAgent = 22%Z.
Proof.
  destruct (PromptLog.getPromptsByAgent threePrompts) as [e | byAgent] eqn:Hrun;
    [vm_compute in Hrun; discriminate Hrun |].
  exists byAgent. split; [reflexivity |].
  destruct (getPromptsByAgent_groups_and_adds_up _ _ Hrun) as (Hg & Hc & Ht).
  rewrite Hg, Hc, Ht. repeat split.
Defined.

(** ** Digest *)

Section HashFacts.

Import Hash.

(** The polynomial in 31 whose coefficients are the code units of the
    text, the first one with the highest power. *)
Definition polynomial (str : string) : Z :=
  fold_left (fun h c => (31 * h + Z.of_N (JS.charCode c))%Z)
            (list_ascii_of_string str) 0%Z.

Lemma toInt32_range (z : Z) : (- 2 ^ 31 <= toInt32 z < 2 ^ 31)%Z.
Proof.
  unfold toInt32.
  pose proof (Z.mod_pos_bound (z + 2 ^ 31) (2 ^ 32) ltac:(lia)). lia.
Qed.

Lemma toInt32_shift (z k : Z) : toInt32 (z + k * 2 ^ 32) = toInt32 z.
Proof.
  unfold toInt32.
  replace (z + k * 2 ^ 32 + 2 ^ 31)%Z with (z + 2 ^ 31 + k * 2 ^ 32)%Z by lia.
  now rewrite Z.mod_add by lia.
Qed.

Lemma toInt32_offset (z : Z) : exists k, toInt32 z = (z + k * 2 ^ 32)%Z.
Proof.
  exists (- ((z + 2 ^ 31) / 2 ^ 32))%Z. unfold toInt32.
  pose proof (Z.div_mod (z + 2 ^ 31) (2 ^ 32) ltac:(lia)). lia.
Qed.

Lemma toInt32_fixed (z : Z) : (- 2 ^ 31 <= z < 2 ^ 31)%Z -> toInt32 z = z.
Proof.
  intros Hz. unfold toInt32. rewrite Z.mod_small; lia.
Qed.

Lemma hashStep_polynomial (h : Z) (c : ascii) :
  hashStep (toInt32 h) c = toInt32 (31 * h + Z.of_N (JS.charCode c)).
Proof.
  unfold hashStep, and32, shl32. cbv zeta. rewrite Z.land_diag.
  change (5 mod 32)%Z with 5%Z. rewrite Z.shiftl_mul_pow2 by lia.
  rewrite (toInt32_fixed (toInt32 h)) by apply toInt32_range.
  destruct (toInt32_offset h) as (k1 & Hk1).
  destruct (toInt32_offset (toInt32 h * 2 ^ 5)) as (k2 & Hk2).
  rewrite Hk2, Hk1.
  replace ((h + k1 * 2 ^ 32) * 2 ^ 5 + k2 * 2 ^ 32 - (h + k1 * 2 ^ 32)
           + Z.of_N (JS.charCode c))%Z
    with (31 * h + Z.of_N (JS.charCode c) + (31 * k1 + k2) * 2 ^ 32)%Z by lia.
  apply toInt32_shift.
Qed.

Lemma hashLoop_polynomial (str : string) (h : Z) :
  hashLoop str (toInt32 h)
  = toInt32 (fold_left (fun h c => (31 * h + Z.of_N (JS.charCode c))%Z)
                       (list_ascii_of_string str) h).
Proof.
  revert h. induction str as [| c str IH]; intros h; [reflexivity |].
  cbn [hashLoop list_ascii_of_string fold_left].
  now rewrite hashStep_polynomial, IH.
Qed.

Lemma hashValue_polynomial (str : string) :
  hashValue str = toInt32 (polynomial str).
Proof.
  unfold hashValue, polynomial.
  change 0%Z with (toInt32 0) at 1. apply hashLoop_polynomial.
Qed.

(** X18.  The shifts and masks of [hashString] compute the polynomial hash
    in 31 of the code units, reduced to a signed 32-bit integer; the string
    returned is the magnitude of that integer in hexadecimal. *)
Theorem hashString_is_polynomial_hash (str : string) :
  hashValue str = toInt32 (polynomial str) /\
  hashString str = toString16 (Z.to_N (Z.abs (toInt32 (polynomial str)))).
Proof.
  split; [apply hashValue_polynomial |].
  unfold hashString. now rewrite hashValue_polynomial.
Qed.

Lemma hexFrom_length (fuel k : nat) (n : N) (acc : string) :
  (1 <= k)%nat -> (n < 16 ^ N.of_nat k)%N ->
  (String.length (hexFrom fuel n acc) <= k + String.length acc)%nat.
Proof.
  revert k n acc. induction fuel as [| fuel IH]; intros k n acc Hk Hn.
  - cbn. lia.
  - cbn [hexFrom]. destruct (n <? 16)%N eqn:Hlt.
    + cbn. lia.
    + apply N.ltb_ge in Hlt.
      destruct k as [| [| k]]; [lia | cbn in Hn; lia |].
      specialize (IH (S k) (n / 16)%N (String (Json.hexDigit (n mod 16)) acc)).
      cbn [String.length] in IH.
      assert (Hdiv : (n / 16 < 16 ^ N.of_nat (S k))%N).
      { apply N.Div0.div_lt_upper_bound.
        replace (16 * 16 ^ N.of_nat (S k))%N with (16 ^ N.of_nat (S (S k)))%N; [exact Hn |].
        rewrite (Nat2N.inj_succ (S k)), N.pow_succ_r'. reflexivity. }
      specialize (IH ltac:(lia) Hdiv). lia.
Qed.

(** X19.  [hashString] returns at most eight characters, so that the
    [substring(0, 8)] of the digest cuts nothing: the digest is the whole
    hash. *)
Theorem digest_is_the_whole_hash (str : string) :
  (String.length (hashString str) <= 8)%nat /\
  digest str = hashString str.
Proof.
  assert (Hlen : (String.length (hashString str) <= 8)%nat).
  { unfold hashString, toString16.
    pose proof (toInt32_range (polynomial str)) as Hr.
    rewrite hashValue_polynomial.
    pose proof (hexFrom_length
                  (S (N.to_nat (N.log2 (Z.to_N (Z.abs (toInt32 (polynomial str)))))))
                  8 (Z.to_N (Z.abs (toInt32 (polynomial str)))) EmptyString
                  ltac:(lia)) as Hh.
    cbn [String.length] in Hh. rewrite Nat.add_0_r in Hh. apply Hh.
    change (16 ^ N.of_nat 8)%N with 4294967296%N. lia. }
  split; [exact Hlen |]. unfold digest. now apply substring_all.
Qed.

End HashFacts.

Example hashString_abc : Hash.hashString "abc" = "17862".
Proof. vm_compute. reflexivity. Qed.

Example hashString_negative :
  Hash.hashValue "investor deck" = (-2054486223)%Z /\
  Hash.hashString "investor deck" = "7a74f8cf".
Proof. vm_compute. split; reflexivity. Qed.

(** ** Pacing of the image agent *)

Section RetryInvariant.

Import Retry.

Context {St A : Type}.
Variable fn : St -> outcome A * St.
Variable delay : Z -> St -> St.
Variable context : list (string * string).
Variable retryAttempts retryDelay : Z.

(** A property of the environment that the operation keeps and that
    waiting keeps holds when the executor is done, whatever the outcome. *)
Lemma retryLoop_keeps (P : St -> Prop) :
  (forall s, P s -> P (snd (fn s))) ->
  (forall ms s, (0 <= ms)%Z -> P s -> P (delay ms s)) ->
  (0 <= retryDelay)%Z ->
  forall (n : nat) (attempt : Z) last (w : world),
    P (opState w) ->
    P (opState (snd (retryLoop fn delay retryAttempts retryDelay context
                               n attempt last w))).
Proof.
  intros Hfn Hdelay Hbase.
  induction n as [| n IH]; intros attempt last w Hw; [exact Hw |].
  cbn [retryLoop].
  pose proof (Hfn (opState w) Hw) as Hstep.
  destruct (fn (opState w)) as [r st']. cbn [snd] in Hstep.
  destruct r as [a | e]; [exact Hstep |].
  destruct (isRetryable e); [| exact Hstep].
  apply IH. destruct (attempt <? retryAttempts)%Z; cbn [opState]; [| exact Hstep].
  apply Hdelay; [| exact Hstep].
  apply Z.mul_nonneg_nonneg; [exact Hbase |]. apply Z.pow_nonneg. lia.
Qed.

End RetryInvariant.

Section ImagePacing.

Import Image.

(** No scripted answer of the provider takes a negative time. *)
Definition timeMovesOn (e : env) : Prop :=
  Forall (fun answer => (0 <= snd answer)%Z) (script e).

(** The rate limit waits exactly as long as needed: after
    [enforceRateLimit] the clock reads the later of the time at entry and
    [minDelayBetweenCalls] after the previous stamp, and that reading is
    the new stamp. *)
Lemma enforceRateLimit_waits (cfg : imageConfig) (e : env) :
  let e' := enforceRateLimit cfg e in
  now e' = Z.max (now e) (lastCallTime e + minDelayBetweenCalls cfg) /\
  lastCallTime e' = now e' /\
  script e' = script e /\ providerCalls e' = providerCalls e.
Proof.
  unfold enforceRateLimit, delay. cbv zeta.
  destruct (now e - lastCallTime e <? minDelayBetweenCalls cfg)%Z eqn:Hlt;
    cbn [now lastCallTime script providerCalls].
  - apply Z.ltb_lt in Hlt. repeat split. lia.
  - apply Z.ltb_ge in Hlt. repeat split. lia.
Qed.

(** X20.  Two consecutive images of [execute]: whatever the provider
    answers and however often the call is retried, the rate limit lets the
    second image start no sooner than [minDelayBetweenCalls] after the
    first one started. *)
Theorem images_start_a_minimum_delay_apart (cfg : imageConfig) (e : env) :
  (0 <= baseBackoffMs cfg)%Z ->
  timeMovesOn e ->
  let first := enforceRateLimit cfg e in
  let done := Retry.opState (snd (callNanoBanana cfg first)) in
  let second := enforceRateLimit cfg done in
  (now first + minDelayBetweenCalls cfg <= now second)%Z /\
  lastCallTime second = now second.
Proof.
  intros Hbase Htime first done second.
  destruct (enforceRateLimit_waits cfg e) as (_ & Hstamp & Hscript & _).
  fold first in Hstamp, Hscript. clearbody first.
  assert (Hkeeps : lastCallTime done = lastCallTime first /\
                   (now first <= now done)%Z /\ timeMovesOn done).
  { subst done. unfold callNanoBanana, Retry.withRetry.
    apply (retryLoop_keeps provider delay [] (maxRetries cfg) (baseBackoffMs cfg)
             (fun s => lastCallTime s = lastCallTime first /\
                       (now first <= now s)%Z /\ timeMovesOn s)).
    - intros s (Hl & Hn & Ht). unfold provider, timeMovesOn in *.
      destruct (script s) as [| [r took] rest] eqn:Hs; cbn.
      + repeat split; [exact Hl | exact Hn | constructor].
      + inversion Ht as [| x l Htook Hrest]; subst. cbn in Htook.
        repeat split; [exact Hl | lia | exact Hrest].
    - intros ms s Hms (Hl & Hn & Ht). unfold delay, timeMovesOn in *. cbn.
      repeat split; [exact Hl | lia | exact Ht].
    - exact Hbase.
    - cbn. repeat split; [lia |]. unfold timeMovesOn. now rewrite Hscript. }
  destruct Hkeeps as (Hl & Hn & _).
  destruct (enforceRateLimit_waits cfg done) as (Hnow & Hstamp2 & _).
  fold second in Hnow, Hstamp2.
  split; [| exact Hstamp2]. rewrite Hnow, Hl, Hstamp. lia.
Qed.

End ImagePacing.

Lemma images_start_a_minimum_delay_apart_witness :
  let first := Image.enforceRateLimit Image.IMAGE_GENERATION_CONFIG failsOnce in
  let done :=
    Retry.opState (snd (Image.callNanoBanana Image.IMAGE_GENERATION_CONFIG first)) in
  let second := Image.enforceRateLimit Image.IMAGE_GENERATION_CONFIG done in
  (Image.now first + Image.minDelayBetweenCalls Image.IMAGE_GENERATION_CONFIG
   <= Image.now second)%Z /\
  Image.lastCallTime second = Image.now second.
Proof.
  apply (images_start_a_minimum_delay_apart Image.IMAGE_GENERATION_CONFIG failsOnce).
  - vm_compute. discriminate.
  - repeat constructor; vm_compute; discriminate.
Defined.

(** ** Merged classifications *)

Section MergeFacts.

Import Merge.

Context {E : Engine}.

Lemma SLIDE_TYPES_NoDup : List.NoDup SLIDE_TYPES.
Proof.
  unfold SLIDE_TYPES.
  repeat (constructor; [cbn; intuition discriminate |]). constructor.
Qed.

(** A loop over distinct keys whose body rewrites the entry of its key. *)
Lemma foldThrow_each_key
      (f : gmap string slide -> string -> thrown + gmap string slide)
      (g : string -> slide -> slide) :
  (forall m t s, m !! t = Some s -> f m t = inr (<[t := g t s]> m)) ->
  forall keys m,
    List.NoDup keys -> (forall t, In t keys -> is_Some (m !! t)) ->
    exists m',
      foldThrow f keys m = inr m' /\
      (forall t, In t keys -> m' !! t = g t <$> m !! t) /\
      (forall t, ~ In t keys -> m' !! t = m !! t).
Proof.
  intros Hf. induction keys as [| k keys IH]; intros m Hnd Hsome.
  - exists m. repeat split; intros t []. 
  - inversion Hnd as [| ? ? Hk Hnd']; subst.
    destruct (Hsome k (or_introl eq_refl)) as [s Hs].
    destruct (IH (<[k := g k s]> m) Hnd') as (m' & Hrun & Hin & Hout).
    { intros t Ht. rewrite lookup_insert_ne by (intros ->; contradiction).
      apply Hsome. now right. }
    exists m'. cbn [foldThrow]. rewrite (Hf m k s Hs). split; [exact Hrun |]. split.
    + intros t [<- | Ht].
      * rewrite (Hout k Hk), lookup_insert_eq, Hs. reflexivity.
      * rewrite (Hin t Ht), lookup_insert_ne by (intros ->; contradiction).
        reflexivity.
    + intros t Ht. rewrite Hout by (intros H; apply Ht; now right).
      rewrite lookup_insert_ne; [reflexivity |]. intros ->. apply Ht. now left.
Qed.

(** The data of a document for a slide type, when the document is
    relevant enough. *)
Definition qualifying (c : classification) (slideType : string) : option slideData :=
  match slideRelevance c !! slideType with
  | Some d => if bool_decide (Cost.usd 3 10 < scoreOf d)%Qc then Some d else None
  | None => None
  end.

Definition sourceOf (c : classification) (d : slideData) : source :=
  Source (filenameOf c) (scoreOf d)
         (List.filter (typeIs ["fact"; "statistic"]) (contentOf d))
         (List.filter (typeIs ["quote"]) (contentOf d))
         (List.filter (typeIs ["metric"; "statistic"]) (contentOf d))
         (contentOf d).

(** The sources of a slide type, in the order of the documents. *)
Definition sourcesFor (slideType : string) (cs : list classification) : list source :=
  flat_map (fun c => match qualifying c slideType with
                     | Some d => [sourceOf c d]
                     | None => []
                     end) cs.

(** The content of a slide type, in the order of the documents. *)
Definition contentFor (slideType : string) (cs : list classification)
  : list attributed :=
  flat_map (fun c => match qualifying c slideType with
                     | Some d => map (fun i => Attributed i (filenameOf c)) (contentOf d)
                     | None => []
                     end) cs.

Definition updRelevance (c : classification) (slideType : string) (s : slide) : slide :=
  match qualifying c slideType with
  | Some d =>
      Slide (relevantSources s ++ [sourceOf c d])
            (allContent s ++ map (fun i => Attributed i (filenameOf c)) (contentOf d))
            (conflicts s) (dataQuality s)
  | None => s
  end.

Lemma addRelevance_upd (c : classification) (m : gmap string slide)
      (t : string) (s : slide) :
  m !! t = Some s -> addRelevance c m t = inr (<[t := updRelevance c t s]> m).
Proof.
  intros Hs. unfold addRelevance, updRelevance, qualifying.
  destruct (slideRelevance c !! t) as [d |]; [| now rewrite insert_id].
  destruct (bool_decide _); [now rewrite Hs | now rewrite insert_id].
Qed.

Definition finished (s : slide) : slide :=
  let n := length (relevantSources s) in
  let count := Q2Qc (inject_Z (Z.of_nat n)) in
  Slide (sortByRelevance (relevantSources s)) (allContent s) (conflicts s)
        (Quality (if (0 <? n)%nat then Qcmin 1%Qc (count / Q2Qc 3%Q)%Qc else 0%Qc)
                 n
                 (if (0 <? n)%nat then (sumScores (relevantSources s) / count)%Qc
                  else avgConfidence (dataQuality s))).

Lemma finishSlide_finished (m : gmap string slide) (t : string) (s : slide) :
  m !! t = Some s -> finishSlide m t = inr (<[t := finished s]> m).
Proof. intros Hs. unfold finishSlide. now rewrite Hs. Qed.

Lemma initSlides_lookup (t : string) :
  initSlides !! t = if in_dec string_dec t SLIDE_TYPES then Some emptySlide else None.
Proof.
  unfold initSlides.
  assert (H : forall keys (m : gmap string slide),
            fold_left (fun m k => <[k := emptySlide]> m) keys m !! t
            = if in_dec string_dec t keys then Some emptySlide else m !! t).
  { induction keys as [| k keys IH]; intros m; cbn [fold_left].
    - now destruct (in_dec string_dec t []) as [[] | _].
    - rewrite IH.
      destruct (in_dec string_dec t keys) as [Hin | Hout];
        destruct (in_dec string_dec t ((k :: keys))) as [Hin' | Hout']; try reflexivity.
      + exfalso. apply Hout'. now right.
      + destruct Hin' as [-> | Hin']; [apply lookup_insert_eq | contradiction].
      + rewrite lookup_insert_ne; [reflexivity |]. intros ->. apply Hout'. now left. }
  rewrite H. destruct (in_dec _ _ _); [reflexivity | apply lookup_empty].
Qed.

(** The slide of a type before the quality loop. *)
Definition gathered (slideType : string) (cs : list classification) : slide :=
  Slide (sourcesFor slideType cs) (contentFor slideType cs) [] (Quality 0 0 0).

Lemma addClassifications_gathered (cs seen : list classification)
      (m : gmap string slide) (conf : list Json.json) :
  (forall t, In t SLIDE_TYPES -> m !! t = Some (gathered t seen)) ->
  (forall t, ~ In t SLIDE_TYPES -> m !! t = None) ->
  exists m',
    foldThrow addClassification cs (m, conf)
    = inr (m', (conf ++ flat_map docConflicts cs)%list) /\
    (forall t, In t SLIDE_TYPES -> m' !! t = Some (gathered t (seen ++ cs))) /\
    (forall t, ~ In t SLIDE_TYPES -> m' !! t = None).
Proof.
  revert seen m conf. induction cs as [| c cs IH]; intros seen m conf Hin Hout.
  - exists m. cbn. rewrite !app_nil_r. auto.
  - destruct (foldThrow_each_key (addRelevance c) (updRelevance c)
                (addRelevance_upd c) SLIDE_TYPES m SLIDE_TYPES_NoDup)
      as (m1 & Hrun & Hin1 & Hout1).
    { intros t Ht. rewrite (Hin t Ht). eauto. }
    destruct (IH (seen ++ [c])%list m1 (conf ++ docConflicts c)%list)
      as (m' & Hrest & Hin' & Hout').
    { intros t Ht. rewrite (Hin1 t Ht), (Hin t Ht). cbn [fmap option_fmap option_map].
      f_equal. unfold updRelevance, gathered, sourcesFor, contentFor.
      rewrite !flat_map_app. cbn [flat_map relevantSources allContent conflicts dataQuality].
      destruct (qualifying c t); rewrite ?app_nil_r; reflexivity. }
    { intros t Ht. now rewrite (Hout1 t Ht), (Hout t Ht). }
    exists m'. cbn [foldThrow]. unfold addClassification at 1. cbn [fst snd].
    rewrite Hrun, Hrest. cbn [flat_map].
    rewrite <- !app_assoc in *. cbn [app] in *. auto.
Qed.

(** What [mergeClassifications] builds for each slide type. *)
Lemma mergeClassifications_slides
      (now : string) (totalCost : Number.number) (cs : list classification)
      (story styleGuide : string) (r : result) :
  mergeClassifications now totalCost cs story styleGuide = inr r ->
  (forall t, In t SLIDE_TYPES -> slides r !! t = Some (finished (gathered t cs))) /\
  (forall t, ~ In t SLIDE_TYPES -> slides r !! t = None) /\
  globalConflicts r = flat_map docConflicts cs /\
  Gaps.analyzeAggregateGaps (view <$> slides r) = inr (missingCritical r).
Proof.
  unfold mergeClassifications.
  destruct (addClassifications_gathered cs [] initSlides [])
    as (m1 & Hrun & Hin1 & Hout1).
  { intros t Ht. rewrite initSlides_lookup.
    destruct (in_dec _ _ _); [reflexivity | contradiction]. }
  { intros t Ht. rewrite initSlides_lookup.
    destruct (in_dec _ _ _); [contradiction | reflexivity]. }
  rewrite Hrun. cbn [app] in *.
  destruct (foldThrow_each_key finishSlide (fun _ => finished)
              finishSlide_finished SLIDE_TYPES m1 SLIDE_TYPES_NoDup)
    as (m2 & Hfin & Hin2 & Hout2).
  { intros t Ht. rewrite (Hin1 t Ht). eauto. }
  rewrite Hfin.
  destruct (Gaps.analyzeAggregateGaps (view <$> m2)) as [e | gaps] eqn:Hgaps;
    [discriminate |].
  intros [= <-]. cbn [slides globalConflicts missingCritical].
  repeat split; try assumption.
  - intros t Ht. now rewrite (Hin2 t Ht), (Hin1 t Ht).
  - intros t Ht. now rewrite (Hout2 t Ht), (Hout1 t Ht).
Qed.

(** *** The ranking of the sources *)

Definition descending (l : list source) : Prop :=
  StronglySorted (fun a b => (relevanceScore b <= relevanceScore a)%Qc) l.

Lemma insertByRelevance_perm (x : source) (l : list source) :
  Permutation (insertByRelevance x l) (x :: l).
Proof.
  induction l as [| y l IH]; cbn [insertByRelevance]; [reflexivity |].
  destruct (bool_decide _); [reflexivity |].
  rewrite IH. apply perm_swap.
Qed.

Lemma insertByRelevance_descending (x : source) (l : list source) :
  descending l -> descending (insertByRelevance x l).
Proof.
  unfold descending. induction l as [| y l IH]; intros Hl; cbn [insertByRelevance].
  - repeat constructor.
  - inversion Hl as [| ? ? Hl' Hy]; subst.
    destruct (bool_decide (relevanceScore y < relevanceScore x)%Qc) eqn:Hlt.
    + apply bool_decide_eq_true in Hlt. constructor; [exact Hl |].
      constructor; [now apply Qclt_le_weak |].
      apply List.Forall_forall. intros z Hz.
      rewrite List.Forall_forall in Hy.
      apply (Qcle_trans _ (relevanceScore y)); [now apply Hy | now apply Qclt_le_weak].
    + apply bool_decide_eq_false in Hlt. apply Qcnot_lt_le in Hlt.
      constructor; [now apply IH |].
      apply List.Forall_forall. intros z Hz.
      apply (Permutation_in _ (insertByRelevance_perm x l)) in Hz.
      destruct Hz as [<- | Hz]; [exact Hlt |].
      rewrite List.Forall_forall in Hy. now apply Hy.
Qed.

Lemma sortByRelevance_spec (l : list source) :
  Permutation (sortByRelevance l) l /\ descending (sortByRelevance l).
Proof.
  unfold sortByRelevance.
  assert (H : forall acc, descending acc ->
              Permutation (fold_left (fun sorted x => insertByRelevance x sorted) l acc)
                          (acc ++ l)
              /\ descending (fold_left (fun sorted x => insertByRelevance x sorted) l acc)).
  { induction l as [| x l IH]; intros acc Hacc; cbn [fold_left].
    - rewrite app_nil_r. now split.
    - destruct (IH (insertByRelevance x acc)
                  (insertByRelevance_descending x acc Hacc)) as [Hp Hd].
      split; [| exact Hd].
      rewrite Hp, insertByRelevance_perm. cbn [app]. apply Permutation_middle. }
  apply (H []). constructor.
Qed.

Lemma sourcesFor_relevant (t : string) (cs : list classification) :
  Forall (fun src => (Cost.usd 3 10 < relevanceScore src)%Qc) (sourcesFor t cs).
Proof.
  apply List.Forall_forall. intros src Hsrc. unfold sourcesFor in Hsrc.
  apply in_flat_map in Hsrc. destruct Hsrc as (c & _ & Hc).
  unfold qualifying in Hc.
  destruct (slideRelevance c !! t) as [d |]; [| destruct Hc].
  destruct (bool_decide (Cost.usd 3 10 < scoreOf d)%Qc) eqn:Hd; [| destruct Hc].
  destruct Hc as [<- | []]. now apply bool_decide_eq_true in Hd.
Qed.

(** X22.  For every slide type, [mergeClassifications] lists as relevant
    sources exactly the documents whose score for the type is above 0.3,
    the most relevant first, and [sourceCount] is their number. *)
Theorem mergeClassifications_ranks_relevant_sources
    (now : string) (totalCost : Number.number) (cs : list classification)
    (story styleGuide : string) (r : result) (t : string) :
  mergeClassifications now totalCost cs story styleGuide = inr r ->
  In t SLIDE_TYPES ->
  exists s,
    slides r !! t = Some s /\
    Permutation (relevantSources s) (sourcesFor t cs) /\
    descending (relevantSources s) /\
    Forall (fun src => (Cost.usd 3 10 < relevanceScore src)%Qc) (relevantSources s) /\
    sourceCount (dataQuality s) = length (sourcesFor t cs).
Proof.
  intros Hrun Ht.
  destruct (mergeClassifications_slides _ _ _ _ _ _ Hrun) as (Hin & _).
  exists (finished (gathered t cs)). split; [now apply Hin |].
  cbn [finished gathered relevantSources dataQuality sourceCount].
  destruct (sortByRelevance_spec (sourcesFor t cs)) as [Hp Hd].
  repeat split; try assumption.
  apply List.Forall_forall. intros src Hsrc.
  apply (Permutation_in _ Hp) in Hsrc.
  pose proof (sourcesFor_relevant t cs) as Hall.
  rewrite List.Forall_forall in Hall. now apply Hall.
Qed.

(** X23.  Every item of [allContent] is attributed: it carries the file name
    of one of the relevant sources of its slide, and it is one of the
    items extracted from that source. *)
Theorem mergeClassifications_attributes_content
    (now : string) (totalCost : Number.number) (cs : list classification)
    (story styleGuide : string) (r : result) (t : string) :
  mergeClassifications now totalCost cs story styleGuide = inr r ->
  In t SLIDE_TYPES ->
  exists s,
    slides r !! t = Some s /\
    allContent s = contentFor t cs /\
    forall a, In a (allContent s) ->
      exists src, In src (relevantSources s) /\
                  itemSource a = filename src /\ In (item a) (sourceContent src).
Proof.
  intros Hrun Ht.
  destruct (mergeClassifications_slides _ _ _ _ _ _ Hrun) as (Hin & _).
  exists (finished (gathered t cs)). split; [now apply Hin |].
  cbn [finished gathered relevantSources allContent].
  split; [reflexivity |].
  intros a Ha. unfold contentFor in Ha. apply in_flat_map in Ha.
  destruct Ha as (c & Hc & Ha).
  destruct (qualifying c t) as [d |] eqn:Hq; [| destruct Ha].
  apply in_map_iff in Ha. destruct Ha as (i & <- & Hi).
  exists (sourceOf c d). repeat split; [| exact Hi].
  destruct (sortByRelevance_spec (sourcesFor t cs)) as [Hp _].
  apply (Permutation_in _ (Permutation_sym Hp)).
  unfold sourcesFor. apply in_flat_map. exists c. split; [exact Hc |].
  rewrite Hq. now left.
Qed.

(** *** The gaps of a merged aggregate *)

Lemma contentFor_nil (t : string) (cs : list classification) :
  sourcesFor t cs = [] -> contentFor t cs = [].
Proof.
  unfold sourcesFor, contentFor. induction cs as [| c cs IH]; [reflexivity |].
  cbn [flat_map]. destruct (qualifying c t); [discriminate |].
  cbn [app]. exact IH.
Qed.

(** A slide with a relevant source is at least a third complete. *)
Lemma finished_completeness (s : slide) :
  relevantSources s <> [] ->
  ~ (completeness (dataQuality (finished s)) < Cost.usd 3 10)%Qc.
Proof.
  intros Hne. cbn [finished dataQuality completeness].
  destruct (relevantSources s) as [| src l]; [contradiction |].
  cbn [length Nat.ltb Nat.leb].
  set (count := Q2Qc (inject_Z (Z.of_nat (S (length l))))).
  assert (Hcount : (1 <= count)%Qc).
  { subst count. unfold Qcle. cbn [this Q2Qc]. rewrite !Qred_correct.
    unfold Qle, inject_Z. cbn [Qnum Qden]. lia. }
  apply Qcle_not_lt. unfold Qcmin.
  destruct (bool_decide (1 <= count / Q2Qc 3%Q)%Qc); [vm_compute; discriminate |].
  apply (Qcle_trans _ (1 / Q2Qc 3%Q)%Qc); [vm_compute; discriminate |].
  unfold Qcdiv. apply Qcmult_le_compat_r; [exact Hcount |].
  vm_compute. discriminate.
Qed.

Lemma slideGaps_finished (t : string) (reqs : list string)
      (cs : list classification) (gs : list string) :
  Gaps.slideGaps t reqs (view (finished (gathered t cs))) = inr gs ->
  gs = [] \/
  (gs = [t ++ ": No content found"] /\
   contentFor t cs = [] /\
   Forall (fun src => ~ (Cost.usd 7 10 < relevanceScore src)%Qc)
          (sortByRelevance (sourcesFor t cs))).
Proof.
  unfold Gaps.slideGaps.
  destruct (Gaps.mapThrow _ _) as [e | contentTypes]; [discriminate |].
  destruct (Gaps.mapThrow _ _) as [e | contents]; [discriminate |].
  cbn [view finished gathered relevantSources allContent dataQuality
       Gaps.allContent Gaps.relevantSources Gaps.completeness].
  rewrite length_map.
  destruct (0 <? length (contentFor t cs))%nat eqn:Hcontent; cbn [negb andb].
  - (* there is content, so there is a source *)
    replace (bool_decide _) with false.
    + intros [= <-]. now left.
    + symmetry. apply bool_decide_eq_false.
      apply (finished_completeness (gathered t cs)). cbn [gathered relevantSources].
      intros Hnil. rewrite (contentFor_nil t cs Hnil) in Hcontent. discriminate.
  - destruct (existsb _ _) eqn:Hhigh; cbn [negb].
    + replace (bool_decide _) with false.
      * intros [= <-]. now left.
      * symmetry. apply bool_decide_eq_false.
        apply (finished_completeness (gathered t cs)). cbn [gathered relevantSources].
        intros Hnil. rewrite Hnil in Hhigh. discriminate.
    + intros [= <-]. right. split; [reflexivity |]. split.
      * destruct (contentFor t cs); [reflexivity | discriminate].
      * apply List.Forall_forall. intros src Hsrc Hgt.
        apply not_true_iff_false in Hhigh. apply Hhigh.
        apply existsb_exists.
        exists (Gaps.Source (filename src) (relevanceScore src)).
        split; [now apply (in_map (fun s => Gaps.Source (filename s) (relevanceScore s))) |].
        now apply bool_decide_eq_true.
Qed.

Lemma collectGaps_entries (entries : list (string * list string))
      (m : gmap string Gaps.slide) (P : string -> string -> Prop)
      (gaps : list string) :
  (forall t reqs s gs, In (t, reqs) entries -> m !! t = Some s ->
     Gaps.slideGaps t reqs s = inr gs -> Forall (P t) gs) ->
  Gaps.collectGaps entries m = inr gaps ->
  Forall (fun g => exists t, In t (map fst entries) /\ P t g) gaps.
Proof.
  revert gaps. induction entries as [| [t reqs] entries IH]; intros gaps Hall.
  - cbn. intros [= <-]. constructor.
  - cbn [Gaps.collectGaps].
    assert (Hrest : forall gs', Gaps.collectGaps entries m = inr gs' ->
              Forall (fun g => exists t0, In t0 (map fst ((t, reqs) :: entries)) /\ P t0 g) gs').
    { intros gs' Hgs'. apply IH in Hgs'.
      - eapply List.Forall_impl; [| exact Hgs']. intros g (t0 & Ht0 & Hg).
        exists t0. split; [now right | exact Hg].
      - intros t0 reqs0 s0 gs0 Hin. apply Hall. now right. }
    destruct (m !! t) as [s |] eqn:Hs; [| exact (Hrest gaps)].
    destruct (Gaps.slideGaps t reqs s) as [e | gs] eqn:Hgs; [discriminate |].
    destruct (Gaps.collectGaps entries m) as [e | gs'] eqn:Hgs'; [discriminate |].
    intros [= <-]. apply Forall_app. split; [| now apply Hrest].
    pose proof (Hall t reqs s gs (or_introl eq_refl) Hs Hgs) as Hp.
    eapply List.Forall_impl; [| exact Hp]. intros g Hg. exists t. split; [now left | exact Hg].
Qed.

Lemma firstn_In_list {X : Type} (n : nat) (l : list X) (x : X) :
  In x (firstn n l) -> In x l.
Proof.
  intros Hx. rewrite <- (firstn_skipn n l). apply in_or_app. now left.
Qed.

(** X24.  On the slides that [mergeClassifications] builds, the gap
    analysis reports nothing but entries [<type>: No content found], each
    for a slide with no content item and no source of relevance above 0.7:
    a slide with a relevant source has a completeness of a third or more,
    so the search for limited information is never reached. *)
Theorem mergeClassifications_reports_only_missing_content
    (now : string) (totalCost : Number.number) (cs : list classification)
    (story styleGuide : string) (r : result) (g : string) :
  mergeClassifications now totalCost cs story styleGuide = inr r ->
  In g (missingCritical r) ->
  exists t s,
    In t (map fst Gaps.criticalRequirements) /\
    g = t ++ ": No content found" /\
    slides r !! t = Some s /\
    allContent s = [] /\
    Forall (fun src => ~ (Cost.usd 7 10 < relevanceScore src)%Qc) (relevantSources s).
Proof.
  intros Hrun Hg.
  destruct (mergeClassifications_slides _ _ _ _ _ _ Hrun) as (Hin & _ & _ & Hgaps).
  unfold Gaps.analyzeAggregateGaps in Hgaps.
  destruct (Gaps.collectGaps Gaps.criticalRequirements (view <$> slides r))
    as [e | gaps] eqn:Hcollect; [discriminate |].
  injection Hgaps as Hreport. rewrite <- Hreport in Hg.
  apply firstn_In_list in Hg. apply uniqFrom_spec in Hg. destruct Hg as [Hg _].
  pose proof (collectGaps_entries Gaps.criticalRequirements (view <$> slides r)
                (fun t g => g = t ++ ": No content found" /\
                            contentFor t cs = [] /\
                            Forall (fun src => ~ (Cost.usd 7 10 < relevanceScore src)%Qc)
                                   (sortByRelevance (sourcesFor t cs)))
                gaps) as Hall.
  rewrite List.Forall_forall in Hall.
  destruct (Hall) with (x := g) as (t & Ht & -> & Hnone & Hlow); [| exact Hcollect | exact Hg |].
  - intros t reqs s gs Hentry Hs Hslide.
    assert (Ht : In t SLIDE_TYPES).
    { cbn in Hentry. 
      repeat (destruct Hentry as [[= <- <-] | Hentry]; [cbn; tauto |]).
      destruct Hentry. }
    rewrite lookup_fmap, (Hin t Ht) in Hs. injection Hs as <-.
    destruct (slideGaps_finished t reqs cs gs Hslide) as [-> | (-> & Hnone & Hlow)];
      [constructor |].
    constructor; [| constructor]. auto.
  - exists t, (finished (gathered t cs)).
    assert (Ht' : In t SLIDE_TYPES).
    { cbn in Ht. repeat (destruct Ht as [<- | Ht]; [cbn; tauto |]). destruct Ht. }
    repeat split; try assumption. now apply Hin.
Qed.

(** *** The relevance matrix *)

Lemma row_lookup (c : classification) (keys : list string) (t : string) :
  In t keys ->
  Cost.prop (map (fun slideType => (slideType, scoreAt c slideType)) keys) t
  = Some (scoreAt c t).
Proof.
  induction keys as [| k keys IH]; intros Hin; [destruct Hin |].
  cbn [map Cost.prop]. destruct (String.eqb k t) eqn:Hk.
  - apply String.eqb_eq in Hk. now subst k.
  - apply String.eqb_neq in Hk. destruct Hin as [-> | Hin]; [contradiction | now apply IH].
Qed.

(** The rows of the matrix in which a slide type scores above 0.3. *)
Definition relevantRows (t : string) (rows : list (list (string * Qc)))
  : list (list (string * Qc)) :=
  List.filter (fun row => match Cost.prop row t with
                          | Some q => bool_decide (Cost.usd 3 10 < q)%Qc
                          | None => false
                          end) rows.

Lemma sourcesFor_rows (t : string) (cs : list classification) :
  In t SLIDE_TYPES ->
  length (sourcesFor t cs)
  = length (relevantRows t (scores (buildRelevanceMatrix cs))).
Proof.
  intros Ht. unfold sourcesFor, relevantRows, buildRelevanceMatrix. cbn [scores].
  induction cs as [| c cs IH]; [reflexivity |].
  cbn [flat_map map List.filter]. rewrite length_app, IH.
  rewrite (row_lookup c SLIDE_TYPES t Ht).
  unfold qualifying, scoreAt.
  destruct (slideRelevance c !! t) as [d |].
  - destruct (bool_decide (Cost.usd 3 10 < scoreOf d)%Qc); reflexivity.
  - replace (bool_decide (Cost.usd 3 10 < 0)%Qc) with false; [reflexivity |].
    symmetry. apply bool_decide_eq_false. vm_compute. discriminate.
Qed.

(** X25.  The relevance matrix has one row and one file name per document,
    every row has a score for each of the twelve slide types, and for
    every slide type the number of relevant sources that the merge counts
    is the number of rows in which the type scores above 0.3. *)
Theorem relevance_matrix_agrees_with_merge
    (now : string) (totalCost : Number.number) (cs : list classification)
    (story styleGuide : string) (r : result) (t : string) :
  mergeClassifications now totalCost cs story styleGuide = inr r ->
  In t SLIDE_TYPES ->
  let m := buildRelevanceMatrix cs in
  length (documents m) = totalDocuments (resultMetadata r) /\
  length (scores m) = totalDocuments (resultMetadata r) /\
  Forall (fun row => map fst row = SLIDE_TYPES) (scores m) /\
  exists s,
    slides r !! t = Some s /\
    sourceCount (dataQuality s) = length (relevantRows t (scores m)).
Proof.
  intros Hrun Ht m.
  destruct (mergeClassifications_slides _ _ _ _ _ _ Hrun) as (Hin & _).
  assert (Hmeta : totalDocuments (resultMetadata r) = length cs).
  { unfold mergeClassifications in Hrun.
    destruct (foldThrow addClassification cs (initSlides, [])) as [e | [sl gc]];
      [discriminate |].
    destruct (foldThrow finishSlide SLIDE_TYPES sl) as [e | sl']; [discriminate |].
    destruct (Gaps.analyzeAggregateGaps (view <$> sl')) as [e | gaps]; [discriminate |].
    now injection Hrun as <-. }
  repeat split.
  - subst m. cbn [buildRelevanceMatrix documents]. now rewrite length_map, Hmeta.
  - subst m. cbn [buildRelevanceMatrix scores]. now rewrite length_map, Hmeta.
  - subst m. cbn [buildRelevanceMatrix scores].
    apply List.Forall_forall. intros row Hrow. apply in_map_iff in Hrow.
    destruct Hrow as (c & <- & _). rewrite map_map. cbn [fst]. apply map_id.
  - exists (finished (gathered t cs)). split; [now apply Hin |].
    cbn [finished gathered relevantSources dataQuality sourceCount].
    now apply sourcesFor_rows.
Qed.

End MergeFacts.

Section MergeExamples.

#[local] Existing Instance plainEngine.

(** Two documents: a deck that is highly relevant to the title slide and
    barely to the problem slide, and an unnamed note that is moderately
    relevant to the title and highly relevant to the team slide. *)
Definition twoDocuments : list Merge.classification :=
  [ Merge.Classification (Some "deck.txt")
      (<["title" := Merge.SlideData (Some (Cost.usd 5 10))
                      (Some [Gaps.ContentItem (Some (Json.str "fact"))
                                              (Some (Json.str "Acme builds robots"))])]>
       (<["problem" := Merge.SlideData (Some (Cost.usd 2 10)) None]> ∅))
      [Json.str "two founding dates"];
    Merge.Classification None
      (<["title" := Merge.SlideData (Some (Cost.usd 9 10)) None]>
       (<["team" := Merge.SlideData (Some (Cost.usd 8 10)) None]> ∅))
      [] ].

Example mergeClassifications_two_documents :
  match Merge.mergeClassifications "2026-01-01T00:00:00.000Z" Number.zero twoDocuments "story" "style" with
  | inr r =>
      option_map (fun s => map Merge.filename (Merge.relevantSources s))
                 (Merge.slides r !! "title") = Some ["unknown"; "deck.txt"] /\
      option_map (fun s => Merge.completeness (Merge.dataQuality s))
                 (Merge.slides r !! "title") = Some (Cost.usd 2 3) /\
      Merge.globalConflicts r = [Json.str "two founding dates"] /\
      Merge.missingCritical r
      = [ "problem: No content found"; "solution: No content found";
          "whyNow: No content found"; "marketSize: No content found";
          "competition: No content found"; "product: No content found";
          "businessModel: No content found"; "traction: No content found";
          "ask: No content found" ]
  | inl _ => False
  end.
Proof. vm_compute. repeat split. Qed.

Lemma mergeClassifications_ranks_relevant_sources_witness :
  exists r,
    Merge.mergeClassifications "2026-01-01T00:00:00.000Z" Number.zero twoDocuments "story" "style"
    = inr r /\
    exists s,
      Merge.slides r !! "title" = Some s /\
      Permutation (Merge.relevantSources s) (sourcesFor "title" twoDocuments) /\
      descending (Merge.relevantSources s) /\
      Forall (fun src => (Cost.usd 3 10 < Merge.relevanceScore src)%Qc)
             (Merge.relevantSources s) /\
      Merge.sourceCount (Merge.dataQuality s) = length (sourcesFor "title" twoDocuments).
Proof.
  destruct (Merge.mergeClassifications "2026-01-01T00:00:00.000Z" Number.zero twoDocuments
              "story" "style") as [e | r] eqn:Hrun;
    [vm_compute in Hrun; discriminate Hrun |].
  exists r. split; [reflexivity |].
  apply (mergeClassifications_ranks_relevant_sources _ _ _ _ _ _ "title" Hrun).
  cbn. tauto.
Defined.

Lemma mergeClassifications_attributes_content_witness :
  exists r,
    Merge.mergeClassifications "2026-01-01T00:00:00.000Z" Number.zero twoDocuments "story" "style"
    = inr r /\
    exists s,
      Merge.slides r !! "title" = Some s /\
      Merge.allContent s = contentFor "title" twoDocuments /\
      forall a, In a (Merge.allContent s) ->
        exists src, In src (Merge.relevantSources s) /\
                    Merge.itemSource a = Merge.filename src /\
                    In (Merge.item a) (Merge.sourceContent src).
Proof.
  destruct (Merge.mergeClassifications "2026-01-01T00:00:00.000Z" Number.zero twoDocuments
              "story" "style") as [e | r] eqn:Hrun;
    [vm_compute in Hrun; discriminate Hrun |].
  exists r. split; [reflexivity |].
  apply (mergeClassifications_attributes_content _ _ _ _ _ _ "title" Hrun).
  cbn. tauto.
Defined.

Lemma mergeClassifications_reports_only_missing_content_witness :
  exists r,
    Merge.mergeClassifications "2026-01-01T00:00:00.000Z" Number.zero twoDocuments "story" "style"
    = inr r /\
    exists t s,
      In t (map fst Gaps.criticalRequirements) /\
      "problem: No content found" = t ++ ": No content found" /\
      Merge.slides r !! t = Some s /\
      Merge.allContent s = [] /\
      Forall (fun src => ~ (Cost.usd 7 10 < Merge.relevanceScore src)%Qc)
             (Merge.relevantSources s).
Proof.
  destruct (Merge.mergeClassifications "2026-01-01T00:00:00.000Z" Number.zero twoDocuments
              "story" "style") as [e | r] eqn:Hrun;
    [vm_compute in Hrun; discriminate Hrun |].
  exists r. split; [reflexivity |].
  apply (mergeClassifications_reports_only_missing_content _ _ _ _ _ _
           "problem: No content found" Hrun).
  pose proof Hrun as Hvalue. vm_compute in Hvalue.
  injection Hvalue as <-. cbn. tauto.
Defined.

Lemma relevance_matrix_agrees_with_merge_witness :
  exists r,
    Merge.mergeClassifications "2026-01-01T00:00:00.000Z" Number.zero twoDocuments "story" "style"
    = inr r /\
    let m := Merge.buildRelevanceMatrix twoDocuments in
    length (Merge.documents m) = Merge.totalDocuments (Merge.resultMetadata r) /\
    length (Merge.scores m) = Merge.totalDocuments (Merge.resultMetadata r) /\
    Forall (fun row => map fst row = SLIDE_TYPES) (Merge.scores m) /\
    exists s,
      Merge.slides r !! "team" = Some s /\
      Merge.sourceCount (Merge.dataQuality s) = length (relevantRows "team" (Merge.scores m)).
Proof.
  destruct (Merge.mergeClassifications "2026-01-01T00:00:00.000Z" Number.zero twoDocuments
              "story" "style") as [e | r] eqn:Hrun;
    [vm_compute in Hrun; discriminate Hrun |].
  exists r. split; [reflexivity |].
  apply (relevance_matrix_agrees_with_merge _ _ _ _ _ _ "team" Hrun).
  cbn. tauto.
Defined.

End MergeExamples.
